(** * rolling: time-bucketed windows and percentile reducers

    A shallow embedding of the Go package [rolling] (asecurityteam/rolling):
    the time-bucketed window of [time.go] and of its three-argument
    successor, the reducers of [reduce.go] and [aggregate.go], and the
    streaming P-square estimator [FastPercentile].

    Samples are IEEE-754 binary64 numbers, modelled by Rocq's primitive
    floats; Go's [int], [int64] and [uint64] are integers in [Z] with the
    two's complement wrap-around written out; a Go panic is [None]. *)

From Stdlib Require Import ZArith List Bool Lia Floats Sorted Permutation.
Import ListNotations.

Set Warnings "-inexact-float".

Local Open Scope Z_scope.

(** ** The Go runtime: machine integers, slices, float64 helpers *)

Module Go.

(** A computation that may panic. *)
Definition bind {A B : Type} (m : option A) (k : A -> option B) : option B :=
  match m with
  | Some a => k a
  | None => None
  end.

Notation "x <- m ;; k" := (bind m (fun x => k))
  (at level 61, m at next level, right associativity).
Notation "' p <- m ;; k" := (bind m (fun x => let p := x in k))
  (at level 61, p pattern, m at next level, right associativity).

(** Two's complement wrap-around of a 64 bit signed integer. *)
Definition wrap64 (z : Z) : Z := (z + 2 ^ 63) mod 2 ^ 64 - 2 ^ 63.

Definition minInt64 : Z := - 2 ^ 63.

Definition add64 (a b : Z) : Z := wrap64 (a + b).
Definition sub64 (a b : Z) : Z := wrap64 (a - b).

(** [a / b] on integers truncates toward zero and panics on a zero divisor. *)
Definition div64 (a b : Z) : option Z :=
  if b =? 0 then None else Some (wrap64 (Z.quot a b)).

(** [a % b] takes the sign of the dividend and panics on a zero divisor. *)
Definition rem64 (a b : Z) : option Z :=
  if b =? 0 then None else Some (Z.rem a b).

(** [s[i]]: indexing a slice panics outside [0 <= i < len(s)]. *)
Definition index {A : Type} (s : list A) (i : Z) : option A :=
  if i <? 0 then None else nth_error s (Z.to_nat i).

(** [s[i] = v]. *)
Fixpoint update_nat {A : Type} (s : list A) (i : nat) (v : A) : option (list A) :=
  match s, i with
  | [], _ => None
  | _ :: t, O => Some (v :: t)
  | h :: t, S j => option_map (cons h) (update_nat t j v)
  end.

Definition update {A : Type} (s : list A) (i : Z) (v : A) : option (list A) :=
  if i <? 0 then None else update_nat s (Z.to_nat i) v.

Definition len {A : Type} (s : list A) : Z := Z.of_nat (length s).

(** The most bytes the runtime gives out in one piece: [maxAlloc] of the
    64 bit runtime, which addresses a heap of 48 bits. *)
Definition maxAlloc : Z := 2 ^ 48.

(** The test the runtime's [makeslice] makes for [make([]T, len, cap)] with
    elements of [size] bytes ([make([]T, len)] asks for [cap = len]): a
    negative length, a length above the capacity or a request above
    [maxAlloc] panics ("len out of range", "cap out of range"). A request
    that passes the test and that the machine cannot serve ends the
    process with a fatal error, which is no panic and is not modelled. *)
Definition makeslice (size len cap : Z) : bool :=
  (0 <=? len) && (len <=? cap) && (size * cap <=? maxAlloc).

(** [float64(i)] for an [int]: exact below [2^53], rounded to nearest
    above. The smallest [int] has no negation among the 63 bit integers
    the conversion goes through; it is the float [-2^63]. *)
Definition float64_of_int (z : Z) : float :=
  if z <? 0 then
    if z =? minInt64 then (-0x1p63)%float
    else (- of_uint63 (Uint63.of_Z (- z)))%float
  else of_uint63 (Uint63.of_Z z).

(** The value of a finite float scaled to an integer numerator and a power
    of two denominator. *)
Definition SFnum (s : bool) (m : positive) : Z := if s then Z.neg m else Z.pos m.

(** [int(math.Floor(x))]: the largest integer not above [x]. A value that
    does not fit [int64], an infinity or a NaN converts to the smallest
    [int64], as the amd64 conversion instruction does. *)
Definition int_Floor (x : float) : Z :=
  match Prim2SF x with
  | S754_zero _ => 0
  | S754_finite s m e =>
      let z := if 0 <=? e then SFnum s m * 2 ^ e else SFnum s m / 2 ^ (- e) in
      if (minInt64 <=? z) && (z <? 2 ^ 63) then z else minInt64
  | S754_infinity _ | S754_nan => minInt64
  end.

(** [math.Floor(x)] as a float; [x] itself when it has no fractional bits. *)
Definition math_Floor (x : float) : float :=
  match Prim2SF x with
  | S754_finite s m e =>
      if e <? 0 then float64_of_int (SFnum s m / 2 ^ (- e)) else x
  | _ => x
  end.

(** [math.Mod(x, 1)]: the remainder of [x / 1], exact, with the sign of
    [x]; NaN for an infinite or NaN argument. *)
Definition math_Mod1 (x : float) : float :=
  if is_nan x || is_infinity x then nan
  else
    let r := if (x <? 0)%float then (- x)%float else x in
    let r := if (1 <=? r)%float then (r - math_Floor r)%float else r in
    if (x <? 0)%float then (- r)%float else r.

(** The order of [sort.Float64s]: [<], with NaN before every number. *)
Definition float64_less (x y : float) : bool :=
  (x <? y)%float || (is_nan x && negb (is_nan y)).

Fixpoint sort_insert (x : float) (s : list float) : list float :=
  match s with
  | [] => [x]
  | y :: t => if float64_less y x then y :: sort_insert x t else x :: s
  end.

(** [sort.Float64s(s)]: [s] in increasing order, NaN first. The library's
    sort is not stable: it may leave elements that compare equal, which
    among floats are the zeros of the two signs, in another order than
    this insertion does. A window without NaN and without zero has one
    sorted arrangement only, the one both produce. *)
Definition sort_Float64s (s : list float) : list float :=
  fold_right sort_insert [] s.

End Go.

Import Go.

(** ** The time-bucketed window ([time.go]) *)

Module TimeWin.

(** [type TimeWindow struct]; the lock and the allocation hints
    ([largestAlloc], [prealloc], slice capacities) carry no value. *)
Record TimeWindow : Type := mkTimeWindow {
  bucketSizeNano : Z;
  numberOfBuckets : Z;
  numberOfBuckets64 : Z;
  window : list (list float);
  lastWindowOffset : Z;
  lastWindowTime : Z
}.

Definition set_window (w : TimeWindow) (b : list (list float)) : TimeWindow :=
  mkTimeWindow (bucketSizeNano w) (numberOfBuckets w) (numberOfBuckets64 w)
    b (lastWindowOffset w) (lastWindowTime w).

Definition set_last (w : TimeWindow) (offset time : Z) : TimeWindow :=
  mkTimeWindow (bucketSizeNano w) (numberOfBuckets w) (numberOfBuckets64 w)
    (window w) offset time.

(** [make([][]float64, n)]: [n] slots of one slice header, 24 bytes, each;
    panics on a negative length and on one the runtime refuses. *)
Definition make_window (n : Z) : option (list (list float)) :=
  if makeslice 24 n n then Some (repeat [] (Z.to_nat n)) else None.

(** [for offset := range w.window { w.window[offset] = make([]float64, 0, prealloc) }]:
    with no slot the loop does not run; with one, its first turn panics on
    a capacity that is negative or that the runtime refuses. *)
Definition preallocate (prealloc : Z) (b : list (list float))
  : option (list (list float)) :=
  match b with
  | [] => Some []
  | _ :: _ => if makeslice 8 0 prealloc then Some (map (fun _ => []) b) else None
  end.

(** [NewTimeWindow(bucketSize, numberOfBuckets)] of [time.go]: one slot more
    than asked for, each with a bucket of capacity [2>>8], which is 0. *)
Definition NewTimeWindow (bucketSize numberOfBuckets : Z) : option TimeWindow :=
  b <- make_window (add64 numberOfBuckets 1) ;;
  b <- preallocate (Z.shiftr 2 8) b ;;
  Some (mkTimeWindow bucketSize (add64 numberOfBuckets 1)
          (add64 numberOfBuckets 1) b 0 0).

(** [NewTimeWindow(bucketSize, numberOfBuckets, preallocHint)] of the later
    variant: exactly the slots asked for, each with a bucket of the
    capacity the hint names. *)
Definition NewTimeWindow3 (bucketSize numberOfBuckets preallocHint : Z)
  : option TimeWindow :=
  b <- make_window numberOfBuckets ;;
  b <- preallocate preallocHint b ;;
  Some (mkTimeWindow bucketSize numberOfBuckets numberOfBuckets b 0 0).

(** [resetWindow]: every bucket truncated to length zero. *)
Definition resetWindow (w : TimeWindow) : TimeWindow :=
  set_window w (map (fun _ => []) (window w)).

(** [w.window[offset] = w.window[offset][:0]]. *)
Definition clearBucket (offset : Z) (w : TimeWindow) : option TimeWindow :=
  b <- update (window w) offset [] ;;
  Some (set_window w b).

(** The values [counter] takes in
    [for counter := 1; counter < distance; counter = counter + 1]. *)
Definition counters (distance : Z) : list Z :=
  map Z.of_nat (seq 1 (Z.to_nat (distance - 1))).

(** One turn of the loop of [resetBuckets]. *)
Definition resetStep (w : option TimeWindow) (counter : Z) : option TimeWindow :=
  w <- w ;;
  offset <- rem64 (add64 counter (lastWindowOffset w)) (numberOfBuckets w) ;;
  clearBucket offset w.

Definition resetBuckets (windowOffset : Z) (w : TimeWindow) : option TimeWindow :=
  let distance := sub64 windowOffset (lastWindowOffset w) in
  let distance :=
    if distance <? 0
    then add64 (sub64 (numberOfBuckets w) (lastWindowOffset w)) windowOffset
    else distance in
  fold_left resetStep (counters distance) (Some w).

Definition keepConsistent (adjustedTime windowOffset : Z) (w : TimeWindow)
  : option TimeWindow :=
  let w :=
    if sub64 adjustedTime (lastWindowTime w) >? numberOfBuckets64 w
    then resetWindow w else w in
  if negb (adjustedTime =? lastWindowTime w)
     && (sub64 adjustedTime (lastWindowTime w) <? numberOfBuckets64 w)
  then resetBuckets windowOffset w
  else Some w.

(** [selectBucket(currentTime)], with [currentTime.UnixNano()] given. *)
Definition selectBucket (unixNano : Z) (w : TimeWindow) : option (Z * Z) :=
  adjustedTime <- div64 unixNano (bucketSizeNano w) ;;
  windowOffset <- rem64 adjustedTime (numberOfBuckets64 w) ;;
  Some (adjustedTime, windowOffset).

(** [Append(value)] ([Feed] in the later variant), at the instant [now]
    that [time.Now().UnixNano()] returns. *)
Definition Append (now : Z) (value : float) (w : TimeWindow) : option TimeWindow :=
  ' (adjustedTime, windowOffset) <- selectBucket now w ;;
  w <- keepConsistent adjustedTime windowOffset w ;;
  bucket <- index (window w) windowOffset ;;
  b <- update (window w) windowOffset (bucket ++ [value]) ;;
  Some (set_last (set_window w b) windowOffset adjustedTime).

(** [Iterate(f)] at the instant [now]: the points handed to [f], in order,
    and the window the call leaves behind. *)
Definition Iterate (now : Z) (w : TimeWindow) : option (list float * TimeWindow) :=
  ' (adjustedTime, windowOffset) <- selectBucket now w ;;
  w <- keepConsistent adjustedTime windowOffset w ;;
  Some (concat (window w), w).

(** Buckets that held samples before and hold none after. *)
Fixpoint retired (before after : list (list float)) : nat :=
  match before, after with
  | (_ :: _) :: bs, [] :: cs => S (retired bs cs)
  | _ :: bs, _ :: cs => retired bs cs
  | _, _ => O
  end.

End TimeWin.

(** ** The point windows

    [PointWindow] of [point.go] keeps the last [windowSize] values in one
    slice; the later [pointWindow] keeps one single-element bucket per
    value and advances its cursor before it writes. *)

Module PointWin.

Record PointWindow : Type := mkPointWindow {
  windowSize : Z;
  window : list float;
  offset : Z
}.

(** [make([]float64, n)]: [n] zeros of 8 bytes each; panics on a negative
    length and on one the runtime refuses. *)
Definition NewPointWindow (windowSize : Z) : option PointWindow :=
  if makeslice 8 windowSize windowSize
  then Some (mkPointWindow windowSize (repeat 0%float (Z.to_nat windowSize)) 0)
  else None.

Definition Append (value : float) (w : PointWindow) : option PointWindow :=
  b <- update (window w) (offset w) value ;;
  o <- rem64 (add64 (offset w) 1) (windowSize w) ;;
  Some (mkPointWindow (windowSize w) b o).

Definition Iterate (w : PointWindow) : list float := window w.

Record pointWindow : Type := mkpointWindow {
  windowSize' : Z;
  window' : list (list float);
  lastWindowOffset : Z
}.

(** [make([][]float64, n)], then [make([]float64, 1)] for every slot: [n]
    slice headers of 24 bytes, each set to one zero. *)
Definition NewPointWindow' (windowSize : Z) : option pointWindow :=
  if makeslice 24 windowSize windowSize
  then Some (mkpointWindow windowSize
               (repeat [0%float] (Z.to_nat windowSize)) 0)
  else None.

Definition Feed (value : float) (w : pointWindow) : option pointWindow :=
  windowOffset <- rem64 (add64 (lastWindowOffset w) 1) (windowSize' w) ;;
  bucket <- index (window' w) windowOffset ;;
  bucket <- update bucket 0 value ;;
  b <- update (window' w) windowOffset bucket ;;
  Some (mkpointWindow (windowSize' w) b windowOffset).

Definition Iterate' (w : pointWindow) : list float := concat (window' w).

(** [for x := 1; x <= n; x = x + 1 { w.Append(float64(x)) }]. *)
Definition appendUpTo (n : nat) (w : PointWindow) : option PointWindow :=
  fold_left (fun w x => w <- w ;; Append (float64_of_int (Z.of_nat x)) w)
    (seq 1 n) (Some w).

Definition feedUpTo (n : nat) (w : pointWindow) : option pointWindow :=
  fold_left (fun w x => w <- w ;; Feed (float64_of_int (Z.of_nat x)) w)
    (seq 1 n) (Some w).

End PointWin.

(** ** The reducers of [reduce.go]

    A reducer reads its window through [Iterate(func(float64))]; here it
    receives the points the callback is handed, in order. [FastPercentile]
    is from the variant of the file that has the streaming estimator. *)

Module Reduce.

Local Open Scope float_scope.

(** [Avg]: the sum and the count are accumulated as floats. *)
Definition Avg (it : list float) : float :=
  let '(result, count) :=
    fold_left (fun '(result, count) v => (result + v, count + 1)) it (0, 0) in
  result / count.

(** [int(s)]: truncation toward zero, see [int_Floor] for the values that
    do not fit. *)
Definition int_of_float64 (x : float) : Z :=
  match Prim2SF x with
  | S754_zero _ => 0%Z
  | S754_finite s m e =>
      let z := (if 0 <=? e then SFnum s m * 2 ^ e
                else Z.quot (SFnum s m) (2 ^ (- e)))%Z in
      if ((minInt64 <=? z) && (z <? 2 ^ 63))%Z then z else minInt64
  | S754_infinity _ | S754_nan => minInt64
  end.

(** The function [Percentile(p)] returns, applied to a window. *)
Definition Percentile (p : float) (it : list float) : option float :=
  let values := sort_Float64s it in
  let position := (float64_of_int (len values) * (p / 100) + 0.5) - 1 in
  let k := int_Floor position in
  let f := math_Mod1 position in
  if f =? 0 then index values k
  else
    let plusOne := add64 k 1 in
    let plusOne := if (plusOne >? sub64 (len values) 1)%Z then k else plusOne in
    vk <- index values k ;;
    vp <- index values plusOne ;;
    Some (((1 - f) * vk) + (f * vp)).

(** [sign]. *)
Definition sign (v : float) : float := if v <? 0 then -1 else 1.

(** One sweep of the inner loop of [bubbleSort] over a slice whose first
    element is [x]: the larger of each adjacent pair moves right. *)
Fixpoint bubble (x : float) (s : list float) : list float :=
  match s with
  | [] => [x]
  | y :: t => if y <? x then y :: bubble x t else x :: bubble y t
  end.

Definition bubblePass (s : list float) : list float :=
  match s with
  | [] => []
  | x :: t => bubble x t
  end.

(** [bubbleSort]: [for range s] runs one sweep per element. *)
Definition bubbleSort (s : list float) : list float :=
  fold_left (fun s _ => bubblePass s) s s.

(** The variables the closure of [FastPercentile] captures; the arrays
    [[5]float64] and [[5]int] are lists of five. *)
Record PSquare : Type := mkPSquare {
  initalObservations : list float;
  q : list float;
  n : list Z;
  nPrime : list float;
  dnPrime : list float;
  observations : Z
}.

(** [a[i]] and [a[i] = v] on an array of five: every index the code forms
    is inside the array (loop bounds [0..4], [1..3] and their neighbours). *)
Definition at_ {A : Type} (d : A) (a : list A) (i : Z) : A := nth (Z.to_nat i) a d.

Fixpoint put_nat {A : Type} (a : list A) (i : nat) (v : A) : list A :=
  match a, i with
  | [], _ => []
  | _ :: t, O => v :: t
  | h :: t, S j => h :: put_nat t j v
  end.

Definition put {A : Type} (a : list A) (i : Z) (v : A) : list A :=
  put_nat a (Z.to_nat i) v.

Definition qAt (st : PSquare) (i : Z) : float := at_ 0 (q st) i.
Definition nAt (st : PSquare) (i : Z) : Z := at_ 0%Z (n st) i.

Definition set_q (st : PSquare) (i : Z) (v : float) : PSquare :=
  mkPSquare (initalObservations st) (put (q st) i v) (n st) (nPrime st)
    (dnPrime st) (observations st).

Definition set_n (st : PSquare) (i : Z) (v : Z) : PSquare :=
  mkPSquare (initalObservations st) (q st) (put (n st) i v) (nPrime st)
    (dnPrime st) (observations st).

(** The zero values of the declarations at the head of the closure. *)
Definition initial : PSquare :=
  mkPSquare [] [0; 0; 0; 0; 0] [0; 0; 0; 0; 0]%Z [0; 0; 0; 0; 0]
    [0; 0; 0; 0; 0] 0.

(** The block under [if observations == 6]; [p] is already the fraction. *)
Definition initMarkers (p : float) (st : PSquare) : PSquare :=
  let sorted := bubbleSort (initalObservations st) in
  let st :=
    fold_left
      (fun st offset => set_n (set_q st offset (at_ 0 sorted offset)) offset offset)
      [0; 1; 2; 3; 4]%Z
      (mkPSquare sorted (q st) (n st) (nPrime st) (dnPrime st) (observations st)) in
  mkPSquare (initalObservations st) (q st) (n st)
    [0; 2 * p; 4 * p; 2 + 2 * p; 4]
    [0; p / 2; p; (1 + p) / 2; 1]
    (observations st).

(** The [switch] that finds the cell of [v], widening the extremes. *)
Definition findCell (st : PSquare) (v : float) : PSquare * Z :=
  if v <? qAt st 0 then (set_q st 0 v, 0%Z)
  else if (qAt st 0 <=? v) && (v <? qAt st 1) then (st, 0%Z)
  else if (qAt st 1 <=? v) && (v <? qAt st 2) then (st, 1%Z)
  else if (qAt st 2 <=? v) && (v <? qAt st 3) then (st, 2%Z)
  else if (qAt st 3 <=? v) && (v <=? qAt st 4) then (st, 3%Z)
  else if qAt st 4 <? v then (set_q st 4 v, 3%Z)
  else (st, 0%Z).

(** The body of [for x := 1; x < 4; x = x + 1]. *)
Definition adjust (st : PSquare) (x : Z) : PSquare :=
  let d := at_ 0 (nPrime st) x - float64_of_int (nAt st x) in
  if ((1 <=? d) && (sub64 (nAt st (x + 1)) (nAt st x) >? 1)%Z)
     || ((d <=? -1) && (sub64 (nAt st (x - 1)) (nAt st x) <? -1)%Z)
  then
    let s := sign d in
    let si := int_of_float64 s in
    let nx := float64_of_int (nAt st x) in
    let nxPlusOne := float64_of_int (nAt st (x + 1)) in
    let nxMinusOne := float64_of_int (nAt st (x - 1)) in
    let qx := qAt st x in
    let qxPlusOne := qAt st (x + 1) in
    let qxMinusOne := qAt st (x - 1) in
    let parab :=
      qAt st x + (s / (nxPlusOne - nxMinusOne))
                 * ((nx - nxMinusOne + s) * (qxPlusOne - qx) / (nxPlusOne - nx)
                    + (nxPlusOne - nx - s) * (qx - qxMinusOne) / (nx - nxMinusOne)) in
    let st :=
      if (qxMinusOne <? parab) && (parab <? qxPlusOne) then set_q st x parab
      else set_q st x
             (qAt st x
              + s * ((qAt st (x + si) - qAt st x)
                     / float64_of_int (sub64 (nAt st (x + si)) (nAt st x)))) in
    set_n st x (add64 (nAt st x) si)
  else st.

(** The callback from the [switch] on: one steady-state update. *)
Definition steady (st : PSquare) (v : float) : PSquare :=
  let '(st, k) := findCell st v in
  let st :=
    fold_left (fun st x => set_n st x (add64 (nAt st x) 1))
      (map Z.of_nat (seq (Z.to_nat (k + 1)) (5 - Z.to_nat (k + 1)))) st in
  let st :=
    mkPSquare (initalObservations st) (q st) (n st)
      (map (fun '(a, b) => a + b) (combine (nPrime st) (dnPrime st)))
      (dnPrime st) (observations st) in
  fold_left adjust [1; 2; 3]%Z st.

(** The callback handed to [Iterate]. *)
Definition observe (p : float) (st : PSquare) (v : float) : PSquare :=
  let st :=
    mkPSquare (initalObservations st) (q st) (n st) (nPrime st) (dnPrime st)
      ((observations st + 1) mod 2 ^ 64) in
  if (observations st <? 6)%Z then
    mkPSquare (initalObservations st ++ [v]) (q st) (n st) (nPrime st)
      (dnPrime st) (observations st)
  else
    let st := if (observations st =? 6)%Z then initMarkers p st else st in
    steady st v.

(** The function [FastPercentile(p)] returns, applied to a window. *)
Definition FastPercentile (p : float) (it : list float) : option float :=
  let p := p / 100 in
  let st := fold_left (observe p) it initial in
  if (observations st <? 5)%Z then
    let sorted := bubbleSort (initalObservations st) in
    index sorted (sub64 (len sorted) 1)
  else Some (qAt st 2).

End Reduce.

(** ** The aggregators of [aggregate.go] *)

Module Aggregate.

Local Open Scope float_scope.

(** [avg]. *)
Definition avg (it : list float) : float :=
  let '(result, numberOfPoints) :=
    fold_left (fun '(result, numberOfPoints) p => (result + p, numberOfPoints + 1))
      it (0, 0) in
  result / numberOfPoints.

(** [percentileAggregator.Aggregate] with [a.percentile = percentile]
    over the points [a.iterator] yields. *)
Definition Aggregate (percentile : float) (it : list float) : option float :=
  let values := it in
  if (len values <? 1)%Z then Some 0
  else if (len values <? 2)%Z then index values 0
  else
    let values := sort_Float64s values in
    let n := (percentile / 100) * float64_of_int (len values) - 1 in
    let k := int_Floor n in
    let plusOne := add64 k 1 in
    let plusOne := if (plusOne >? sub64 (len values) 1)%Z then k else plusOne in
    let f := math_Mod1 n in
    vk <- index values k ;;
    vp <- index values plusOne ;;
    Some (((1 - f) * vk) + (f * vp)).

End Aggregate.

(** ** The other reducers of [reduce.go] *)

Module Reducers.

Local Open Scope float_scope.

(** [Count]. *)
Definition Count (it : list float) : float :=
  fold_left (fun result v => result + 1) it 0.

(** [Sum]. *)
Definition Sum (it : list float) : float :=
  fold_left (fun result v => result + v) it 0.

(** [Min]: the flag [started] is read but never written. *)
Definition Min (it : list float) : float :=
  fst (fold_left
         (fun '(result, started) v =>
            if negb started then (v, started)
            else if v <? result then (v, started) else (result, started))
         it (0, false)).

(** [Max]. *)
Definition Max (it : list float) : float :=
  fst (fold_left
         (fun '(result, started) v =>
            if negb started then (v, started)
            else if result <? v then (v, started) else (result, started))
         it (0, false)).

End Reducers.

(** ** The other aggregating functions of [aggregate.go] *)

Module Aggregators.

Local Open Scope float_scope.

(** [math.Min(x, y)], with the special cases of the Go library: minus
    infinity wins over everything, then NaN, and of two zeros the
    negative one is returned. *)
Definition math_Min (x y : float) : float :=
  if (x =? neg_infinity) || (y =? neg_infinity) then neg_infinity
  else if is_nan x || is_nan y then nan
  else if (x =? 0) && (x =? y) then (if get_sign x then x else y)
  else if x <? y then x else y.

(** [math.Max(x, y)]. *)
Definition math_Max (x y : float) : float :=
  if (x =? infinity) || (y =? infinity) then infinity
  else if is_nan x || is_nan y then nan
  else if (x =? 0) && (x =? y) then (if get_sign x then y else x)
  else if y <? x then x else y.

(** [count]. *)
Definition count (it : list float) : float :=
  fold_left (fun result p => result + 1) it 0.

(** [sum]. *)
Definition sum (it : list float) : float :=
  fold_left (fun result p => result + p) it 0.

(** [min]: the first point, then [math.Min] with each later one. *)
Definition min (it : list float) : float :=
  fst (fold_left
         (fun '(result, gotOne) p =>
            if negb gotOne then (p, true) else (math_Min result p, gotOne))
         it (0, false)).

(** [max]. *)
Definition max (it : list float) : float :=
  fst (fold_left
         (fun '(result, gotOne) p =>
            if negb gotOne then (p, true) else (math_Max result p, gotOne))
         it (0, false)).

(** [limitedAggregator.Aggregate]: [points] is what the window yields to
    the counter; [evaluator] is the result of the aggregator behind it,
    asked only once the limit is reached. *)
Definition limited (limit : Z) (points : list float) (evaluator : option float)
  : option float :=
  if (count points <? float64_of_int limit)%float then Some 0%float
  else evaluator.

(** [percentageAggregateor.Aggregate] with the bounds handed to
    [NewPercentageAggregator], which keeps [upper - lower] as
    [adjustedUpper]; [aggregate] is what the aggregator behind returns. *)
Definition percentage (lower upper aggregate : float) : float :=
  let adjustedUpper := upper - lower in
  let value := aggregate - lower in
  if value <=? 0 then 0 else value / adjustedUpper.

End Aggregators.

(** ** The order of binary64 numbers *)

Module FloatOrder.

Definition notNaN (x : float) : Prop := is_nan x = false.

Definition fle (x y : float) : Prop := (x <=? y)%float = true.

Ltac sf_cases :=
  repeat match goal with
  | |- context [Z.compare ?a ?b] => destruct (Z.compare_spec a b)
  | |- context [Pos.compare_cont Eq ?a ?b] =>
      change (Pos.compare_cont Eq a b) with (Pos.compare a b);
      destruct (Pos.compare_spec a b)
  | H : context [Z.compare ?a ?b] |- _ => destruct (Z.compare_spec a b)
  | H : context [Pos.compare_cont Eq ?a ?b] |- _ =>
      change (Pos.compare_cont Eq a b) with (Pos.compare a b) in H;
      destruct (Pos.compare_spec a b)
  end; simpl in *; try reflexivity; try discriminate; try lia.

Lemma SFleb_refl (f : spec_float) : f <> S754_nan -> SFleb f f = true.
Proof.
  unfold SFleb, SFcompare. destruct f as [s | s | | s m e]; try congruence.
  - destruct s; reflexivity.
  - intros _. destruct s; sf_cases.
Qed.

Lemma SFltb_SFleb (f g : spec_float) : SFltb f g = true -> SFleb f g = true.
Proof.
  unfold SFltb, SFleb. destruct (SFcompare f g) as [[]|]; congruence.
Qed.

Lemma SFleb_total (f g : spec_float) :
  f <> S754_nan -> g <> S754_nan -> SFltb g f = false -> SFleb f g = true.
Proof.
  unfold SFltb, SFleb, SFcompare.
  destruct f as [s | s | | s m e], g as [s' | s' | | s' m' e'];
    try congruence; intros _ _;
    try destruct s; try destruct s'; try reflexivity; try discriminate;
    intros H; sf_cases.
Qed.

Lemma SFleb_SFltb (f g : spec_float) : SFleb f g = true -> SFltb g f = false.
Proof.
  unfold SFltb, SFleb, SFcompare.
  destruct f as [s | s | | s m e], g as [s' | s' | | s' m' e'];
    try congruence;
    try destruct s; try destruct s'; try reflexivity; try discriminate;
    intros H; sf_cases.
Qed.

Lemma SFleb_trans (f g h : spec_float) :
  SFleb f g = true -> SFleb g h = true -> SFleb f h = true.
Proof.
  unfold SFleb, SFcompare.
  destruct f as [s | s | | s m e], g as [s' | s' | | s' m' e'],
    h as [s'' | s'' | | s'' m'' e''];
    try congruence;
    try destruct s; try destruct s'; try destruct s'';
    try reflexivity; try discriminate;
    intros H1 H2; sf_cases.
Qed.

Lemma notNaN_Prim2SF (x : float) : notNaN x -> Prim2SF x <> S754_nan.
Proof.
  unfold notNaN, is_nan. rewrite eqb_spec. intros H E. rewrite E in H.
  discriminate.
Qed.

Lemma fle_notNaN (x y : float) : fle x y -> notNaN x /\ notNaN y.
Proof.
  unfold fle, notNaN, is_nan. rewrite leb_spec, !eqb_spec.
  unfold SFleb, SFeqb, SFcompare.
  destruct (Prim2SF x) as [s | s | | s m e], (Prim2SF y) as [s' | s' | | s' m' e'];
    try discriminate; intros _; split;
    try destruct s; try destruct s'; sf_cases.
Qed.

Lemma fle_refl (x : float) : notNaN x -> fle x x.
Proof.
  intros H. unfold fle. rewrite leb_spec.
  apply SFleb_refl, notNaN_Prim2SF, H.
Qed.

Lemma fle_trans (x y z : float) : fle x y -> fle y z -> fle x z.
Proof. unfold fle. rewrite !leb_spec. apply SFleb_trans. Qed.

Lemma ltb_fle (x y : float) : (x <? y)%float = true -> fle x y.
Proof. unfold fle. rewrite ltb_spec, leb_spec. apply SFltb_SFleb. Qed.

Lemma nltb_fle (x y : float) :
  notNaN x -> notNaN y -> (y <? x)%float = false -> fle x y.
Proof.
  intros Hx Hy. unfold fle. rewrite ltb_spec, leb_spec.
  apply SFleb_total; apply notNaN_Prim2SF; assumption.
Qed.

Lemma fle_nltb (x y : float) : fle x y -> (y <? x)%float = false.
Proof. unfold fle. rewrite ltb_spec, leb_spec. apply SFleb_SFltb. Qed.

Lemma SFleb_antisym (f g : spec_float) :
  SFleb f g = true -> SFleb g f = true ->
  (forall s, f <> S754_zero s) -> f = g.
Proof.
  unfold SFleb, SFcompare. intros H1 H2 Hz.
  destruct f as [s | s | | s m e], g as [s' | s' | | s' m' e'];
    try discriminate; try (exfalso; apply (Hz s); reflexivity);
    try destruct s; try destruct s';
    try reflexivity; try discriminate.
  - destruct (Z.compare_spec e e'); destruct (Z.compare_spec e' e);
      try discriminate; try lia. subst e'.
    change (Pos.compare_cont Eq m m') with (Pos.compare m m') in H1.
    change (Pos.compare_cont Eq m' m) with (Pos.compare m' m) in H2.
    rewrite (Pos.compare_antisym m m') in H2.
    destruct (Pos.compare_spec m m'); try discriminate. subst. reflexivity.
  - destruct (Z.compare_spec e e'); destruct (Z.compare_spec e' e);
      try discriminate; try lia. subst e'.
    change (Pos.compare_cont Eq m m') with (Pos.compare m m') in H1.
    change (Pos.compare_cont Eq m' m) with (Pos.compare m' m) in H2.
    rewrite (Pos.compare_antisym m m') in H2.
    destruct (Pos.compare_spec m m'); try discriminate. subst. reflexivity.
Qed.

(** Two numbers that are each at most the other are the same float, unless
    they are zeros, whose signs the order does not see. *)
Lemma fle_antisym (x y : float) :
  fle x y -> fle y x -> (x =? 0)%float = false -> x = y.
Proof.
  unfold fle. rewrite !leb_spec, eqb_spec.
  change (Prim2SF 0) with (S754_zero false).
  intros H1 H2 Hz. apply Prim2SF_inj.
  apply SFleb_antisym; [exact H1 | exact H2 |].
  intros s E. rewrite E in Hz. discriminate.
Qed.

End FloatOrder.

(** ** [bubbleSort] sorts *)

Module BubbleSortFacts.

Import Reduce FloatOrder.

Local Open Scope nat_scope.

(** What one sweep carries to the end of the slice, and what it leaves
    before it. *)
Fixpoint carry (x : float) (s : list float) : float :=
  match s with
  | [] => x
  | y :: t => if (y <? x)%float then carry x t else carry y t
  end.

Fixpoint front (x : float) (s : list float) : list float :=
  match s with
  | [] => []
  | y :: t => if (y <? x)%float then y :: front x t else x :: front y t
  end.

Definition allNotNaN (s : list float) : Prop := Forall notNaN s.

(** Every element of [s] is at most every element of [t]. *)
Definition below (s t : list float) : Prop :=
  Forall (fun x => Forall (fle x) t) s.

Lemma bubble_split (x : float) (s : list float) :
  bubble x s = front x s ++ [carry x s].
Proof.
  revert x. induction s as [| y t IH]; intros x; simpl; [reflexivity |].
  destruct (y <? x)%float; simpl; rewrite IH; reflexivity.
Qed.

Lemma bubble_app (x : float) (s t : list float) :
  bubble x (s ++ t) = front x s ++ bubble (carry x s) t.
Proof.
  revert x. induction s as [| y s IH]; intros x; simpl; [reflexivity |].
  destruct (y <? x)%float; simpl; rewrite IH; reflexivity.
Qed.

Lemma bubble_perm (x : float) (s : list float) : Permutation (bubble x s) (x :: s).
Proof.
  revert x. induction s as [| y t IH]; intros x; simpl; [reflexivity |].
  destruct (y <? x)%float.
  - rewrite IH. apply perm_swap.
  - rewrite IH. reflexivity.
Qed.

Lemma bubblePass_perm (s : list float) : Permutation (bubblePass s) s.
Proof. destruct s; simpl; [reflexivity | apply bubble_perm]. Qed.

Lemma carry_max (x : float) (s : list float) :
  allNotNaN (x :: s) -> Forall (fun y => fle y (carry x s)) (x :: s).
Proof.
  revert x. induction s as [| y t IH]; intros x H; simpl.
  - constructor; [apply fle_refl; inversion H; assumption | constructor].
  - inversion H as [| ? ? Hx Hyt]; subst. inversion Hyt as [| ? ? Hy Ht]; subst.
    destruct (y <? x)%float eqn:E.
    + assert (Hc : Forall (fun z => fle z (carry x t)) (x :: t))
        by (apply IH; constructor; assumption).
      inversion Hc as [| ? ? Hxc Htc]; subst.
      constructor; [assumption |].
      constructor; [| assumption].
      eapply fle_trans; [apply ltb_fle, E | assumption].
    + assert (Hc : Forall (fun z => fle z (carry y t)) (y :: t))
        by (apply IH; constructor; assumption).
      inversion Hc as [| ? ? Hyc Htc]; subst.
      constructor; [| constructor; assumption].
      eapply fle_trans; [apply nltb_fle; eassumption | assumption].
Qed.

Lemma carry_In (x : float) (s : list float) : In (carry x s) (x :: s).
Proof.
  revert x. induction s as [| y t IH]; intros x; simpl; [auto |].
  destruct (y <? x)%float.
  - destruct (IH x) as [E | HI]; [left; exact E | right; right; exact HI].
  - right. apply IH.
Qed.

Lemma front_incl (x : float) (s : list float) : incl (front x s) (x :: s).
Proof.
  intros z Hz. apply (Permutation_in z (bubble_perm x s)).
  rewrite bubble_split. apply in_or_app. left. exact Hz.
Qed.

Lemma front_length (x : float) (s : list float) : length (front x s) = length s.
Proof.
  revert x. induction s as [| y t IH]; intros x; simpl; [reflexivity |].
  destruct (y <? x)%float; simpl; rewrite IH; reflexivity.
Qed.

(** A sweep that enters a sorted run with a value below it changes nothing. *)
Lemma bubble_sorted (m : float) (t : list float) :
  Forall (fle m) t -> StronglySorted fle t -> bubble m t = m :: t.
Proof.
  revert m. induction t as [| y t IH]; intros m Hm Hs; simpl; [reflexivity |].
  inversion Hm as [| ? ? Hmy Hmt]; subst.
  inversion Hs as [| ? ? Hst Hyt]; subst.
  rewrite (fle_nltb _ _ Hmy). rewrite IH by assumption. reflexivity.
Qed.

(** After [k] sweeps the last [k] places are sorted and hold the largest
    elements. *)
Definition swept (k : nat) (s : list float) : Prop :=
  exists pre suf,
    s = pre ++ suf /\ length pre + k = length s /\
    StronglySorted fle suf /\ below pre suf.

Lemma swept_step (k : nat) (s : list float) :
  allNotNaN s -> swept k s -> k < length s -> swept (S k) (bubblePass s).
Proof.
  intros Hn (pre & suf & -> & Hlen & Hs & Hb) Hk.
  rewrite length_app in Hlen, Hk.
  destruct pre as [| x pre]; [simpl in Hlen, Hk; lia |].
  simpl. rewrite bubble_app.
  assert (Hpre : allNotNaN (x :: pre)).
  { unfold allNotNaN in *. rewrite Forall_forall in *. intros z Hz.
    apply Hn. apply in_or_app. left. exact Hz. }
  pose proof (carry_max x pre Hpre) as Hmax.
  assert (Hcs : Forall (fle (carry x pre)) suf).
  { unfold below in Hb. rewrite Forall_forall in Hb.
    apply Hb. apply carry_In. }
  rewrite bubble_sorted by assumption.
  exists (front x pre), (carry x pre :: suf). repeat split.
  - rewrite length_app. simpl in *. rewrite front_length. lia.
  - constructor; assumption.
  - unfold below in *. rewrite Forall_forall in *. intros z Hz.
    constructor.
    + apply Hmax, front_incl, Hz.
    + apply Hb, front_incl, Hz.
Qed.

Lemma fold_sweeps (s : list float) (l : list float) :
  fold_left (fun s _ => bubblePass s) l s = Nat.iter (length l) bubblePass s.
Proof.
  revert s. induction l as [| a l IH]; intros s; simpl; [reflexivity |].
  rewrite IH. clear IH. induction (length l) as [| n IHn]; simpl;
    [reflexivity | rewrite IHn; reflexivity].
Qed.

Lemma iter_perm (k : nat) (s : list float) :
  Permutation (Nat.iter k bubblePass s) s.
Proof.
  induction k as [| k IH]; simpl; [reflexivity |].
  rewrite bubblePass_perm. exact IH.
Qed.

Lemma bubbleSort_perm (s : list float) : Permutation (bubbleSort s) s.
Proof. unfold bubbleSort. rewrite fold_sweeps. apply iter_perm. Qed.

Lemma allNotNaN_perm (s t : list float) :
  Permutation s t -> allNotNaN t -> allNotNaN s.
Proof.
  intros HP H. unfold allNotNaN in *. rewrite Forall_forall in *.
  intros z Hz. apply H. eapply Permutation_in; eassumption.
Qed.

Lemma iter_swept (k : nat) (s : list float) :
  allNotNaN s -> k <= length s -> swept k (Nat.iter k bubblePass s).
Proof.
  intros Hn. induction k as [| k IH]; intros Hk; simpl.
  - exists s, []. repeat split.
    + rewrite app_nil_r. reflexivity.
    + lia.
    + constructor.
    + unfold below. rewrite Forall_forall. intros; constructor.
  - apply swept_step.
    + eapply allNotNaN_perm; [apply iter_perm | exact Hn].
    + apply IH. lia.
    + rewrite (Permutation_length (iter_perm k s)). lia.
Qed.

Lemma bubbleSort_sorted (s : list float) :
  allNotNaN s -> StronglySorted fle (bubbleSort s).
Proof.
  intros Hn. unfold bubbleSort. rewrite fold_sweeps.
  destruct (iter_swept (length s) s Hn (le_n _)) as (pre & suf & E & Hlen & Hs & _).
  rewrite (Permutation_length (iter_perm _ s)) in Hlen.
  destruct pre; [| simpl in Hlen; lia].
  rewrite E. exact Hs.
Qed.

(** The last element of a sorted slice is its largest. *)
Lemma sorted_last (s : list float) (m : float) :
  StronglySorted fle (s ++ [m]) -> Forall (fun y => fle y m) s.
Proof.
  induction s as [| x s IH]; intros H; [constructor |].
  inversion H as [| ? ? Hs Hx]; subst. constructor.
  - rewrite Forall_forall in Hx. apply Hx. apply in_or_app. right. left. reflexivity.
  - apply IH, Hs.
Qed.

End BubbleSortFacts.

(** ** The time-bucketed window: repair and last-touch markers *)

Module TimeWinFacts.

Import TimeWin.

Lemma wrap64_small (z : Z) : - 2 ^ 63 <= z < 2 ^ 63 -> wrap64 z = z.
Proof.
  intros H. unfold wrap64. rewrite Z.mod_small; lia.
Qed.

(** What a request that [makeslice] lets through looks like. *)
Lemma makeslice_true (size len cap : Z) :
  makeslice size len cap = true ->
  0 <= len <= cap /\ size * cap <= 2 ^ 48.
Proof.
  unfold makeslice, maxAlloc. intros H.
  apply andb_prop in H. destruct H as (H & H3).
  apply andb_prop in H. destruct H as (H1 & H2).
  apply Z.leb_le in H1, H2, H3. lia.
Qed.

Lemma preallocate_Some (prealloc : Z) (b b' : list (list float)) :
  preallocate prealloc b = Some b' -> b' = repeat [] (length b).
Proof.
  unfold preallocate. destruct b as [| x b].
  - intros H. injection H as <-. reflexivity.
  - destruct (makeslice 8 0 prealloc); [| discriminate].
    intros H. injection H as <-. simpl. f_equal.
    clear. induction b as [| y l IH]; simpl; [| rewrite IH]; reflexivity.
Qed.

Lemma resetWindow_empty (w : TimeWindow) :
  Forall (fun b => b = []) (window (resetWindow w)).
Proof.
  unfold resetWindow. simpl. induction (window w); simpl; constructor; auto.
Qed.

Lemma concat_empty (b : list (list float)) :
  Forall (fun x => x = []) b -> concat b = [].
Proof.
  induction 1 as [| x b Hx _ IH]; simpl; [reflexivity |].
  rewrite Hx, IH. reflexivity.
Qed.

Lemma resetWindow_length (w : TimeWindow) :
  length (window (resetWindow w)) = length (window w).
Proof. unfold resetWindow. simpl. apply length_map. Qed.

(** The frame of [Append], [Iterate] and the repair: bucket size and
    bucket counts are never written, the number of slots never changes. *)
Definition same_shape (w w' : TimeWindow) : Prop :=
  bucketSizeNano w' = bucketSizeNano w /\
  numberOfBuckets w' = numberOfBuckets w /\
  numberOfBuckets64 w' = numberOfBuckets64 w /\
  length (window w') = length (window w).

(** The repair writes neither marker. *)
Definition same_marks (w w' : TimeWindow) : Prop :=
  lastWindowOffset w' = lastWindowOffset w /\
  lastWindowTime w' = lastWindowTime w.

Lemma update_nat_length {A : Type} (s : list A) (i : nat) (v : A) (s' : list A) :
  update_nat s i v = Some s' -> length s' = length s.
Proof.
  revert i s'. induction s as [| h t IH]; intros i s' H; [discriminate |].
  destruct i as [| j]; simpl in H.
  - injection H as <-. reflexivity.
  - destruct (update_nat t j v) as [t' |] eqn:E; [| discriminate].
    injection H as <-. simpl. f_equal. eapply IH, E.
Qed.

Lemma update_length {A : Type} (s : list A) (i : Z) (v : A) (s' : list A) :
  update s i v = Some s' -> length s' = length s.
Proof.
  unfold update. destruct (i <? 0); [discriminate |]. apply update_nat_length.
Qed.

Lemma clearBucket_frame (offset : Z) (w w' : TimeWindow) :
  clearBucket offset w = Some w' -> same_shape w w' /\ same_marks w w'.
Proof.
  unfold clearBucket, bind. destruct (update (window w) offset []) as [b |] eqn:E;
    [| discriminate].
  intros H. injection H as <-. apply update_length in E.
  repeat split; simpl; assumption.
Qed.

Lemma resetLoop_None (cs : list Z) : fold_left resetStep cs None = None.
Proof. induction cs; simpl; auto. Qed.

Lemma resetStep_Some (w w1 : TimeWindow) (c : Z) :
  resetStep (Some w) c = Some w1 ->
  exists o, rem64 (add64 c (lastWindowOffset w)) (numberOfBuckets w) = Some o /\
            clearBucket o w = Some w1.
Proof.
  unfold resetStep. simpl.
  destruct (rem64 _ _) as [o |]; simpl; [| discriminate].
  intros H. exists o. split; [reflexivity | exact H].
Qed.

Lemma resetLoop_frame (cs : list Z) (w w' : TimeWindow) :
  fold_left resetStep cs (Some w) = Some w' -> same_shape w w' /\ same_marks w w'.
Proof.
  revert w. induction cs as [| c cs IH]; intros w; cbn [fold_left].
  - intros H. injection H as <-. repeat split.
  - destruct (resetStep (Some w) c) as [w1 |] eqn:E.
    + intros H. apply IH in H. apply resetStep_Some in E.
      destruct E as (o & _ & E). apply clearBucket_frame in E.
      unfold same_shape, same_marks in *. intuition congruence.
    + rewrite resetLoop_None. discriminate.
Qed.

Lemma resetBuckets_frame (windowOffset : Z) (w w' : TimeWindow) :
  resetBuckets windowOffset w = Some w' -> same_shape w w' /\ same_marks w w'.
Proof. unfold resetBuckets. apply resetLoop_frame. Qed.

Lemma keepConsistent_frame (adjustedTime windowOffset : Z) (w w' : TimeWindow) :
  keepConsistent adjustedTime windowOffset w = Some w' ->
  same_shape w w' /\ same_marks w w'.
Proof.
  unfold keepConsistent.
  set (w1 := if sub64 adjustedTime (lastWindowTime w) >? numberOfBuckets64 w
             then resetWindow w else w).
  assert (H1 : same_shape w w1 /\ same_marks w w1).
  { subst w1. destruct (_ >? _).
    - repeat split. apply resetWindow_length.
    - repeat split. }
  destruct (negb _ && _).
  - intros H. apply resetBuckets_frame in H.
    unfold same_shape, same_marks in *. intuition congruence.
  - intros H. injection H as <-. exact H1.
Qed.

(** What [Append] does once the bucket is selected. *)
Lemma Append_unfold (now a o : Z) (value : float) (w wa : TimeWindow) :
  selectBucket now w = Some (a, o) ->
  Append now value w = Some wa ->
  exists w1 bucket b,
    keepConsistent a o w = Some w1 /\
    index (window w1) o = Some bucket /\
    update (window w1) o (bucket ++ [value]) = Some b /\
    wa = set_last (set_window w1 b) o a.
Proof.
  unfold Append. intros ->. simpl.
  destruct (keepConsistent a o w) as [w1 |]; simpl; [| discriminate].
  destruct (index (window w1) o) as [bucket |] eqn:Ei; simpl; [| discriminate].
  destruct (update (window w1) o (bucket ++ [value])) as [b |] eqn:Eu; simpl;
    [| discriminate].
  intros H. injection H as <-. exists w1, bucket, b. auto.
Qed.

Lemma Iterate_unfold (now a o : Z) (w wi : TimeWindow) (pts : list float) :
  selectBucket now w = Some (a, o) ->
  Iterate now w = Some (pts, wi) ->
  keepConsistent a o w = Some wi /\ pts = concat (window wi).
Proof.
  unfold Iterate. intros ->. simpl.
  destruct (keepConsistent a o w) as [w1 |]; simpl; [| discriminate].
  intros H. injection H as <- <-. auto.
Qed.

(** ** Sample windows *)

(** Three buckets of one nanosecond asked from the three-argument
    constructor, fed 1, 2, 3 at the instants 1, 2, 3. *)
Definition fed3 : option TimeWindow :=
  w <- NewTimeWindow3 1 3 0 ;;
  w <- Append 1 1%float w ;;
  w <- Append 2 2%float w ;;
  Append 3 3%float w.

(** Two buckets asked from the constructor of [time.go], which allots
    three slots, fed the same way. *)
Definition fed2 : option TimeWindow :=
  w <- NewTimeWindow 1 2 ;;
  w <- Append 1 1%float w ;;
  w <- Append 2 2%float w ;;
  Append 3 3%float w.

(** The state both reach. *)
Definition ring3 : TimeWindow :=
  mkTimeWindow 1 3 3 [[3%float]; [1%float]; [2%float]] 0 3.

(** Three buckets asked from the constructor of [time.go], which allots
    four slots, fed 1, 2, 3, 4 at the instants 1, 2, 3, 4: every slot holds
    a sample. *)
Definition fed4 : option TimeWindow :=
  w <- NewTimeWindow 1 3 ;;
  w <- Append 1 1%float w ;;
  w <- Append 2 2%float w ;;
  w <- Append 3 3%float w ;;
  Append 4 4%float w.

Definition ring4 : TimeWindow :=
  mkTimeWindow 1 4 4 [[4%float]; [1%float]; [2%float]; [3%float]] 0 4.

Lemma fed3_ring3 : fed3 = Some ring3.
Proof. reflexivity. Qed.

Lemma fed2_ring3 : fed2 = Some ring3.
Proof. reflexivity. Qed.

Lemma fed4_ring4 : fed4 = Some ring4.
Proof. reflexivity. Qed.

(** ** Full-window staleness *)

Lemma index_cleared (l : list (list float)) (o : Z) :
  0 <= o < len l -> index (map (fun _ => []) l) o = Some (@nil float).
Proof.
  unfold index, len. intros H.
  destruct (o <? 0) eqn:E; [lia |].
  rewrite nth_error_map.
  destruct (nth_error l (Z.to_nat o)) eqn:En; [reflexivity |].
  apply nth_error_None in En. lia.
Qed.

Lemma update_nat_cleared (l : list (list float)) (i : nat) (v : float) :
  (i < length l)%nat ->
  exists b, update_nat (map (fun _ => []) l) i [v] = Some b /\ concat b = [v].
Proof.
  revert i. induction l as [| h t IH]; intros i Hi; simpl in Hi; [lia |].
  destruct i as [| j]; simpl.
  - eexists. split; [reflexivity |]. simpl.
    rewrite concat_empty; [reflexivity |].
    clear. induction t; simpl; constructor; auto.
  - destruct (IH j) as (b & -> & Hb); [lia |].
    eexists. split; [reflexivity |]. simpl. exact Hb.
Qed.

(** A window a constructor returned: [n] slots, all empty, and [n] in
    both bucket counts, for an [n] that [makeslice] let through. *)
Lemma constructed (bucketSize n prealloc : Z) (w : TimeWindow) :
  (b <- make_window n ;;
   b <- preallocate prealloc b ;;
   Some (mkTimeWindow bucketSize n n b 0 0)) = Some w ->
  w = mkTimeWindow bucketSize n n (repeat [] (Z.to_nat n)) 0 0 /\
  0 <= n /\ 24 * n <= 2 ^ 48.
Proof.
  unfold make_window. destruct (makeslice 24 n n) eqn:E; [| discriminate].
  cbn [bind].
  destruct (preallocate prealloc (repeat [] (Z.to_nat n))) as [b |] eqn:Ep;
    [| discriminate].
  cbn [bind]. intros H. injection H as <-.
  apply preallocate_Some in Ep. rewrite repeat_length in Ep. subst b.
  apply makeslice_true in E. split; [reflexivity | lia].
Qed.

(** The window of [n] empty slots with [n] in both bucket counts. *)
Definition constructed_as (bucketSize n : Z) (w : TimeWindow) : Prop :=
  w = mkTimeWindow bucketSize n n (repeat [] (Z.to_nat n)) 0 0 /\ 0 <= n.

Lemma NewTimeWindow_buckets (bucketSize n : Z) (w : TimeWindow) :
  NewTimeWindow bucketSize n = Some w ->
  numberOfBuckets64 w = add64 n 1 /\ numberOfBuckets w = add64 n 1 /\
  len (window w) = add64 n 1.
Proof.
  unfold NewTimeWindow. intros H.
  apply constructed in H. destruct H as (-> & H0 & _). simpl. repeat split.
  unfold len. rewrite repeat_length. lia.
Qed.

Lemma NewTimeWindow3_buckets (bucketSize n hint : Z) (w : TimeWindow) :
  NewTimeWindow3 bucketSize n hint = Some w ->
  numberOfBuckets64 w = n /\ numberOfBuckets w = n /\ len (window w) = n.
Proof.
  unfold NewTimeWindow3. intros H.
  apply constructed in H. destruct H as (-> & H0 & _). simpl. repeat split.
  unfold len. rewrite repeat_length. lia.
Qed.

(** The first guard of the repair: when the current bucket index minus
    [lastWindowTime] is strictly greater than the window's own bucket count
    [numberOfBuckets64] (the number asked for plus one under the
    constructor of [time.go], see [NewTimeWindow_buckets]; the number asked
    for under the three-argument constructor, see
    [NewTimeWindow3_buckets]), the repair empties every bucket: [Iterate]
    then visits no sample, and [Append] leaves the new sample as the only
    content of the window. *)
Theorem C3_stale_window_is_cleared
    (now : Z) (value : float) (w : TimeWindow) (adjustedTime windowOffset : Z) :
  selectBucket now w = Some (adjustedTime, windowOffset) ->
  numberOfBuckets64 w < sub64 adjustedTime (lastWindowTime w) ->
  keepConsistent adjustedTime windowOffset w = Some (resetWindow w) /\
  Forall (fun b => b = []) (window (resetWindow w)) /\
  Iterate now w = Some ([], resetWindow w) /\
  (0 <= windowOffset < len (window w) ->
   exists wa, Append now value w = Some wa /\ concat (window wa) = [value]).
Proof.
  intros Hs Hgap.
  assert (Hk : keepConsistent adjustedTime windowOffset w = Some (resetWindow w)).
  { unfold keepConsistent.
    destruct (sub64 adjustedTime (lastWindowTime w) >? numberOfBuckets64 w) eqn:E1;
      [| lia].
    simpl.
    destruct (sub64 adjustedTime (lastWindowTime w) <? numberOfBuckets64 w) eqn:E2;
      [lia |].
    rewrite andb_false_r. reflexivity. }
  split; [exact Hk |]. split; [apply resetWindow_empty |]. split.
  - unfold Iterate. rewrite Hs. simpl. rewrite Hk. simpl.
    rewrite concat_empty by (clear; induction (window w); simpl; constructor; auto).
    reflexivity.
  - intros Ho. unfold Append. rewrite Hs. simpl. rewrite Hk. simpl.
    rewrite index_cleared by exact Ho. simpl.
    unfold update. destruct (windowOffset <? 0) eqn:E; [lia |].
    destruct (update_nat_cleared (window w) (Z.to_nat windowOffset) value)
      as (b & -> & Hb); [unfold len in Ho; lia |].
    simpl. eexists. split; [reflexivity |]. exact Hb.
Qed.

Lemma C3_stale_window_is_cleared_witness :
  keepConsistent 7 1 ring3 = Some (resetWindow ring3) /\
  Forall (fun b => b = []) (window (resetWindow ring3)) /\
  Iterate 7 ring3 = Some ([], resetWindow ring3) /\
  (0 <= 1 < len (window ring3) ->
   exists wa, Append 7 9%float ring3 = Some wa /\ concat (window wa) = [9%float]).
Proof.
  apply (C3_stale_window_is_cleared 7 9%float ring3 7 1);
    [reflexivity | vm_compute; reflexivity].
Defined.

(** A gap of exactly [numberOfBuckets64] passes both tests of
    [keepConsistent]: it is not greater, and it is not smaller. *)
Lemma keepConsistent_full_gap (adjustedTime windowOffset : Z) (w : TimeWindow) :
  sub64 adjustedTime (lastWindowTime w) = numberOfBuckets64 w ->
  keepConsistent adjustedTime windowOffset w = Some w.
Proof.
  intros H. unfold keepConsistent. rewrite H.
  destruct (numberOfBuckets64 w >? numberOfBuckets64 w) eqn:E1; [lia |].
  rewrite H.
  destruct (numberOfBuckets64 w <? numberOfBuckets64 w) eqn:E2; [lia |].
  rewrite andb_false_r. reflexivity.
Qed.

(** C3 at the failing input. The constructor of [time.go], asked for two
    buckets, allots three slots and keeps 3 as its bucket count. Fed at
    the instants 1, 2, 3 and touched at the instant 6, three bucket
    durations after the last sample, which is more than the two buckets
    asked for, the window is not cleared: the gap equals the bucket count
    kept, the first guard of the repair asks for more and the second for
    less, so [Iterate] still visits the three old samples and [Append]
    adds a fourth to them. One bucket duration later, at a gap of 4,
    everything is cleared. *)
Theorem C3_full_gap_is_not_cleared :
  fed2 = Some ring3 /\
  numberOfBuckets64 ring3 = 2 + 1 /\
  selectBucket 6 ring3 = Some (6, 0) /\
  (2 <? sub64 6 (lastWindowTime ring3)) = true /\
  sub64 6 (lastWindowTime ring3) = numberOfBuckets64 ring3 /\
  keepConsistent 6 0 ring3 = Some ring3 /\
  Iterate 6 ring3 = Some ([3%float; 1%float; 2%float], ring3) /\
  Append 6 9%float ring3
    = Some (mkTimeWindow 1 3 3 [[3%float; 9%float]; [1%float]; [2%float]] 0 6) /\
  Iterate 7 ring3 = Some ([], resetWindow ring3) /\
  option_map (fun w => concat (window w)) (Append 7 9%float ring3)
    = Some [9%float].
Proof. repeat split. Qed.

(** C2 at the failing input. Three buckets asked from the three-argument
    constructor, fed at the instants 1, 2, 3 and touched at the instant 6:
    the gap is 3, the bucket count, and neither branch of the repair runs;
    the buckets at the offsets 1 and 2, written five and four bucket
    durations earlier, keep their samples. With a gap of 2 the branch for
    missed buckets clears the offset strictly between the two, with a gap
    of 4 the whole window is cleared. *)
Theorem C2_repair_skipped_at_full_gap :
  fed3 = Some ring3 /\
  selectBucket 6 ring3 = Some (6, 0) /\
  sub64 6 (lastWindowTime ring3) = numberOfBuckets64 ring3 /\
  keepConsistent 6 0 ring3 = Some ring3 /\
  Iterate 6 ring3 = Some ([3%float; 1%float; 2%float], ring3) /\
  keepConsistent 5 2 ring3
    = Some (set_window ring3 [[3%float]; []; [2%float]]) /\
  keepConsistent 7 1 ring3 = Some (resetWindow ring3).
Proof. repeat split. Qed.

(** ** A touch one bucket later *)

Lemma retired_same (s : list (list float)) : retired s s = 0%nat.
Proof.
  induction s as [| b s IH]; simpl; [reflexivity |].
  destruct b; exact IH.
Qed.

Lemma update_nat_spec {A : Type} (s : list A) (i : nat) (v : A) (b : list A) :
  update_nat s i v = Some b ->
  nth_error b i = Some v /\
  forall j, j <> i -> nth_error b j = nth_error s j.
Proof.
  revert i b. induction s as [| h t IH]; intros i b H; [discriminate |].
  destruct i as [| i]; simpl in H.
  - injection H as <-. split; [reflexivity |].
    intros [| j] Hj; [congruence | reflexivity].
  - destruct (update_nat t i v) as [t' |] eqn:E; [| discriminate].
    injection H as <-. destruct (IH _ _ E) as (H1 & H2).
    split; [exact H1 |].
    intros [| j] Hj; [reflexivity |]. simpl. apply H2. congruence.
Qed.

Lemma update_spec {A : Type} (s : list A) (i : Z) (v : A) (b : list A) :
  update s i v = Some b ->
  index b i = Some v /\ forall j, j <> i -> index b j = index s j.
Proof.
  unfold update, index. destruct (i <? 0) eqn:E; [discriminate |].
  intros H. destruct (update_nat_spec _ _ _ _ H) as (H1 & H2).
  split; [exact H1 |].
  intros j Hj. destruct (j <? 0) eqn:Ej; [reflexivity |].
  apply H2. lia.
Qed.

Lemma update_nat_total {A : Type} (s : list A) (i : nat) (v : A) :
  (i < length s)%nat -> exists b, update_nat s i v = Some b.
Proof.
  revert i. induction s as [| h t IH]; intros i Hi; simpl in Hi; [lia |].
  destruct i as [| i]; simpl; [eauto |].
  destruct (IH i) as (b & ->); [lia |]. simpl. eauto.
Qed.

Lemma index_total {A : Type} (s : list A) (i : Z) :
  0 <= i < len s -> exists x, index s i = Some x.
Proof.
  unfold index, len. intros H. destruct (i <? 0) eqn:E; [lia |].
  destruct (nth_error s (Z.to_nat i)) eqn:En; [eauto |].
  apply nth_error_None in En. lia.
Qed.

Lemma update_total {A : Type} (s : list A) (i : Z) (v : A) :
  0 <= i < len s -> exists b, update s i v = Some b.
Proof.
  unfold update, len. intros H. destruct (i <? 0) eqn:E; [lia |].
  apply update_nat_total. lia.
Qed.

Lemma retired_grown (s : list (list float)) (i : nat) (x : float)
    (bucket : list float) (b : list (list float)) :
  update_nat s i (bucket ++ [x]) = Some b -> retired s b = 0%nat.
Proof.
  revert i b. induction s as [| h t IH]; intros i b H; [discriminate |].
  destruct i as [| i]; simpl in H.
  - injection H as <-. simpl.
    destruct h; destruct (bucket ++ [x]) eqn:E; try apply retired_same.
    destruct bucket; discriminate.
  - destruct (update_nat t i (bucket ++ [x])) as [t' |] eqn:E; [| discriminate].
    injection H as <-. simpl. destruct h; eapply IH; exact E.
Qed.

(** ** What a touch changes *)

(** How the repair may change a window: only in its buckets, of which
    there are as many as before, each as it was or emptied. *)
Definition repaired (w w' : TimeWindow) : Prop :=
  w' = set_window w (window w') /\
  length (window w') = length (window w) /\
  forall i, index (window w') i = index (window w) i \/
            index (window w') i = Some [].

Lemma set_window_same (w : TimeWindow) : set_window w (window w) = w.
Proof. destruct w. reflexivity. Qed.

Lemma repaired_refl (w : TimeWindow) : repaired w w.
Proof.
  split; [symmetry; apply set_window_same |]. split; [reflexivity |].
  intros i. left. reflexivity.
Qed.

Lemma repaired_trans (w w1 w2 : TimeWindow) :
  repaired w w1 -> repaired w1 w2 -> repaired w w2.
Proof.
  intros (E1 & L1 & B1) (E2 & L2 & B2). split; [| split].
  - rewrite E2, E1. reflexivity.
  - congruence.
  - intros i. destruct (B2 i) as [H | H]; [| right; exact H].
    rewrite H. apply B1.
Qed.

Lemma resetWindow_repaired (w : TimeWindow) : repaired w (resetWindow w).
Proof.
  unfold resetWindow. split; [reflexivity |]. split.
  - simpl. apply length_map.
  - intros i. simpl. unfold index. destruct (i <? 0); [left; reflexivity |].
    rewrite nth_error_map.
    destruct (nth_error (window w) (Z.to_nat i)); [right | left]; reflexivity.
Qed.

Lemma clearBucket_repaired (offset : Z) (w w' : TimeWindow) :
  clearBucket offset w = Some w' -> repaired w w'.
Proof.
  unfold clearBucket, bind.
  destruct (update (window w) offset []) as [b |] eqn:E; [| discriminate].
  intros H. injection H as <-. split; [reflexivity |]. split.
  - simpl. eapply update_length, E.
  - intros i. simpl. destruct (update_spec _ _ _ _ E) as (Hat & Hother).
    destruct (Z.eq_dec i offset) as [-> | Hne].
    + right. exact Hat.
    + left. apply Hother, Hne.
Qed.

Lemma resetLoop_repaired (cs : list Z) (w w' : TimeWindow) :
  fold_left resetStep cs (Some w) = Some w' -> repaired w w'.
Proof.
  revert w. induction cs as [| c cs IH]; intros w; cbn [fold_left].
  - intros H. injection H as <-. apply repaired_refl.
  - destruct (resetStep (Some w) c) as [w1 |] eqn:E.
    + intros H. apply IH in H. apply resetStep_Some in E.
      destruct E as (o & _ & E). apply clearBucket_repaired in E.
      eapply repaired_trans; eassumption.
    + rewrite resetLoop_None. discriminate.
Qed.

(** The repair changes nothing but buckets, and a bucket only by emptying
    it. *)
Lemma keepConsistent_repaired (adjustedTime windowOffset : Z) (w w' : TimeWindow) :
  keepConsistent adjustedTime windowOffset w = Some w' -> repaired w w'.
Proof.
  unfold keepConsistent.
  set (w1 := if sub64 adjustedTime (lastWindowTime w) >? numberOfBuckets64 w
             then resetWindow w else w).
  assert (H1 : repaired w w1).
  { subst w1. destruct (_ >? _);
      [apply resetWindow_repaired | apply repaired_refl]. }
  destruct (negb _ && _).
  - intros H. apply resetLoop_repaired in H.
    eapply repaired_trans; eassumption.
  - intros H. injection H as <-. exact H1.
Qed.

(** C7, as the code has it. Both operations select the bucket of the
    instant and run the same repair, which changes nothing but buckets and
    a bucket only by emptying it. [Iterate] hands out the points of the
    repaired window and leaves that window behind: it writes neither
    marker, [lastWindowTime] and [lastWindowOffset] stay as they were.
    [Append] leaves the repaired window with the value at the end of the
    current bucket, [lastWindowTime] set to the current bucket index and
    [lastWindowOffset] to the current ring offset, and nothing else
    changed: every other bucket is that of the repaired window, and the
    bucket size, the bucket counts and the number of slots are those of
    the window before. *)
Theorem C7_markers_after_touch
    (now : Z) (value : float) (w wa wi : TimeWindow) (pts : list float) :
  Append now value w = Some wa ->
  Iterate now w = Some (pts, wi) ->
  exists adjustedTime windowOffset bucket b,
    selectBucket now w = Some (adjustedTime, windowOffset) /\
    keepConsistent adjustedTime windowOffset w = Some wi /\
    repaired w wi /\
    pts = concat (window wi) /\
    lastWindowTime wi = lastWindowTime w /\
    lastWindowOffset wi = lastWindowOffset w /\
    index (window wi) windowOffset = Some bucket /\
    update (window wi) windowOffset (bucket ++ [value]) = Some b /\
    wa = set_last (set_window wi b) windowOffset adjustedTime /\
    lastWindowTime wa = adjustedTime /\
    lastWindowOffset wa = windowOffset /\
    index (window wa) windowOffset = Some (bucket ++ [value]) /\
    (forall i, i <> windowOffset -> index (window wa) i = index (window wi) i) /\
    same_shape w wa /\ same_shape w wi.
Proof.
  intros HA HI.
  destruct (selectBucket now w) as [[a o] |] eqn:Hs;
    [| unfold Append in HA; rewrite Hs in HA; discriminate].
  destruct (Append_unfold _ _ _ _ _ _ Hs HA) as (w1 & bucket & b & Hk & Hi & Hu & ->).
  destruct (Iterate_unfold _ _ _ _ _ _ Hs HI) as (Hk' & ->).
  rewrite Hk in Hk'. injection Hk' as ->.
  exists a, o, bucket, b.
  pose proof (keepConsistent_repaired _ _ _ _ Hk) as Hr.
  pose proof (keepConsistent_frame _ _ _ _ Hk) as (Hshape & Hl & Ht).
  destruct (update_spec _ _ _ _ Hu) as (Hat & Hother).
  pose proof (update_length _ _ _ _ Hu) as Hlen.
  split; [reflexivity |]. split; [exact Hk |]. split; [exact Hr |].
  split; [reflexivity |]. split; [exact Ht |]. split; [exact Hl |].
  split; [exact Hi |]. split; [exact Hu |]. split; [reflexivity |].
  split; [reflexivity |]. split; [reflexivity |].
  split; [exact Hat |]. split; [exact Hother |].
  split; [| exact Hshape].
  destruct Hshape as (E1 & E2 & E3 & E4).
  unfold same_shape. simpl. repeat split; congruence.
Qed.

Lemma C7_markers_after_touch_witness :
  exists adjustedTime windowOffset bucket b,
    selectBucket 5 ring3 = Some (adjustedTime, windowOffset) /\
    keepConsistent adjustedTime windowOffset ring3
    = Some (mkTimeWindow 1 3 3 [[3%float]; []; [2%float]] 0 3) /\
    repaired ring3 (mkTimeWindow 1 3 3 [[3%float]; []; [2%float]] 0 3) /\
    [3%float; 2%float]
    = concat (window (mkTimeWindow 1 3 3 [[3%float]; []; [2%float]] 0 3)) /\
    lastWindowTime (mkTimeWindow 1 3 3 [[3%float]; []; [2%float]] 0 3)
      = lastWindowTime ring3 /\
    lastWindowOffset (mkTimeWindow 1 3 3 [[3%float]; []; [2%float]] 0 3)
      = lastWindowOffset ring3 /\
    index (window (mkTimeWindow 1 3 3 [[3%float]; []; [2%float]] 0 3)) windowOffset
      = Some bucket /\
    update (window (mkTimeWindow 1 3 3 [[3%float]; []; [2%float]] 0 3))
      windowOffset (bucket ++ [9%float]) = Some b /\
    mkTimeWindow 1 3 3 [[3%float]; []; [2%float; 9%float]] 2 5
      = set_last (set_window (mkTimeWindow 1 3 3 [[3%float]; []; [2%float]] 0 3) b)
          windowOffset adjustedTime /\
    lastWindowTime (mkTimeWindow 1 3 3 [[3%float]; []; [2%float; 9%float]] 2 5)
      = adjustedTime /\
    lastWindowOffset (mkTimeWindow 1 3 3 [[3%float]; []; [2%float; 9%float]] 2 5)
      = windowOffset /\
    index (window (mkTimeWindow 1 3 3 [[3%float]; []; [2%float; 9%float]] 2 5))
      windowOffset = Some (bucket ++ [9%float]) /\
    (forall i, i <> windowOffset ->
       index (window (mkTimeWindow 1 3 3 [[3%float]; []; [2%float; 9%float]] 2 5)) i
       = index (window (mkTimeWindow 1 3 3 [[3%float]; []; [2%float]] 0 3)) i) /\
    same_shape ring3 (mkTimeWindow 1 3 3 [[3%float]; []; [2%float; 9%float]] 2 5) /\
    same_shape ring3 (mkTimeWindow 1 3 3 [[3%float]; []; [2%float]] 0 3).
Proof.
  apply (C7_markers_after_touch 5 9%float ring3
           (mkTimeWindow 1 3 3 [[3%float]; []; [2%float; 9%float]] 2 5)
           (mkTimeWindow 1 3 3 [[3%float]; []; [2%float]] 0 3)
           [3%float; 2%float]);
    reflexivity.
Defined.

(** C7 as stated fails for [Iterate]: read at the instant 5, bucket index
    5 and ring offset 2, the window fed up to the instant 3 keeps
    [lastWindowTime = 3] and [lastWindowOffset = 0], where [Append] at the
    same instant moves them to 5 and 2. *)
Lemma C7_counterexample :
  selectBucket 5 ring3 = Some (5, 2) /\
  option_map (fun r => (lastWindowTime (snd r), lastWindowOffset (snd r)))
    (Iterate 5 ring3) = Some (3, 0) /\
  option_map (fun w => (lastWindowTime w, lastWindowOffset w))
    (Append 5 9%float ring3) = Some (5, 2).
Proof. repeat split. Qed.

(** ** Settled windows

    The state the constructors build and [Append] maintains: both bucket
    counts agree with the number of slots, and [lastWindowOffset] is the
    ring offset of [lastWindowTime]. *)
Definition settled (w : TimeWindow) : Prop :=
  0 < bucketSizeNano w /\
  0 < numberOfBuckets w < 2 ^ 62 /\
  numberOfBuckets64 w = numberOfBuckets w /\
  len (window w) = numberOfBuckets w /\
  0 <= lastWindowTime w /\
  lastWindowOffset w = Z.rem (lastWindowTime w) (numberOfBuckets w).

Lemma constructed_settled (bucketSize n prealloc : Z) (w : TimeWindow) :
  0 < bucketSize -> 0 < n ->
  (b <- make_window n ;;
   b <- preallocate prealloc b ;;
   Some (mkTimeWindow bucketSize n n b 0 0)) = Some w ->
  settled w.
Proof.
  intros Hb Hn H. apply constructed in H. destruct H as (-> & _ & Hmax).
  unfold settled, len. simpl. rewrite repeat_length, Z.rem_0_l by lia.
  repeat split; try lia.
Qed.

(** The window the constructor of [time.go] returns for a number of
    buckets that is not negative is settled. *)
Lemma NewTimeWindow_settled (bucketSize n : Z) (w : TimeWindow) :
  0 < bucketSize -> 0 <= n < 2 ^ 63 ->
  NewTimeWindow bucketSize n = Some w -> settled w.
Proof.
  intros Hb Hn H. unfold NewTimeWindow in H.
  assert (H1 : 0 < add64 n 1).
  { destruct (constructed _ _ _ _ H) as (_ & H0 & _).
    unfold add64 in *.
    destruct (Z.eq_dec (n + 1) (2 ^ 63)) as [E | E].
    - rewrite E in H0. vm_compute in H0. exfalso. apply H0. reflexivity.
    - rewrite wrap64_small by lia. lia. }
  eapply constructed_settled; [exact Hb | exact H1 | exact H].
Qed.

(** So is the window the three-argument constructor returns for at least
    one bucket. *)
Lemma NewTimeWindow3_settled (bucketSize n hint : Z) (w : TimeWindow) :
  0 < bucketSize -> 0 < n ->
  NewTimeWindow3 bucketSize n hint = Some w -> settled w.
Proof.
  intros Hb Hn H. unfold NewTimeWindow3 in H.
  eapply constructed_settled; [exact Hb | exact Hn | exact H].
Qed.

(** On a settled window a non-negative instant selects a bucket index and
    a slot inside the ring. *)
Lemma selectBucket_settled (now : Z) (w : TimeWindow) :
  settled w -> 0 <= now < 2 ^ 63 ->
  exists a o,
    selectBucket now w = Some (a, o) /\
    0 <= a < 2 ^ 63 /\ o = Z.rem a (numberOfBuckets w) /\
    0 <= o < numberOfBuckets w.
Proof.
  intros (Hb & HN & HN64 & Hlen & HT & Hoff) Hnow.
  unfold selectBucket, div64, rem64. rewrite HN64.
  destruct (bucketSizeNano w =? 0) eqn:E1; [lia |]. simpl.
  destruct (numberOfBuckets w =? 0) eqn:E2; [lia |]. simpl.
  assert (Hq : 0 <= Z.quot now (bucketSizeNano w) <= now).
  { split; [apply Z.quot_pos; lia |].
    rewrite Z.quot_div_nonneg by lia.
    apply Z.div_le_upper_bound; [lia | nia]. }
  rewrite wrap64_small by lia.
  eexists _, _. split; [reflexivity |]. split; [lia |]. split; [reflexivity |].
  rewrite Z.rem_mod_nonneg by lia. apply Z.mod_pos_bound. lia.
Qed.

(** What the loop of [resetBuckets] does for the counters [cs]: the
    buckets at the offsets [(counter + lastWindowOffset) % numberOfBuckets]
    are emptied, all the others are kept. *)
Definition swept_offset (w : TimeWindow) (cs : list Z) (i : Z) : bool :=
  existsb
    (fun c => Z.rem (add64 c (lastWindowOffset w)) (numberOfBuckets w) =? i) cs.

Lemma resetLoop_spec (cs : list Z) (w : TimeWindow) :
  0 < numberOfBuckets w ->
  len (window w) = numberOfBuckets w ->
  (forall c, In c cs -> 0 <= add64 c (lastWindowOffset w)) ->
  exists w',
    fold_left resetStep cs (Some w) = Some w' /\
    forall i b, index (window w) i = Some b ->
                index (window w') i
                = Some (if swept_offset w cs i then [] else b).
Proof.
  revert w. induction cs as [| c cs IH]; intros w HN Hlen Hcs.
  - exists w. split; [reflexivity |]. intros i b Hb. exact Hb.
  - cbn [fold_left].
    assert (Hc : 0 <= add64 c (lastWindowOffset w)) by (apply Hcs; left; reflexivity).
    set (o := Z.rem (add64 c (lastWindowOffset w)) (numberOfBuckets w)).
    assert (Ho : 0 <= o < len (window w)).
    { subst o. rewrite Hlen, Z.rem_mod_nonneg by lia. apply Z.mod_pos_bound. lia. }
    destruct (update_total (window w) o [] Ho) as (b1 & Hu).
    assert (Hstep : resetStep (Some w) c = Some (set_window w b1)).
    { unfold resetStep, rem64, clearBucket. simpl.
      destruct (numberOfBuckets w =? 0) eqn:E; [lia |]. simpl.
      fold o. rewrite Hu. reflexivity. }
    rewrite Hstep.
    destruct (IH (set_window w b1)) as (w' & Hw' & Hspec).
    + exact HN.
    + simpl. unfold len in *. rewrite (update_length _ _ _ _ Hu). exact Hlen.
    + intros c' Hc'. simpl. apply Hcs. right. exact Hc'.
    + exists w'. split; [exact Hw' |].
      intros i b Hb. destruct (update_spec _ _ _ _ Hu) as (Hat & Hother).
      unfold swept_offset. cbn [existsb]. fold o.
      destruct (o =? i) eqn:E.
      * apply Z.eqb_eq in E. subst i.
        rewrite (Hspec o [] Hat). simpl. destruct (swept_offset _ cs o); reflexivity.
      * simpl. apply Hspec. simpl. rewrite Hother by lia. exact Hb.
Qed.

(** The distance [resetBuckets] computes between two slots of the ring. *)
Definition ring_distance (w : TimeWindow) (windowOffset : Z) : Z :=
  let distance := sub64 windowOffset (lastWindowOffset w) in
  if distance <? 0
  then add64 (sub64 (numberOfBuckets w) (lastWindowOffset w)) windowOffset
  else distance.

Lemma ring_distance_bound (w : TimeWindow) (o : Z) :
  0 < numberOfBuckets w < 2 ^ 62 ->
  0 <= lastWindowOffset w < numberOfBuckets w ->
  0 <= o < numberOfBuckets w ->
  0 <= ring_distance w o < numberOfBuckets w /\
  ring_distance w o = (o - lastWindowOffset w) mod numberOfBuckets w.
Proof.
  intros HN Hl Ho. unfold ring_distance, sub64, add64.
  rewrite (wrap64_small (o - lastWindowOffset w)) by lia.
  rewrite (wrap64_small (numberOfBuckets w - lastWindowOffset w)) by lia.
  rewrite (wrap64_small (numberOfBuckets w - lastWindowOffset w + o)) by lia.
  cbv zeta.
  destruct (o - lastWindowOffset w <? 0) eqn:E.
  - split; [lia |].
    apply (Z.mod_unique_pos _ _ (-1)); lia.
  - split; [lia |]. symmetry. apply Z.mod_small. lia.
Qed.

Lemma settled_offset (w : TimeWindow) :
  settled w -> 0 <= lastWindowOffset w < numberOfBuckets w.
Proof.
  intros (_ & HN & _ & _ & HT & ->).
  rewrite Z.rem_mod_nonneg by lia. apply Z.mod_pos_bound. lia.
Qed.

(** [resetBuckets] on a settled window never panics: it empties the slots
    strictly between the last touched one and the current one, in ring
    order, and keeps every other bucket. *)
Lemma resetBuckets_spec (o : Z) (w : TimeWindow) :
  settled w -> 0 <= o < numberOfBuckets w ->
  exists w',
    resetBuckets o w = Some w' /\
    forall i b, index (window w) i = Some b ->
      index (window w') i
      = Some (if swept_offset w (counters (ring_distance w o)) i then [] else b).
Proof.
  intros Hs Ho. pose proof (settled_offset w Hs) as Hl.
  destruct Hs as (_ & HN & _ & Hlen & _ & _).
  destruct (ring_distance_bound w o HN Hl Ho) as (Hd & _).
  unfold resetBuckets. fold (ring_distance w o).
  apply resetLoop_spec; [lia | exact Hlen |].
  intros c Hc. unfold counters in Hc. apply in_map_iff in Hc.
  destruct Hc as (k & <- & Hk). apply in_seq in Hk.
  unfold add64. rewrite wrap64_small; lia.
Qed.

(** The repair, and with it [Iterate] and [Append], never panics on a
    settled window touched at a non-negative instant. *)
Lemma keepConsistent_total (a o : Z) (w : TimeWindow) :
  settled w -> 0 <= o < numberOfBuckets w ->
  exists w', keepConsistent a o w = Some w'.
Proof.
  intros Hs Ho. unfold keepConsistent.
  destruct (sub64 a (lastWindowTime w) >? numberOfBuckets64 w) eqn:E1.
  - destruct (negb _ && _) eqn:E2; [| eauto].
    apply andb_prop in E2. destruct E2 as (_ & E2). simpl in E1, E2. lia.
  - destruct (negb _ && _); [| eauto].
    destruct (resetBuckets_spec o w Hs Ho) as (w' & Hw' & _). eauto.
Qed.

Lemma Iterate_total (now : Z) (w : TimeWindow) :
  settled w -> 0 <= now < 2 ^ 63 -> exists pts w', Iterate now w = Some (pts, w').
Proof.
  intros Hs Hnow.
  destruct (selectBucket_settled now w Hs Hnow) as (a & o & Hsel & _ & _ & Ho).
  destruct (keepConsistent_total a o w Hs Ho) as (w' & Hk).
  unfold Iterate. rewrite Hsel. simpl. rewrite Hk. simpl. eauto.
Qed.

Lemma Append_total (now : Z) (value : float) (w : TimeWindow) :
  settled w -> 0 <= now < 2 ^ 63 -> exists w', Append now value w = Some w'.
Proof.
  intros Hs Hnow.
  destruct (selectBucket_settled now w Hs Hnow) as (a & o & Hsel & _ & _ & Ho).
  destruct (keepConsistent_total a o w Hs Ho) as (w1 & Hk).
  pose proof (keepConsistent_frame _ _ _ _ Hk) as ((_ & _ & _ & Hlen1) & _).
  assert (Hr : 0 <= o < len (window w1)).
  { destruct Hs as (_ & _ & _ & Hlen & _). unfold len in *. lia. }
  destruct (index_total _ _ Hr) as (bucket & Hb).
  destruct (update_total (window w1) o (bucket ++ [value]) Hr) as (b & Hu).
  unfold Append. rewrite Hsel. simpl. rewrite Hk. simpl. rewrite Hb. simpl.
  rewrite Hu. simpl. eauto.
Qed.

Lemma Append_settled (now : Z) (value : float) (w w' : TimeWindow) :
  settled w -> 0 <= now < 2 ^ 63 -> Append now value w = Some w' -> settled w'.
Proof.
  intros Hs Hnow HA.
  destruct (selectBucket_settled now w Hs Hnow) as (a & o & Hsel & Ha & Hoa & Ho).
  destruct (Append_unfold _ _ _ _ _ _ Hsel HA) as (w1 & bucket & b & Hk & _ & Hu & ->).
  apply keepConsistent_frame in Hk. apply update_length in Hu.
  destruct Hs as (Hb & HN & HN64 & Hlen & HT & Hoff).
  unfold same_shape, same_marks, settled, len in *. simpl.
  destruct Hk as ((-> & -> & -> & Hl) & _).
  repeat split; lia.
Qed.

(** Between one and [numberOfBuckets - 1] bucket durations after the last
    touch, the repair empties the slots of the bucket indices that were
    missed, those strictly between [lastWindowTime] and the current one,
    and keeps every other bucket, the current one included. *)
Lemma missed_buckets_are_cleared (now a o : Z) (w : TimeWindow) :
  settled w -> 0 <= now < 2 ^ 63 ->
  selectBucket now w = Some (a, o) ->
  lastWindowTime w < a < lastWindowTime w + numberOfBuckets w ->
  exists w',
    keepConsistent a o w = Some w' /\
    forall i b, index (window w) i = Some b ->
      ((exists t, lastWindowTime w < t < a /\ Z.rem t (numberOfBuckets w) = i) ->
       index (window w') i = Some []) /\
      ((forall t, lastWindowTime w < t < a -> Z.rem t (numberOfBuckets w) <> i) ->
       index (window w') i = Some b).
Proof.
  intros Hst Hnow Hsel Hgap.
  destruct (selectBucket_settled now w Hst Hnow) as (a' & o' & Hsel' & Ha & Hoa & Ho).
  rewrite Hsel in Hsel'. injection Hsel' as <- <-.
  pose proof (settled_offset w Hst) as Hl.
  pose proof Hst as (_ & HN & HN64 & Hlen & HT & Hoff).
  destruct (resetBuckets_spec o w Hst Ho) as (w' & Hw' & Hspec).
  exists w'. split.
  - unfold keepConsistent. rewrite HN64. unfold sub64.
    rewrite wrap64_small by lia.
    destruct (a - lastWindowTime w >? numberOfBuckets w) eqn:E1; [lia |].
    rewrite HN64, wrap64_small by lia.
    destruct (a =? lastWindowTime w) eqn:E2; [lia |].
    destruct (a - lastWindowTime w <? numberOfBuckets w) eqn:E3; [| lia].
    exact Hw'.
  - assert (Hd : ring_distance w o = a - lastWindowTime w).
    { destruct (ring_distance_bound w o) as (_ & ->); try lia.
      rewrite Hoa, Hoff, !Z.rem_mod_nonneg by lia.
      rewrite <- Zminus_mod. apply Z.mod_small. lia. }
    assert (Hslot : forall c, 0 <= c < numberOfBuckets w ->
              Z.rem (add64 c (lastWindowOffset w)) (numberOfBuckets w)
              = Z.rem (lastWindowTime w + c) (numberOfBuckets w)).
    { intros c Hc. unfold add64. rewrite wrap64_small by lia.
      rewrite !Z.rem_mod_nonneg by lia.
      rewrite Hoff, Z.rem_mod_nonneg by lia.
      rewrite Zplus_mod_idemp_r. f_equal. lia. }
    intros i b Hb. rewrite (Hspec i b Hb), Hd. split.
    + intros (t & Ht & Hi).
      replace (swept_offset w (counters (a - lastWindowTime w)) i) with true;
        [reflexivity |].
      symmetry. unfold swept_offset. apply existsb_exists.
      exists (t - lastWindowTime w). split.
      * unfold counters. apply in_map_iff. exists (Z.to_nat (t - lastWindowTime w)).
        split; [lia |]. apply in_seq. lia.
      * apply Z.eqb_eq. rewrite Hslot by lia. rewrite <- Hi. f_equal. lia.
    + intros Hnone.
      destruct (swept_offset w (counters (a - lastWindowTime w)) i) eqn:E;
        [| reflexivity].
      exfalso. unfold swept_offset in E. apply existsb_exists in E.
      destruct E as (c & Hc & Hi). unfold counters in Hc.
      apply in_map_iff in Hc. destruct Hc as (k & <- & Hk). apply in_seq in Hk.
      apply Z.eqb_eq in Hi. rewrite Hslot in Hi by lia.
      apply (Hnone (lastWindowTime w + Z.of_nat k)); [lia | exact Hi].
Qed.

(** The repair on a touch one bucket after the last one finds nothing to
    clear: the loop of [resetBuckets] runs from 1 up to a distance of 1. *)
Lemma keepConsistent_next_bucket (w : TimeWindow) (windowOffset : Z) :
  settled w ->
  windowOffset = Z.rem (lastWindowTime w + 1) (numberOfBuckets w) ->
  keepConsistent (lastWindowTime w + 1) windowOffset w = Some w.
Proof.
  intros (_ & HN & HN64 & _ & HT & Hoff) Ho.
  rewrite Z.rem_mod_nonneg in Hoff, Ho by lia.
  unfold keepConsistent. rewrite HN64.
  assert (Hgap : sub64 (lastWindowTime w + 1) (lastWindowTime w) = 1).
  { unfold sub64. replace (lastWindowTime w + 1 - lastWindowTime w) with 1 by lia.
    reflexivity. }
  rewrite Hgap.
  destruct (1 >? numberOfBuckets w) eqn:E1; [lia |].
  rewrite Hgap, HN64.
  destruct (lastWindowTime w + 1 =? lastWindowTime w) eqn:E2; [lia |]. simpl.
  destruct (1 <? numberOfBuckets w) eqn:E3; [| reflexivity].
  unfold resetBuckets.
  pose proof (Z.mod_pos_bound (lastWindowTime w) (numberOfBuckets w)) as B1.
  pose proof (Z.mod_pos_bound (lastWindowTime w + 1) (numberOfBuckets w)) as B2.
  assert (Hcase :
    windowOffset = lastWindowOffset w + 1 \/
    (windowOffset = 0 /\ lastWindowOffset w = numberOfBuckets w - 1)).
  { rewrite Ho, Hoff.
    destruct (Z.eq_dec (lastWindowTime w mod numberOfBuckets w)
                (numberOfBuckets w - 1)) as [Hl | Hl].
    - right. split; [| exact Hl].
      rewrite <- Zplus_mod_idemp_l, Hl.
      replace (numberOfBuckets w - 1 + 1) with (numberOfBuckets w) by lia.
      apply Z_mod_same_full.
    - left. rewrite <- Zplus_mod_idemp_l. apply Z.mod_small. lia. }
  fold (ring_distance w windowOffset).
  assert (Hd : ring_distance w windowOffset = 1).
  { unfold ring_distance. destruct Hcase as [Hc | (Hc0 & Hc1)].
    - rewrite Hc. unfold sub64.
      replace (lastWindowOffset w + 1 - lastWindowOffset w) with 1 by lia.
      reflexivity.
    - rewrite Hc0, Hc1. cbv zeta. unfold sub64, add64.
      rewrite (wrap64_small (0 - _)) by lia.
      destruct (0 - (numberOfBuckets w - 1) <? 0) eqn:E4; [| lia].
      replace (numberOfBuckets w - (numberOfBuckets w - 1)) with 1 by lia.
      reflexivity. }
  rewrite Hd. reflexivity.
Qed.

(** On a settled window (the state the constructors build and [Append]
    maintains), a touch whose bucket index is one more than
    [lastWindowTime] retires no bucket: the repair returns the window as
    it was, so every bucket keeps its contents; [Iterate] visits all of
    them, and [Append] adds the new sample at the end of the current
    bucket and changes no other bucket. *)
Lemma next_bucket_touch_retires_nothing
    (now : Z) (value : float) (w : TimeWindow) (adjustedTime windowOffset : Z) :
  settled w ->
  selectBucket now w = Some (adjustedTime, windowOffset) ->
  adjustedTime = lastWindowTime w + 1 ->
  keepConsistent adjustedTime windowOffset w = Some w /\
  Iterate now w = Some (concat (window w), w) /\
  exists bucket b,
    index (window w) windowOffset = Some bucket /\
    update (window w) windowOffset (bucket ++ [value]) = Some b /\
    Append now value w
      = Some (set_last (set_window w b) windowOffset adjustedTime) /\
    retired (window w) b = 0%nat /\
    (forall i, i <> windowOffset -> index b i = index (window w) i).
Proof.
  intros Hst Hs ->.
  pose proof Hst as (_ & HN & HN64 & Hlen & HT & Hoff).
  assert (Ho : windowOffset = Z.rem (lastWindowTime w + 1) (numberOfBuckets w)).
  { unfold selectBucket, div64, rem64 in Hs.
    destruct (bucketSizeNano w =? 0); [discriminate |]. simpl in Hs.
    destruct (numberOfBuckets64 w =? 0); [discriminate |]. simpl in Hs.
    injection Hs as Ha Hw. rewrite Ha, HN64 in Hw. congruence. }
  pose proof (keepConsistent_next_bucket w windowOffset Hst Ho) as Hk.
  split; [exact Hk |]. split.
  - unfold Iterate. rewrite Hs. simpl. rewrite Hk. reflexivity.
  - assert (Hr : 0 <= windowOffset < len (window w)).
    { rewrite Hlen, Ho, Z.rem_mod_nonneg by lia. apply Z.mod_pos_bound. lia. }
    destruct (index_total (window w) windowOffset Hr) as (bucket & Hb).
    destruct (update_total (window w) windowOffset (bucket ++ [value]) Hr)
      as (b & Hu).
    exists bucket, b. split; [exact Hb |]. split; [exact Hu |]. split.
    + unfold Append. rewrite Hs. simpl. rewrite Hk. simpl. rewrite Hb. simpl.
      rewrite Hu. reflexivity.
    + split.
      * unfold update in Hu. destruct (windowOffset <? 0); [discriminate |].
        eapply retired_grown, Hu.
      * apply (update_spec _ _ _ _ Hu).
Qed.

(** The window of four slots after a read at the instant 6 that left the
    markers of the last feed, at the instant 4, behind. *)
Definition lagging4 : TimeWindow :=
  mkTimeWindow 1 4 4 [[4%float]; []; [2%float]; [3%float]] 0 4.

(** The window [TestTimeWindowConsistency] builds: eleven slots holding a 1
    each, [lastWindowOffset] set to 0 and [lastWindowTime] to a reading of
    the clock in nanoseconds. *)
Definition prepopulated : TimeWindow :=
  mkTimeWindow 50000000 11 11 (repeat [1%float] 11) 0 1700000000000000000.

(** C1 at the failing input. The constructor of [time.go] is asked for
    three buckets of one nanosecond and the window is fed 1, 2, 3, 4 at the
    instants 1, 2, 3, 4, so each of its four slots holds a sample. The
    touch at the instant 5 advances time by one bucket duration,
    [lastWindowTime + 1], and retires no bucket: the repair returns the
    window as it was, [Iterate] still visits the sample of the instant 1,
    and [Append] puts the sample of the instant 5 behind it in the same
    bucket, which then holds samples four bucket durations apart. The
    same happens in the window of three slots of the three-argument
    constructor at the instant 4. Exactly one bucket is retired, as C1 has
    it, where the markers were left behind: by a read ([Iterate] at 6,
    then at 7), or in the window the consistency test populates by hand
    (the repair at bucket index 20, then at 21). *)
Theorem C1_touch_after_feed_retires_nothing :
  fed4 = Some ring4 /\
  selectBucket 5 ring4 = Some (lastWindowTime ring4 + 1, 1) /\
  keepConsistent 5 1 ring4 = Some ring4 /\
  Iterate 5 ring4 = Some ([4; 1; 2; 3]%float, ring4) /\
  Append 5 5%float ring4
  = Some (mkTimeWindow 1 4 4 [[4]; [1; 5]; [2]; [3]]%float 1 5) /\
  retired (window ring4) (window ring4) = 0%nat /\
  retired (window ring4) [[4]; [1; 5]; [2]; [3]]%float = 0%nat /\
  fed3 = Some ring3 /\
  selectBucket 4 ring3 = Some (lastWindowTime ring3 + 1, 1) /\
  Iterate 4 ring3 = Some ([3; 1; 2]%float, ring3) /\
  Append 4 9%float ring3
  = Some (mkTimeWindow 1 3 3 [[3]; [1; 9]; [2]]%float 1 4) /\
  Iterate 6 ring4 = Some ([4; 2; 3]%float, lagging4) /\
  retired (window ring4) (window lagging4) = 1%nat /\
  Iterate 7 lagging4
  = Some ([4; 3]%float, mkTimeWindow 1 4 4 [[4]; []; []; [3]]%float 0 4) /\
  retired (window lagging4) [[4]; []; []; [3]]%float = 1%nat /\
  selectBucket 1000000000 prepopulated = Some (20, 9) /\
  selectBucket 1050000000 prepopulated = Some (21, 10) /\
  keepConsistent 20 9 prepopulated
  = Some (set_window prepopulated
            [[1]; []; []; []; []; []; []; []; []; [1]; [1]]%float) /\
  keepConsistent 21 10
    (set_window prepopulated
       [[1]; []; []; []; []; []; []; []; []; [1]; [1]]%float)
  = Some (set_window prepopulated
            [[1]; []; []; []; []; []; []; []; []; []; [1]]%float) /\
  retired [[1]; []; []; []; []; []; []; []; []; [1]; [1]]%float
    [[1]; []; []; []; []; []; []; []; []; []; [1]]%float = 1%nat.
Proof. repeat split. Qed.

End TimeWinFacts.

(** ** [sort.Float64s] sorts *)

Module SortFacts.

Import FloatOrder BubbleSortFacts.

Lemma float64_less_notNaN (x y : float) :
  notNaN x -> float64_less x y = (x <? y)%float.
Proof.
  unfold notNaN, float64_less. intros ->. simpl. apply orb_false_r.
Qed.

Lemma sort_insert_perm (x : float) (s : list float) :
  Permutation (sort_insert x s) (x :: s).
Proof.
  induction s as [| y t IH]; simpl; [reflexivity |].
  destruct (float64_less y x); [| reflexivity].
  rewrite IH. apply perm_swap.
Qed.

Lemma sort_Float64s_perm (s : list float) : Permutation (sort_Float64s s) s.
Proof.
  induction s as [| x s IH]; simpl; [reflexivity |].
  rewrite sort_insert_perm, IH. reflexivity.
Qed.

Lemma sort_insert_sorted (x : float) (s : list float) :
  notNaN x -> allNotNaN s -> StronglySorted fle s ->
  StronglySorted fle (sort_insert x s).
Proof.
  intros Hx. induction s as [| y t IH]; intros Hn Hs; simpl.
  - constructor; constructor.
  - inversion Hn as [| ? ? Hy Ht]; subst. inversion Hs as [| ? ? Hst Hyt]; subst.
    rewrite float64_less_notNaN by exact Hy.
    destruct (y <? x)%float eqn:E.
    + constructor; [apply IH; assumption |].
      apply Forall_forall. intros z Hz.
      apply (Permutation_in z (sort_insert_perm x t)) in Hz.
      destruct Hz as [<- | Hz]; [apply ltb_fle, E |].
      rewrite Forall_forall in Hyt. apply Hyt, Hz.
    + assert (Hxy : fle x y) by (apply nltb_fle; assumption).
      constructor; [exact Hs |]. constructor; [exact Hxy |].
      apply Forall_forall. intros z Hz. rewrite Forall_forall in Hyt.
      eapply fle_trans; [exact Hxy | apply Hyt, Hz].
Qed.

Lemma sort_Float64s_sorted (s : list float) :
  allNotNaN s -> StronglySorted fle (sort_Float64s s).
Proof.
  induction s as [| x s IH]; intros Hn; simpl; [constructor |].
  inversion Hn as [| ? ? Hx Hs]; subst.
  apply sort_insert_sorted; [exact Hx | | apply IH, Hs].
  eapply allNotNaN_perm; [apply sort_Float64s_perm | exact Hs].
Qed.

(** A slice without NaN and without zeros has one sorted arrangement. *)
Lemma sorted_unique (s t : list float) :
  StronglySorted fle s -> StronglySorted fle t -> Permutation s t ->
  allNotNaN s -> Forall (fun x => (x =? 0)%float = false) s -> s = t.
Proof.
  intros Hs. revert t. induction Hs as [| x s Hs IH Hx]; intros t Ht HP Hn Hz.
  - apply Permutation_nil in HP. subst. reflexivity.
  - destruct t as [| y t];
      [apply Permutation_sym, Permutation_nil in HP; discriminate |].
    inversion Ht as [| ? ? Ht' Hy]; subst.
    inversion Hz as [| ? ? Hx0 Hz']; subst.
    inversion Hn as [| ? ? Hnx Hn']; subst.
    rewrite Forall_forall in Hx, Hy.
    assert (Hxy : fle x y).
    { assert (Hin : In y (x :: s))
        by (apply (Permutation_in y (Permutation_sym HP)); left; reflexivity).
      destruct Hin as [<- | Hin]; [apply fle_refl, Hnx | apply Hx, Hin]. }
    assert (Hyx : fle y x).
    { assert (Hin : In x (y :: t)) by (apply (Permutation_in x HP); left; reflexivity).
      destruct Hin as [-> | Hin]; [apply fle_refl, Hnx | apply Hy, Hin]. }
    assert (E : x = y) by (apply fle_antisym; assumption).
    subst y. f_equal. apply IH; [exact Ht' | | exact Hn' | exact Hz'].
    eapply Permutation_cons_inv, HP.
Qed.

Lemma sort_Float64s_unique (s t : list float) :
  Permutation s t -> allNotNaN t ->
  Forall (fun x => (x =? 0)%float = false) t ->
  sort_Float64s s = sort_Float64s t.
Proof.
  intros HP Hn Hz.
  assert (Hns : allNotNaN s) by (eapply allNotNaN_perm; eassumption).
  apply sorted_unique.
  - apply sort_Float64s_sorted, Hns.
  - apply sort_Float64s_sorted, Hn.
  - rewrite !sort_Float64s_perm. exact HP.
  - eapply allNotNaN_perm; [apply sort_Float64s_perm | exact Hns].
  - rewrite Forall_forall in *. intros x Hx. apply Hz.
    apply (Permutation_in x HP).
    apply (Permutation_in x (sort_Float64s_perm s)). exact Hx.
Qed.

End SortFacts.

(** ** The percentile reducers *)

Module PercentileFacts.

Import Reduce FloatOrder BubbleSortFacts.

(** The samples 1, 2, ..., [k] in the order they were fed. *)
Definition upto (k : nat) : list float :=
  map (fun i => float64_of_int (Z.of_nat i)) (seq 1 k).

(** The state of the estimator after [k] observations, [k <= 5]: the raw
    values, and markers never written. *)
Definition primed (it : list float) : PSquare :=
  mkPSquare it [0; 0; 0; 0; 0]%float [0; 0; 0; 0; 0] [0; 0; 0; 0; 0]%float
    [0; 0; 0; 0; 0]%float (Z.of_nat (length it)).

Lemma priming (p : float) (it : list float) :
  (length it <= 5)%nat -> fold_left (observe p) it initial = primed it.
Proof.
  intros H.
  destruct it as [| a [| b [| c [| d [| e [| f t]]]]]]; try reflexivity.
  simpl in H. lia.
Qed.

(** C10: whatever the five samples and the percentile asked for, the
    estimator returns 0: with five observations the markers have not been
    set up yet (that happens on the sixth), the branch for fewer than five
    is not taken, and the marker [q[2]] still holds its zero value. *)
Theorem C10_five_samples_give_zero (p a b c d e : float) :
  FastPercentile p [a; b; c; d; e] = Some 0%float.
Proof.
  unfold FastPercentile. rewrite priming by (simpl; lia). reflexivity.
Qed.

(** C4, as the code has it: over an empty window the exact percentile
    aggregator returns exactly 0.0 for every percentile; the average
    reducers of [reduce.go] and [aggregate.go] have no guard and divide
    0.0 by 0.0, which is a NaN. *)
Theorem C4_empty_window (p : float) :
  Aggregate.Aggregate p [] = Some 0%float /\
  is_nan (Avg []) = true /\
  is_nan (Aggregate.avg []) = true.
Proof. repeat split. Qed.

(** C4 as stated fails for the average: over the empty window it is a NaN,
    which is not 0.0 by any comparison; the percentile reducer of
    [reduce.go] reads the empty slice at index -1. *)
Lemma C4_counterexample :
  is_nan (Avg []) = true /\ (Avg [] =? 0)%float = false /\ Avg [] <> 0%float /\
  Percentile 50 [] = None.
Proof.
  repeat split. intros H.
  assert (E : is_nan (Avg []) = is_nan 0%float) by (rewrite H; reflexivity).
  vm_compute in E. discriminate.
Qed.

(** The aggregator sees its window through the sorted samples only. *)
Lemma Aggregate_perm (p : float) (it ref : list float) :
  (2 <= length ref)%nat -> Permutation it ref ->
  allNotNaN ref -> Forall (fun x => (x =? 0)%float = false) ref ->
  Aggregate.Aggregate p it = Aggregate.Aggregate p ref.
Proof.
  intros Hlen HP Hn Hz. unfold Aggregate.Aggregate.
  pose proof (Permutation_length HP) as HL.
  replace (len it) with (len ref) by (unfold len; rewrite HL; reflexivity).
  destruct (len ref <? 1) eqn:E1; [reflexivity |].
  destruct (len ref <? 2) eqn:E2; [unfold len in E2; lia |].
  rewrite (SortFacts.sort_Float64s_unique it ref HP Hn Hz). reflexivity.
Qed.

Lemma upto_100_numbers :
  allNotNaN (upto 100) /\ Forall (fun x => (x =? 0)%float = false) (upto 100).
Proof.
  split; apply Forall_forall; intros x Hx.
  - assert (H : forallb (fun x => negb (is_nan x)) (upto 100) = true)
      by (vm_compute; reflexivity).
    rewrite forallb_forall in H. apply H in Hx.
    unfold notNaN. destruct (is_nan x); [discriminate | reflexivity].
  - assert (H : forallb (fun x => negb (x =? 0)%float) (upto 100) = true)
      by (vm_compute; reflexivity).
    rewrite forallb_forall in H. apply H in Hx.
    destruct (x =? 0)%float; [discriminate | reflexivity].
Qed.

(** C5: over a window that holds exactly the hundred samples 1..100, in
    whatever order it replays them, the exact percentile aggregator gives
    20 for the 20th percentile, 50 for the 50th, 99 for the 99th, and for
    the 99.9th the binary64 number 99.9, which is also what
    0.1 * 99 + 0.9 * 100 evaluates to. *)
Theorem C5_percentiles_of_1_to_100 (it : list float) :
  Permutation it (upto 100) ->
  Aggregate.Aggregate 20 it = Some 20%float /\
  Aggregate.Aggregate 50 it = Some 50%float /\
  Aggregate.Aggregate 99 it = Some 99%float /\
  Aggregate.Aggregate 99.9 it = Some 99.9%float /\
  (0.1 * 99 + 0.9 * 100)%float = 99.9%float.
Proof.
  intros HP. destruct upto_100_numbers as (Hn & Hz).
  assert (Hlen : (2 <= length (upto 100))%nat)
    by (unfold upto; rewrite length_map, length_seq; lia).
  rewrite !(fun p => Aggregate_perm p it (upto 100) Hlen HP Hn Hz).
  repeat split; vm_compute; reflexivity.
Qed.

(** The window of the aggregator's own test: a point window of a hundred
    slots fed 1..100 in turn. The later variant replays 100 first, its
    cursor moves before it writes; [point.go] replays them as fed. *)
Lemma hundred_fed :
  option_map PointWin.Iterate'
    (w <- PointWin.NewPointWindow' 100 ;; PointWin.feedUpTo 100 w)
  = Some (100%float :: upto 99) /\
  option_map PointWin.Iterate
    (w <- PointWin.NewPointWindow 100 ;; PointWin.appendUpTo 100 w)
  = Some (upto 100).
Proof. split; vm_compute; reflexivity. Qed.

Lemma C5_percentiles_of_1_to_100_witness :
  Aggregate.Aggregate 20 (100%float :: upto 99) = Some 20%float /\
  Aggregate.Aggregate 50 (100%float :: upto 99) = Some 50%float /\
  Aggregate.Aggregate 99 (100%float :: upto 99) = Some 99%float /\
  Aggregate.Aggregate 99.9 (100%float :: upto 99) = Some 99.9%float /\
  (0.1 * 99 + 0.9 * 100)%float = 99.9%float.
Proof.
  apply (C5_percentiles_of_1_to_100 (100%float :: upto 99)).
  change (upto 100) with (upto 99 ++ [100%float]).
  apply Permutation_cons_append.
Defined.

(** C6 as stated fails with no sample: the estimator sorts the empty
    priming buffer and reads its last element, at index -1. It also fails
    when a sample is a NaN, which no comparison orders: of 3, NaN, 1 the
    sweeps move nothing and the estimator returns 1. *)
Lemma C6_counterexample :
  FastPercentile 50 [] = None /\
  index (bubbleSort (@nil float)) (sub64 (len (@nil float)) 1) = None /\
  FastPercentile 50 [3; nan; 1]%float = Some 1%float /\
  (1 <? 3)%float = true.
Proof. repeat split. Qed.

Lemma index_last {A : Type} (s : list A) (m : A) :
  len (s ++ [m]) < 2 ^ 63 ->
  index (s ++ [m]) (sub64 (len (s ++ [m])) 1) = Some m.
Proof.
  unfold len, sub64. rewrite length_app. cbn [length]. intros H.
  rewrite TimeWinFacts.wrap64_small by lia.
  unfold index. destruct (_ <? 0) eqn:E; [apply Z.ltb_lt in E; lia |].
  replace (Z.to_nat (Z.of_nat (length s + 1) - 1)) with (length s) by lia.
  rewrite nth_error_app2 by lia. rewrite Nat.sub_diag. reflexivity.
Qed.

(** The last element of a sorted slice without NaN is its maximum. *)
Lemma bubbleSort_last_max (it : list float) :
  it <> [] -> allNotNaN it ->
  exists s m, bubbleSort it = s ++ [m] /\ In m it /\ Forall (fun y => fle y m) it.
Proof.
  intros Hne Hn.
  pose proof (bubbleSort_perm it) as HP.
  pose proof (bubbleSort_sorted it Hn) as HS.
  destruct (exists_last (l := bubbleSort it)) as (s & m & E).
  { intros E. rewrite E in HP. apply Permutation_nil in HP. contradiction. }
  exists s, m. split; [exact E |].
  rewrite E in HP, HS.
  assert (Hm : In m it).
  { apply (Permutation_in m HP). apply in_or_app. right. left. reflexivity. }
  split; [exact Hm |].
  apply Forall_forall. intros y Hy.
  apply (Permutation_in y (Permutation_sym HP)) in Hy.
  apply in_app_or in Hy. destruct Hy as [Hy | [<- | []]].
  - pose proof (sorted_last s m HS) as Hl. rewrite Forall_forall in Hl. auto.
  - apply fle_refl. unfold allNotNaN in Hn. rewrite Forall_forall in Hn. auto.
Qed.

(** C6, as the code has it: the exact percentile aggregator over one
    sample returns that sample; the streaming estimator fed at least one
    and fewer than five samples, none of them a NaN, returns the largest
    of them. *)
Theorem C6_sparse_windows (p x : float) (it : list float) :
  (1 <= length it < 5)%nat ->
  allNotNaN it ->
  Aggregate.Aggregate p [x] = Some x /\
  exists m, FastPercentile p it = Some m /\
            In m it /\ Forall (fun y => fle y m) it.
Proof.
  intros Hlen Hn. split; [reflexivity |].
  destruct (bubbleSort_last_max it) as (s & m & E & Hm & Hmax); [| exact Hn |].
  { intros ->. simpl in Hlen. lia. }
  exists m. split; [| split; assumption].
  unfold FastPercentile. rewrite priming by lia.
  unfold primed; cbn [observations initalObservations].
  destruct (Z.of_nat (length it) <? 5) eqn:E5; [| lia].
  rewrite E. apply index_last.
  rewrite <- E. unfold len.
  rewrite (Permutation_length (bubbleSort_perm it)). lia.
Qed.

Lemma C6_sparse_windows_witness :
  Aggregate.Aggregate 99.9 [7%float] = Some 7%float /\
  exists m, FastPercentile 50 [1; 5; 3]%float = Some m /\
            In m [1; 5; 3]%float /\ Forall (fun y => fle y m) [1; 5; 3]%float.
Proof.
  apply (C6_sparse_windows 50 7%float [1; 5; 3]%float).
  - simpl. lia.
  - repeat constructor.
Defined.

(** The state in which the sixth call of the callback reaches the block
    under [if observations == 6]. *)
Definition sixth (a b c d e : float) : PSquare :=
  mkPSquare [a; b; c; d; e] [0; 0; 0; 0; 0]%float [0; 0; 0; 0; 0]
    [0; 0; 0; 0; 0]%float [0; 0; 0; 0; 0]%float 6.

Lemma observe_sixth (p a b c d e v : float) :
  fold_left (observe p) [a; b; c; d; e; v] initial
  = steady (initMarkers p (sixth a b c d e)) v.
Proof. reflexivity. Qed.

Lemma initMarkers_sorted (p : float) (st : PSquare) (q0 q1 q2 q3 q4 : float) :
  bubbleSort (initalObservations st) = [q0; q1; q2; q3; q4] ->
  length (q st) = 5%nat -> length (n st) = 5%nat ->
  initMarkers p st
  = mkPSquare [q0; q1; q2; q3; q4] [q0; q1; q2; q3; q4] [0; 1; 2; 3; 4]
      [0; 2 * p; 4 * p; 2 + 2 * p; 4]%float
      [0; p / 2; p; (1 + p) / 2; 1]%float
      (observations st).
Proof.
  intros E Hq Hn. unfold initMarkers. rewrite E.
  destruct st as [io q n np dnp obs]. simpl in Hq, Hn.
  destruct q as [| x0 [| x1 [| x2 [| x3 [| x4 [| x5 q]]]]]]; try discriminate.
  destruct n as [| n0 [| n1 [| n2 [| n3 [| n4 [| n5 n]]]]]]; try discriminate.
  reflexivity.
Qed.

(** C8, as the code has it: on its sixth observation the estimator stores
    what [bubbleSort] makes of the five primed values in [q[0..4]], a
    rearrangement of them that is in ascending order whenever none of the
    five is a NaN; it sets the ranks to 0, 1, 2, 3, 4, the ideal ranks to
    0, 2p, 4p, 2 + 2p, 4 and their increments to 0, p/2, p, (1 + p)/2, 1,
    where p is the percentile asked for divided by 100; the sixth value is
    then processed from that state. *)
Theorem C8_markers_on_sixth_observation (P a b c d e v : float) :
  let p := (P / 100)%float in
  exists q0 q1 q2 q3 q4,
    bubbleSort [a; b; c; d; e] = [q0; q1; q2; q3; q4] /\
    Permutation [q0; q1; q2; q3; q4] [a; b; c; d; e] /\
    (allNotNaN [a; b; c; d; e] -> StronglySorted fle [q0; q1; q2; q3; q4]) /\
    initMarkers p (sixth a b c d e)
    = mkPSquare [q0; q1; q2; q3; q4] [q0; q1; q2; q3; q4] [0; 1; 2; 3; 4]
        [0; 2 * p; 4 * p; 2 + 2 * p; 4]%float
        [0; p / 2; p; (1 + p) / 2; 1]%float 6 /\
    fold_left (observe p) [a; b; c; d; e; v] initial
    = steady (initMarkers p (sixth a b c d e)) v /\
    FastPercentile P [a; b; c; d; e; v]
    = Some (qAt (steady (initMarkers p (sixth a b c d e)) v) 2).
Proof.
  intros p.
  pose proof (bubbleSort_perm [a; b; c; d; e]) as HP.
  pose proof (bubbleSort_sorted [a; b; c; d; e]) as HS.
  pose proof (Permutation_length HP) as HL.
  destruct (bubbleSort [a; b; c; d; e])
    as [| q0 [| q1 [| q2 [| q3 [| q4 [| q5 t]]]]]] eqn:E;
    try discriminate.
  exists q0, q1, q2, q3, q4.
  split; [reflexivity |]. split; [exact HP |]. split; [exact HS |]. split.
  - apply initMarkers_sorted; [exact E | reflexivity | reflexivity].
  - split; [apply observe_sixth |].
    unfold FastPercentile. fold p. rewrite observe_sixth.
    rewrite (initMarkers_sorted p (sixth a b c d e) q0 q1 q2 q3 q4 E eq_refl eq_refl).
    set (st := steady _ v).
    assert (Hobs : observations st = 6).
    { subst st. unfold steady.
      destruct (findCell _ v) as [st1 k] eqn:Ef.
      assert (Hf : observations st1 = 6).
      { unfold findCell in Ef.
        repeat match type of Ef with
        | (if ?c then _ else _) = _ => destruct c
        end; injection Ef as <- _; reflexivity. }
      revert Hf. generalize st1. clear.
      intros st1 Hf.
      match goal with
      | |- observations (fold_left adjust _ ?s) = 6 =>
          assert (H0 : observations s = 6)
      end.
      { simpl. revert Hf. generalize st1.
        induction (map Z.of_nat _) as [| x xs IH]; intros s0 H0; simpl;
          [exact H0 | apply IH; exact H0]. }
      revert H0.
      match goal with
      | |- observations ?s = 6 -> _ => generalize s
      end.
      induction [1; 2; 3] as [| x xs IH]; intros s0 H0; simpl; [exact H0 |].
      apply IH. unfold adjust.
      repeat match goal with
      | |- context [if ?c then _ else _] => destruct c
      end; simpl; exact H0. }
    rewrite Hobs. reflexivity.
Qed.

(** C8 as stated fails when a NaN is among the five primed values:
    [bubbleSort] swaps on [>], which is false against a NaN on either
    side, so the NaN stays where it is and nothing moves across it. Of
    3, NaN, 1, 2, 0 it makes 3, NaN, 0, 1, 2, which the sixth observation
    stores in [q]: [q[0]] is 3 and [q[2]] is 0. The ranks, the ideal ranks
    and their increments are as C8 has them. *)
Lemma C8_counterexample :
  bubbleSort [3; nan; 1; 2; 0]%float = [3; nan; 0; 1; 2]%float /\
  initMarkers (50 / 100) (sixth 3 nan 1 2 0)
  = mkPSquare [3; nan; 0; 1; 2]%float [3; nan; 0; 1; 2]%float [0; 1; 2; 3; 4]
      [0; 2 * (50 / 100); 4 * (50 / 100); 2 + 2 * (50 / 100); 4]%float
      [0; 50 / 100 / 2; 50 / 100; (1 + 50 / 100) / 2; 1]%float 6 /\
  qAt (initMarkers (50 / 100) (sixth 3 nan 1 2 0)) 0 = 3%float /\
  qAt (initMarkers (50 / 100) (sixth 3 nan 1 2 0)) 2 = 0%float /\
  (0 <? 3)%float = true.
Proof. repeat split. Qed.

(** ** Ranks below the first sample *)

Lemma sort_insert_length (x : float) (s : list float) :
  length (sort_insert x s) = S (length s).
Proof.
  induction s as [| y t IH]; simpl; [reflexivity |].
  destruct (float64_less y x); simpl; [rewrite IH |]; reflexivity.
Qed.

Lemma sort_Float64s_length (s : list float) :
  length (sort_Float64s s) = length s.
Proof.
  induction s as [| x s IH]; simpl; [reflexivity |].
  rewrite sort_insert_length, IH. reflexivity.
Qed.

Lemma index_negative {A : Type} (s : list A) (i : Z) : i < 0 -> index s i = None.
Proof. unfold index. intros H. destruct (i <? 0) eqn:E; [reflexivity | lia]. Qed.

(** A float below zero is a negative finite number or minus infinity. *)
Lemma negative_Prim2SF (x : float) :
  (x <? 0)%float = true ->
  Prim2SF x = S754_infinity true \/
  exists m e, Prim2SF x = S754_finite true m e.
Proof.
  rewrite ltb_spec. change (Prim2SF 0) with (S754_zero false).
  destruct (Prim2SF x) as [s | s | | s m e]; simpl; try discriminate.
  - destruct s; [auto | discriminate].
  - destruct s; [eauto | discriminate].
Qed.

Lemma int_Floor_negative (x : float) : (x <? 0)%float = true -> int_Floor x < 0.
Proof.
  intros H. unfold int_Floor.
  destruct (negative_Prim2SF x H) as [-> | (m & e & ->)]; [reflexivity |].
  cbn [SFnum].
  assert (Hz : (if 0 <=? e then Z.neg m * 2 ^ e else Z.neg m / 2 ^ (- e)) < 0).
  { destruct (0 <=? e) eqn:E.
    - assert (0 < 2 ^ e) by (apply Z.pow_pos_nonneg; lia). nia.
    - apply Z.div_lt_upper_bound; [apply Z.pow_pos_nonneg; lia | lia]. }
  destruct (_ && _); [exact Hz | reflexivity].
Qed.

Lemma digits2_pos_bound (m : positive) : Z.pos m < 2 ^ Z.pos (digits2_pos m).
Proof.
  induction m as [m IH | m IH |]; simpl digits2_pos;
    rewrite ?Pos2Z.inj_succ, ?Z.pow_succ_r by lia; lia.
Qed.

Lemma valid_mantissa_bound (s : bool) (m : positive) (e : Z) :
  valid_binary (S754_finite s m e) = true -> Z.pos m < 2 ^ 53.
Proof.
  unfold SpecFloat.valid_binary, bounded, canonical_mantissa, fexp.
  intros H. apply andb_prop in H. destruct H as (H & _).
  apply Z.eqb_eq in H.
  pose proof (digits2_pos_bound m) as Hd.
  assert (Z.pos (digits2_pos m) <= 53).
  { unfold prec in H. lia. }
  eapply Z.lt_le_trans; [exact Hd |].
  apply Z.pow_le_mono_r; lia.
Qed.

Lemma div_small_negative (a b : Z) : 0 < a <= b -> (- a) / b = -1.
Proof.
  intros H. symmetry. apply (Z.div_unique_pos (- a) b (-1) (b - a)); lia.
Qed.

Lemma int_Floor_minus_one (x : float) :
  (x <? 0)%float = true -> (-1 <=? x)%float = true -> int_Floor x = -1.
Proof.
  intros Hneg Hle. unfold int_Floor.
  pose proof (Prim2SF_valid x) as Hv.
  rewrite leb_spec in Hle.
  change (Prim2SF (-1)) with (S754_finite true 4503599627370496 (-52)) in Hle.
  destruct (negative_Prim2SF x Hneg) as [E | (m & e & E)]; rewrite E in *.
  - discriminate.
  - apply valid_mantissa_bound in Hv.
    cbn [SFnum].
    assert (He : e <= -52 /\ Z.pos m <= 2 ^ (- e)).
    { unfold SFleb, SFcompare in Hle.
      destruct (Z.compare_spec (-52) e) as [He | He | He].
      - subst e.
        change (Pos.compare_cont Eq 4503599627370496 m)
          with (Pos.compare 4503599627370496 m) in Hle.
        destruct (Pos.compare_spec 4503599627370496 m) as [Hm | Hm | Hm];
          simpl in Hle; try discriminate.
        + subst m. split; [lia |].
          change (2 ^ (- -52)) with 4503599627370496. lia.
        + apply Pos2Z.pos_lt_pos in Hm. split; [lia |].
          change (2 ^ (- -52)) with 4503599627370496. lia.
      - discriminate.
      - split; [lia |].
        apply Z.le_trans with (2 ^ 53); [lia |].
        apply Z.pow_le_mono_r; lia. }
    destruct He as (He & Hm).
    destruct (0 <=? e) eqn:E0; [lia |].
    change (Z.neg m) with (- Z.pos m).
    rewrite div_small_negative by lia. reflexivity.
Qed.

(** C9: with at least two samples and a rank [(p/100) * count - 1] below
    zero, the exact percentile aggregator forms a negative index from the
    floor of the rank, -1 whenever the rank is at least -1 (as it is for
    every percentile from 0 up), and reads the sorted samples there: the
    access is out of bounds and no result is returned. The reducer of
    [reduce.go] does the same when its own rank, [count * (p/100) + 0.5 - 1],
    is below zero. *)
Theorem C9_negative_rank_is_out_of_bounds (p : float) (it : list float) :
  (2 <= length it)%nat ->
  let n := (p / 100 * float64_of_int (len it) - 1)%float in
  let position := (float64_of_int (len it) * (p / 100) + 0.5 - 1)%float in
  (n <? 0)%float = true ->
  int_Floor n < 0 /\
  ((-1 <=? n)%float = true -> int_Floor n = -1) /\
  Aggregate.Aggregate p it = None /\
  ((position <? 0)%float = true -> Percentile p it = None).
Proof.
  intros Hlen n position Hn.
  pose proof (int_Floor_negative n Hn) as Hk.
  split; [exact Hk |]. split; [apply int_Floor_minus_one; exact Hn |]. split.
  - unfold Aggregate.Aggregate.
    destruct (len it <? 1) eqn:E1; [unfold len in E1; lia |].
    destruct (len it <? 2) eqn:E2; [unfold len in E2; lia |].
    replace (len (sort_Float64s it)) with (len it)
      by (unfold len; rewrite sort_Float64s_length; reflexivity).
    fold n. rewrite (index_negative _ _ Hk). reflexivity.
  - intros Hp. unfold Percentile.
    replace (len (sort_Float64s it)) with (len it)
      by (unfold len; rewrite sort_Float64s_length; reflexivity).
    fold position.
    pose proof (int_Floor_negative position Hp) as Hkp.
    rewrite (index_negative _ _ Hkp).
    destruct (_ =? _)%float; reflexivity.
Qed.

Lemma C9_negative_rank_is_out_of_bounds_witness :
  let n := (20 / 100 * float64_of_int (len [1; 2]%float) - 1)%float in
  let position := (float64_of_int (len [1; 2]%float) * (20 / 100) + 0.5 - 1)%float in
  int_Floor n < 0 /\
  ((-1 <=? n)%float = true -> int_Floor n = -1) /\
  Aggregate.Aggregate 20 [1; 2]%float = None /\
  ((position <? 0)%float = true -> Percentile 20 [1; 2]%float = None).
Proof.
  apply (C9_negative_rank_is_out_of_bounds 20 [1; 2]%float).
  - simpl. lia.
  - reflexivity.
Defined.

(** The percentile 0 over the samples 1..100: the rank is -1 exactly. *)
Example percentile_zero :
  (0 / 100 * float64_of_int (len (upto 100)) - 1)%float = (-1)%float /\
  int_Floor (-1) = -1 /\
  Aggregate.Aggregate 0 (upto 100) = None /\
  Percentile 0 (upto 100) = None.
Proof. repeat split; vm_compute; reflexivity. Qed.

End PercentileFacts.

(** ** The time-bucketed window under sequences of feeds and reads *)

Module TimeWinRuns.

Import TimeWin TimeWinFacts.

(** A call on a shared window: [Append(value)] or [Iterate(f)], with the
    instant the clock shows. *)
Inductive touch : Type :=
| feed (now : Z) (value : float)
| read (now : Z).

Definition instant (t : touch) : Z :=
  match t with
  | feed now _ => now
  | read now => now
  end.

Definition step (w : TimeWindow) (t : touch) : option TimeWindow :=
  match t with
  | feed now value => Append now value w
  | read now => option_map snd (Iterate now w)
  end.

(** The calls of [ts] one after the other. *)
Definition run (ts : list touch) (w : TimeWindow) : option TimeWindow :=
  fold_left (fun w t => w <- w ;; step w t) ts (Some w).

Lemma Iterate_settled (now : Z) (w w' : TimeWindow) (pts : list float) :
  settled w -> 0 <= now < 2 ^ 63 -> Iterate now w = Some (pts, w') -> settled w'.
Proof.
  intros Hs Hnow HI.
  destruct (selectBucket_settled now w Hs Hnow) as (a & o & Hsel & _).
  destruct (Iterate_unfold _ _ _ _ _ _ Hsel HI) as (Hk & _).
  apply keepConsistent_frame in Hk.
  destruct Hs as (Hb & HN & HN64 & Hlen & HT & Hoff).
  destruct Hk as ((E1 & E2 & E3 & E4) & (E5 & E6)).
  unfold settled, len in *. rewrite E1, E2, E3, E4, E5, E6.
  repeat split; lia.
Qed.

Lemma run_settled (ts : list touch) (w : TimeWindow) :
  settled w -> Forall (fun t => 0 <= instant t < 2 ^ 63) ts ->
  exists w', run ts w = Some w' /\ settled w'.
Proof.
  unfold run. revert w. induction ts as [| t ts IH]; intros w Hs Hts.
  - exists w. split; [reflexivity | exact Hs].
  - inversion Hts as [| ? ? Ht Hts']; subst. cbn [fold_left]. simpl bind.
    destruct t as [now value | now]; simpl in Ht; simpl step.
    + destruct (Append_total now value w Hs Ht) as (w1 & Hw1). rewrite Hw1.
      apply IH; [| exact Hts']. eapply Append_settled; eassumption.
    + destruct (Iterate_total now w Hs Ht) as (pts & w1 & Hw1). rewrite Hw1.
      simpl. apply IH; [| exact Hts']. eapply Iterate_settled; eassumption.
Qed.

(** Within the range [makeslice] lets through, the constructors
    return. *)
Lemma NewTimeWindow_returns (bucketSize n : Z) :
  0 <= n -> 24 * (n + 1) <= 2 ^ 48 ->
  exists w, NewTimeWindow bucketSize n = Some w.
Proof.
  intros H0 H1. unfold NewTimeWindow, make_window, add64.
  rewrite wrap64_small by lia.
  assert (E : makeslice 24 (n + 1) (n + 1) = true).
  { unfold makeslice, maxAlloc.
    rewrite !andb_true_iff, !Z.leb_le. lia. }
  rewrite E. cbn [bind].
  destruct (repeat [] (Z.to_nat (n + 1))) as [| x l] eqn:El.
  - simpl. eauto.
  - unfold preallocate. simpl. eauto.
Qed.

Lemma NewTimeWindow3_returns (bucketSize n hint : Z) :
  0 <= n -> 24 * n <= 2 ^ 48 -> 0 <= hint -> 8 * hint <= 2 ^ 48 ->
  exists w, NewTimeWindow3 bucketSize n hint = Some w.
Proof.
  intros H0 H1 H2 H3. unfold NewTimeWindow3, make_window.
  assert (E : makeslice 24 n n = true).
  { unfold makeslice, maxAlloc.
    rewrite !andb_true_iff, !Z.leb_le. lia. }
  assert (E' : makeslice 8 0 hint = true).
  { unfold makeslice, maxAlloc.
    rewrite !andb_true_iff, !Z.leb_le. lia. }
  rewrite E. cbn [bind].
  destruct (repeat [] (Z.to_nat n)) as [| x l] eqn:El.
  - simpl. eauto.
  - unfold preallocate. rewrite E'. simpl. eauto.
Qed.

(** A window that either constructor returned, for a positive bucket size
    and a bucket count that is not negative (the constructor of [time.go],
    which adds a slot) or positive (the three-argument constructor), never
    panics afterwards: whatever values are fed and whenever it is read, at
    instants from the epoch on, every call returns, and the window stays
    settled. That the constructor returns is a hypothesis: [make] panics
    on a count or a hint the runtime refuses. *)
Theorem constructed_window_never_panics
    (bucketSize n hint : Z) (w0 : TimeWindow) (ts : list touch) :
  0 < bucketSize ->
  (0 <= n < 2 ^ 63 /\ NewTimeWindow bucketSize n = Some w0) \/
  (0 < n /\ NewTimeWindow3 bucketSize n hint = Some w0) ->
  Forall (fun t => 0 <= instant t < 2 ^ 63) ts ->
  exists w, run ts w0 = Some w /\ settled w.
Proof.
  intros Hb Hw Hts. apply run_settled; [| exact Hts].
  destruct Hw as [(Hn & E) | (Hn & E)].
  - exact (NewTimeWindow_settled _ _ _ Hb Hn E).
  - exact (NewTimeWindow3_settled _ _ _ _ Hb Hn E).
Qed.

Lemma constructed_window_never_panics_witness :
  (exists w,
     run [feed 1700000000000000000 1%float; read 1700000000060000000;
          feed 1700000000900000000 2%float; read 1700000009000000000]
       (mkTimeWindow 50000000 11 11 (repeat [] 11) 0 0) = Some w /\ settled w) /\
  (exists w,
     run [feed 1700000000000000000 1%float; read 1700000000060000000;
          feed 1700000000900000000 2%float; read 1700000009000000000]
       (mkTimeWindow 50000000 10 10 (repeat [] 10) 0 0) = Some w /\ settled w).
Proof.
  split.
  - apply (constructed_window_never_panics 50000000 10 0).
    + reflexivity.
    + left. split; [split; [discriminate | reflexivity] | reflexivity].
    + repeat constructor; simpl; discriminate.
  - apply (constructed_window_never_panics 50000000 10 1000).
    + reflexivity.
    + right. split; reflexivity.
    + repeat constructor; simpl; discriminate.
Defined.

Lemma missed_buckets_are_cleared_witness :
  exists w',
    keepConsistent 5 2 ring3 = Some w' /\
    forall i b, index (window ring3) i = Some b ->
      ((exists t, lastWindowTime ring3 < t < 5 /\
                  Z.rem t (numberOfBuckets ring3) = i) ->
       index (window w') i = Some []) /\
      ((forall t, lastWindowTime ring3 < t < 5 ->
                  Z.rem t (numberOfBuckets ring3) <> i) ->
       index (window w') i = Some b).
Proof.
  apply (missed_buckets_are_cleared 5 5 2 ring3).
  - unfold settled. vm_compute. repeat split; congruence.
  - split; [discriminate | reflexivity].
  - reflexivity.
  - split; reflexivity.
Defined.

(** ** Reading what was fed *)

Lemma update_nat_split {A : Type} (s : list A) (i : nat) (x v : A) (s' : list A) :
  nth_error s i = Some x -> update_nat s i v = Some s' ->
  exists a b, s = a ++ x :: b /\ s' = a ++ v :: b /\ length a = i.
Proof.
  revert i s'. induction s as [| h t IH]; intros i s' Hx Hu;
    [destruct i; discriminate |].
  destruct i as [| i]; simpl in Hx, Hu.
  - injection Hx as ->. injection Hu as <-. exists [], t. auto.
  - destruct (update_nat t i v) as [t' |] eqn:E; [| discriminate].
    injection Hu as <-. destruct (IH _ _ Hx E) as (a & b & -> & -> & Hl).
    exists (h :: a), b. simpl. auto.
Qed.

Lemma update_split {A : Type} (s : list A) (i : Z) (x v : A) (s' : list A) :
  index s i = Some x -> update s i v = Some s' ->
  exists a b, s = a ++ x :: b /\ s' = a ++ v :: b /\ Z.of_nat (length a) = i.
Proof.
  unfold index, update. destruct (i <? 0) eqn:E; [discriminate |].
  intros Hx Hu. destruct (update_nat_split _ _ _ _ _ Hx Hu) as (a & b & H1 & H2 & H3).
  exists a, b. repeat split; try assumption. lia.
Qed.

(** A touch in the bucket of the last [Append] repairs nothing. *)
Lemma keepConsistent_same_bucket (o : Z) (w : TimeWindow) :
  0 <= numberOfBuckets64 w ->
  keepConsistent (lastWindowTime w) o w = Some w.
Proof.
  intros HN. unfold keepConsistent, sub64.
  rewrite Z.sub_diag. change (wrap64 0) with 0.
  destruct (0 >? numberOfBuckets64 w) eqn:E; [lia |].
  rewrite Z.eqb_refl. reflexivity.
Qed.

(** A sample fed is seen by a read in the same bucket interval: the read
    visits what a read in place of the feed would have visited, and the
    new sample, and it leaves the window as the feed left it. *)
Theorem fed_sample_is_read_back
    (now now' o' : Z) (value : float) (w w1 wa : TimeWindow) (pts0 : list float) :
  0 <= numberOfBuckets64 w ->
  Iterate now w = Some (pts0, w1) ->
  Append now value w = Some wa ->
  selectBucket now' wa = Some (lastWindowTime wa, o') ->
  exists pts,
    Iterate now' wa = Some (pts, wa) /\
    Permutation pts (value :: pts0) /\
    In value pts /\
    length pts = S (length pts0).
Proof.
  intros HN HI HA Hsel'.
  destruct (selectBucket now w) as [[a o] |] eqn:Hsel;
    [| unfold Append in HA; rewrite Hsel in HA; discriminate].
  destruct (Iterate_unfold _ _ _ _ _ _ Hsel HI) as (Hk & ->).
  destruct (Append_unfold _ _ _ _ _ _ Hsel HA) as (w1' & bucket & b & Hk' & Hb & Hu & ->).
  rewrite Hk in Hk'. injection Hk' as <-.
  destruct (update_split _ _ _ _ _ Hb Hu) as (l & r & El & -> & _).
  assert (HN' : 0 <= numberOfBuckets64 (set_last (set_window w1 (l ++ (bucket ++ [value]) :: r)) o a)).
  { apply keepConsistent_frame in Hk. destruct Hk as ((_ & _ & E & _) & _).
    simpl. lia. }
  exists (concat (l ++ (bucket ++ [value]) :: r)).
  assert (HP : Permutation (concat (l ++ (bucket ++ [value]) :: r))
                 (value :: concat (window w1))).
  { rewrite El, !concat_app. simpl. rewrite <- app_assoc. simpl.
    apply Permutation_sym.
    replace (concat l ++ bucket ++ value :: concat r)
      with ((concat l ++ bucket) ++ value :: concat r)
      by (rewrite <- app_assoc; reflexivity).
    apply Permutation_cons_app. rewrite <- app_assoc. reflexivity. }
  split.
  - pose proof (keepConsistent_same_bucket o' _ HN') as Hsame.
    unfold Iterate. rewrite Hsel'. unfold bind at 1. rewrite Hsame.
    reflexivity.
  - split; [exact HP |]. split.
    + apply (Permutation_in value (Permutation_sym HP)). left. reflexivity.
    + apply (Permutation_length HP).
Qed.

Lemma fed_sample_is_read_back_witness :
  exists pts,
    Iterate 5 (mkTimeWindow 1 3 3 [[3%float]; []; [2%float; 9%float]] 2 5)
    = Some (pts, mkTimeWindow 1 3 3 [[3%float]; []; [2%float; 9%float]] 2 5) /\
    Permutation pts [9%float; 3%float; 2%float] /\
    In 9%float pts /\
    length pts = 3%nat.
Proof.
  apply (fed_sample_is_read_back 5 5 2 9%float ring3
           (mkTimeWindow 1 3 3 [[3%float]; []; [2%float]] 0 3)
           (mkTimeWindow 1 3 3 [[3%float]; []; [2%float; 9%float]] 2 5)
           [3%float; 2%float]).
  - discriminate.
  - reflexivity.
  - reflexivity.
  - reflexivity.
Defined.

(** ** Reading twice *)

Lemma resetWindow_twice (w : TimeWindow) : resetWindow (resetWindow w) = resetWindow w.
Proof.
  unfold resetWindow, set_window. simpl. rewrite map_map. reflexivity.
Qed.

Lemma window_ext (w w' : TimeWindow) :
  same_shape w w' -> same_marks w w' ->
  (forall i b, index (window w) i = Some b -> index (window w') i = Some b) ->
  w' = w.
Proof.
  intros (E1 & E2 & E3 & E4) (E5 & E6) Hi.
  assert (Ew : window w' = window w).
  { apply nth_error_ext. intros k.
    destruct (nth_error (window w) k) as [b |] eqn:Ek.
    - specialize (Hi (Z.of_nat k) b). unfold index in Hi.
      destruct (Z.of_nat k <? 0) eqn:E; [apply Z.ltb_lt in E; lia |].
      rewrite Nat2Z.id in Hi. auto.
    - apply nth_error_None in Ek. apply nth_error_None. lia. }
  destruct w, w'. simpl in *. subst. reflexivity.
Qed.

Lemma settled_frame (w w' : TimeWindow) :
  settled w -> same_shape w w' -> same_marks w w' -> settled w'.
Proof.
  intros (Hb & HN & HN64 & Hlen & HT & Hoff) (E1 & E2 & E3 & E4) (E5 & E6).
  unfold settled, len in *. rewrite E1, E2, E3, E4, E5, E6. repeat split; lia.
Qed.

(** The repair is idempotent: run again at the same bucket index on the
    window it returned, it returns that window. *)
Lemma keepConsistent_twice (a o : Z) (w w1 : TimeWindow) :
  settled w -> 0 <= o < numberOfBuckets w ->
  keepConsistent a o w = Some w1 -> keepConsistent a o w1 = Some w1.
Proof.
  intros Hs Ho H.
  pose proof (keepConsistent_frame _ _ _ _ H) as (Hshape & Hmarks).
  pose proof Hshape as (E1 & E2 & E3 & E4). pose proof Hmarks as (E5 & E6).
  unfold keepConsistent in *. rewrite E3, E6.
  destruct (sub64 a (lastWindowTime w) >? numberOfBuckets64 w) eqn:G1.
  - assert (G2 : (sub64 a (lastWindowTime w) <? numberOfBuckets64 w) = false) by lia.
    simpl in H. rewrite G2, andb_false_r in H. injection H as <-.
    simpl. rewrite G2, andb_false_r, resetWindow_twice. reflexivity.
  - rewrite E3, E6.
    destruct (negb (a =? lastWindowTime w)
              && (sub64 a (lastWindowTime w) <? numberOfBuckets64 w)) eqn:G2.
    + assert (Hs1 : settled w1) by (eapply settled_frame; eassumption).
      destruct (resetBuckets_spec o w Hs Ho) as (v1 & Hv1 & Hspec1).
      rewrite H in Hv1. injection Hv1 as <-.
      assert (Ho1 : 0 <= o < numberOfBuckets w1) by lia.
      destruct (resetBuckets_spec o w1 Hs1 Ho1) as (w2 & Hw2 & Hspec2).
      rewrite Hw2. f_equal.
      pose proof (resetBuckets_frame _ _ _ Hw2) as (Hshape2 & Hmarks2).
      apply window_ext; [exact Hshape2 | exact Hmarks2 |].
      intros i b1 Hb1.
      rewrite (Hspec2 i b1 Hb1).
      assert (Esw : swept_offset w1 (counters (ring_distance w1 o)) i
                    = swept_offset w (counters (ring_distance w o)) i).
      { unfold swept_offset, ring_distance. rewrite E2, E5. reflexivity. }
      rewrite Esw.
      destruct (swept_offset w (counters (ring_distance w o)) i) eqn:Sw;
        [| reflexivity].
      destruct (index (window w) i) as [b |] eqn:Hb.
      * rewrite (Hspec1 i b Hb), Sw in Hb1. exact Hb1.
      * exfalso. unfold index, len in *.
        destruct (i <? 0); [discriminate |].
        apply nth_error_None in Hb.
        assert (Hn : nth_error (window w1) (Z.to_nat i) <> None) by congruence.
        apply nth_error_Some in Hn. lia.
    + reflexivity.
Qed.

(** A read repeated at the same instant visits the same samples and
    changes nothing more: whatever the first read cleared stays cleared,
    and nothing else is touched. *)
Theorem read_is_repeatable (now : Z) (w w1 : TimeWindow) (pts : list float) :
  settled w -> 0 <= now < 2 ^ 63 ->
  Iterate now w = Some (pts, w1) ->
  Iterate now w1 = Some (pts, w1).
Proof.
  intros Hs Hnow HI.
  destruct (selectBucket_settled now w Hs Hnow) as (a & o & Hsel & _ & _ & Ho).
  destruct (Iterate_unfold _ _ _ _ _ _ Hsel HI) as (Hk & ->).
  pose proof (keepConsistent_frame _ _ _ _ Hk) as ((E1 & _ & E3 & _) & _).
  assert (Hsel1 : selectBucket now w1 = Some (a, o)).
  { unfold selectBucket in *. rewrite E1, E3. exact Hsel. }
  unfold Iterate. rewrite Hsel1. unfold bind at 1.
  rewrite (keepConsistent_twice a o w w1 Hs Ho Hk). reflexivity.
Qed.

Lemma read_is_repeatable_witness :
  Iterate 5 (mkTimeWindow 1 3 3 [[3%float]; []; [2%float]] 0 3)
  = Some ([3%float; 2%float], mkTimeWindow 1 3 3 [[3%float]; []; [2%float]] 0 3).
Proof.
  apply (read_is_repeatable 5 ring3).
  - unfold settled. vm_compute. repeat split; congruence.
  - split; [discriminate | reflexivity].
  - reflexivity.
Defined.

(** ** The ring of buckets *)

(** On a settled window, the slot that an instant from the epoch on
    selects lies inside the ring, and the instant a whole ring of buckets
    later, when it still fits an [int64], selects the same slot, with a
    bucket index larger by the number of buckets. An instant before the
    epoch is outside the statement: its quotient and remainder are
    negative or zero. *)
Theorem selectBucket_wraps_around (now : Z) (w : TimeWindow) :
  settled w -> 0 <= now ->
  now + bucketSizeNano w * numberOfBuckets w < 2 ^ 63 ->
  exists a o,
    selectBucket now w = Some (a, o) /\
    0 <= o < numberOfBuckets w /\
    selectBucket (now + bucketSizeNano w * numberOfBuckets w) w
    = Some (a + numberOfBuckets w, o).
Proof.
  intros Hs Hnow Hlate.
  pose proof Hs as (Hb & HN & HN64 & _).
  assert (Hn : 0 <= now < 2 ^ 63) by nia.
  destruct (selectBucket_settled now w Hs Hn) as (a & o & Hsel & Ha & Hoa & Ho).
  exists a, o. split; [exact Hsel |]. split; [exact Ho |].
  assert (Ea : a = Z.quot now (bucketSizeNano w)).
  { unfold selectBucket, div64, rem64 in Hsel.
    destruct (bucketSizeNano w =? 0) eqn:E1; [lia |]. cbn [bind] in Hsel.
    destruct (numberOfBuckets64 w =? 0) eqn:E2; [lia |]. cbn [bind] in Hsel.
    injection Hsel as Ea _. rewrite <- Ea. apply wrap64_small.
    split; [| apply Z.le_lt_trans with now; [| lia]].
    - assert (0 <= Z.quot now (bucketSizeNano w)) by (apply Z.quot_pos; lia). lia.
    - rewrite Z.quot_div_nonneg by lia.
      apply Z.div_le_upper_bound; [lia | nia]. }
  assert (Hq : Z.quot (now + bucketSizeNano w * numberOfBuckets w) (bucketSizeNano w)
               = a + numberOfBuckets w).
  { rewrite Ea, !Z.quot_div_nonneg by nia.
    rewrite (Z.mul_comm (bucketSizeNano w)). apply Z.div_add. lia. }
  assert (Hsum : a + numberOfBuckets w < 2 ^ 63).
  { assert (a <= now).
    { rewrite Ea, Z.quot_div_nonneg by lia.
      apply Z.div_le_upper_bound; [lia | nia]. }
    nia. }
  unfold selectBucket, div64, rem64. rewrite HN64.
  destruct (bucketSizeNano w =? 0) eqn:E1; [lia |]. cbn [bind].
  destruct (numberOfBuckets w =? 0) eqn:E2; [lia |]. cbn [bind].
  rewrite Hq, wrap64_small by lia.
  f_equal. f_equal.
  rewrite Hoa, !Z.rem_mod_nonneg by lia.
  replace (a + numberOfBuckets w) with (a + 1 * numberOfBuckets w) by lia.
  apply Z.mod_add. lia.
Qed.

Lemma selectBucket_wraps_around_witness :
  exists a o,
    selectBucket 5 ring3 = Some (a, o) /\
    0 <= o < numberOfBuckets ring3 /\
    selectBucket (5 + bucketSizeNano ring3 * numberOfBuckets ring3) ring3
    = Some (a + numberOfBuckets ring3, o).
Proof.
  apply (selectBucket_wraps_around 5 ring3).
  - unfold settled. vm_compute. repeat split; congruence.
  - discriminate.
  - reflexivity.
Defined.

End TimeWinRuns.

(** ** The point windows keep the last values fed *)

Module PointWinFacts.

Import PointWin.

(** The last [n] elements of a list. *)
Definition lastn {A : Type} (n : nat) (l : list A) : list A :=
  skipn (length l - n) l.

(** [w.Append(v)] for each [v] of [l], in turn. *)
Definition appendAll (l : list float) (w : PointWindow) : option PointWindow :=
  fold_left (fun w v => w <- w ;; Append v w) l (Some w).

(** [w.Feed(v)] for each [v] of [l], in turn. *)
Definition feedAll (l : list float) (w : pointWindow) : option pointWindow :=
  fold_left (fun w v => w <- w ;; Feed v w) l (Some w).

(** The ring read from the slot [c] on, around to the slot before it. *)
Definition from_slot {A : Type} (c : nat) (ring : list A) : list A :=
  skipn c ring ++ firstn c ring.

Lemma skipn_S_tl {A : Type} (k : nat) (l : list A) : skipn (S k) l = tl (skipn k l).
Proof.
  revert l. induction k as [| k IH]; intros l.
  - destruct l; reflexivity.
  - destruct l as [| x l]; [reflexivity |]. simpl. rewrite <- IH. reflexivity.
Qed.

Lemma lastn_snoc {A : Type} (n : nat) (hist : list A) (v : A) :
  (1 <= n <= length hist)%nat ->
  lastn n (hist ++ [v]) = tl (lastn n hist) ++ [v].
Proof.
  intros H. unfold lastn. rewrite length_app. cbn [length].
  replace (length hist + 1 - n)%nat with (S (length hist - n)) by lia.
  rewrite skipn_app.
  replace (S (length hist - n) - length hist)%nat with 0%nat by lia.
  rewrite skipn_S_tl. reflexivity.
Qed.

(** Writing at the oldest slot and moving the cursor on shifts the ring by
    one value. *)
Lemma ring_write {A : Type} (a b : list A) (x v : A) :
  from_slot (if (S (length a) =? length (a ++ x :: b))%nat then 0 else S (length a))
    (a ++ v :: b)
  = tl (from_slot (length a) (a ++ x :: b)) ++ [v].
Proof.
  unfold from_slot. rewrite length_app. cbn [length].
  rewrite (skipn_app (length a) a), (firstn_app (length a) a).
  rewrite Nat.sub_diag, skipn_all, firstn_all. cbn [skipn firstn app tl].
  rewrite app_nil_r.
  destruct (S (length a) =? length a + S (length b))%nat eqn:E.
  - apply Nat.eqb_eq in E. destruct b; [| simpl in E; lia].
    cbn [skipn firstn]. rewrite app_nil_r. reflexivity.
  - rewrite skipn_app, firstn_app.
    replace (S (length a) - length a)%nat with 1%nat by lia.
    rewrite skipn_all2 by lia. rewrite firstn_all2 by lia.
    cbn [skipn firstn app]. rewrite <- app_assoc. reflexivity.
Qed.

(** What a [PointWindow] of [n] slots holds after the values of [hist]
    (the zeros it starts with, then what was fed) went through it. *)
Definition holds (n : Z) (hist : list float) (w : PointWindow) : Prop :=
  windowSize w = n /\
  length (window w) = Z.to_nat n /\
  0 <= offset w < n /\
  from_slot (Z.to_nat (offset w)) (window w) = lastn (Z.to_nat n) hist.

Lemma Append_holds (n : Z) (hist : list float) (v : float) (w : PointWindow) :
  0 < n < 2 ^ 63 -> (Z.to_nat n <= length hist)%nat -> holds n hist w ->
  exists w', Append v w = Some w' /\ holds n (hist ++ [v]) w' /\
             offset w' = (offset w + 1) mod n.
Proof.
  intros Hn Hh (Hsize & Hlen & Hoff & Hring).
  assert (Hr : 0 <= offset w < len (window w)) by (unfold len; lia).
  destruct (TimeWinFacts.index_total _ _ Hr) as (x & Hx).
  destruct (TimeWinFacts.update_total (window w) (offset w) v Hr) as (b & Hu).
  destruct (TimeWinRuns.update_split _ _ _ _ _ Hx Hu) as (l & r & El & -> & Hl).
  unfold Append. rewrite Hu. cbn [bind]. unfold rem64, add64.
  rewrite Hsize, TimeWinFacts.wrap64_small by lia.
  destruct (n =? 0) eqn:E0; [lia |]. cbn [bind].
  rewrite Z.rem_mod_nonneg by lia.
  eexists. split; [reflexivity |]. split; [| reflexivity].
  assert (Hlr : length (l ++ x :: r) = Z.to_nat n) by (rewrite <- El; exact Hlen).
  unfold holds. simpl. repeat split.
  - rewrite length_app in *. simpl in *. exact Hlr.
  - apply Z.mod_pos_bound. lia.
  - apply Z.mod_pos_bound. lia.
  - rewrite lastn_snoc by lia. rewrite <- Hring, El.
    replace (Z.to_nat (offset w)) with (length l) by lia.
    rewrite <- ring_write. f_equal.
    destruct (S (length l) =? length (l ++ x :: r))%nat eqn:E.
    + apply Nat.eqb_eq in E.
      replace (offset w + 1) with n by lia. rewrite Z_mod_same_full. reflexivity.
    + apply Nat.eqb_neq in E. rewrite length_app in *. simpl in *.
      rewrite Z.mod_small by lia. lia.
Qed.

Lemma appendAll_holds (n : Z) (l hist : list float) (w : PointWindow) :
  0 < n < 2 ^ 63 -> (Z.to_nat n <= length hist)%nat -> holds n hist w ->
  exists w', appendAll l w = Some w' /\ holds n (hist ++ l) w' /\
             offset w' = (offset w + Z.of_nat (length l)) mod n.
Proof.
  intros Hn. unfold appendAll. revert hist w.
  induction l as [| v l IH]; intros hist w Hh Hw.
  - exists w. rewrite app_nil_r. split; [reflexivity |]. split; [exact Hw |].
    destruct Hw as (_ & _ & Ho & _). cbn [length Z.of_nat].
    rewrite Z.add_0_r, Z.mod_small; lia.
  - cbn [fold_left]. cbn [bind].
    destruct (Append_holds n hist v w Hn Hh Hw) as (w1 & -> & Hw1 & Ho1).
    destruct (IH (hist ++ [v]) w1) as (w' & Hw' & Hholds & Ho').
    + rewrite length_app. simpl. lia.
    + exact Hw1.
    + exists w'. split; [exact Hw' |]. split.
      * rewrite <- app_assoc in Hholds. exact Hholds.
      * rewrite Ho', Ho1. rewrite Zplus_mod_idemp_l. f_equal.
        simpl length. lia.
Qed.

Lemma from_slot_perm {A : Type} (c : nat) (ring : list A) :
  Permutation (from_slot c ring) ring.
Proof.
  unfold from_slot. rewrite Permutation_app_comm, firstn_skipn. reflexivity.
Qed.

(** What [NewPointWindow] returns when it returns: [n] zeros and the
    cursor on the first slot, for an [n] that [makeslice] let through. *)
Lemma NewPointWindow_Some (n : Z) (w : PointWindow) :
  NewPointWindow n = Some w ->
  w = mkPointWindow n (repeat 0%float (Z.to_nat n)) 0 /\
  0 <= n /\ 8 * n <= 2 ^ 48.
Proof.
  unfold NewPointWindow. destruct (makeslice 8 n n) eqn:E; [| discriminate].
  intros H. injection H as <-. apply TimeWinFacts.makeslice_true in E.
  split; [reflexivity | lia].
Qed.

(** A [PointWindow] that [NewPointWindow] returned for a positive [n]
    never panics afterwards and never grows; read from its cursor on,
    around the ring, it replays the last [n] values of the zeros it started
    with followed by everything fed, oldest first; once [n] values were fed
    it holds exactly the last [n] of them. That the constructor returns is
    a hypothesis: [make] panics on a size the runtime refuses. *)
Theorem PointWindow_keeps_the_last_values
    (n : Z) (l : list float) (w0 : PointWindow) :
  0 < n -> NewPointWindow n = Some w0 ->
  exists w,
    appendAll l w0 = Some w /\
    length (Iterate w) = Z.to_nat n /\
    offset w = Z.of_nat (length l) mod n /\
    from_slot (Z.to_nat (offset w)) (Iterate w)
    = lastn (Z.to_nat n) (repeat 0%float (Z.to_nat n) ++ l) /\
    ((Z.to_nat n <= length l)%nat ->
     Permutation (Iterate w) (lastn (Z.to_nat n) l)).
Proof.
  intros Hpos H0. apply NewPointWindow_Some in H0.
  destruct H0 as (-> & _ & Hmax).
  assert (Hn : 0 < n < 2 ^ 63) by lia.
  destruct (appendAll_holds n l (repeat 0%float (Z.to_nat n))
              (mkPointWindow n (repeat 0%float (Z.to_nat n)) 0))
    as (w & Hw & (Hsize & Hlen & Hoff & Hring) & Ho); [exact Hn | | |].
  - rewrite repeat_length. lia.
  - unfold holds, from_slot, lastn. simpl.
    rewrite repeat_length, Nat.sub_diag. simpl. rewrite app_nil_r.
    repeat split; lia.
  - exists w. split; [exact Hw |].
    split; [exact Hlen |]. split; [exact Ho |]. split; [exact Hring |].
    intros Hfull. unfold Iterate.
    rewrite <- (from_slot_perm (Z.to_nat (offset w)) (window w)), Hring.
    unfold lastn. rewrite length_app, repeat_length.
    rewrite skipn_app, repeat_length.
    rewrite skipn_all2 by (rewrite repeat_length; lia). simpl.
    replace (Z.to_nat n + length l - Z.to_nat n - Z.to_nat n)%nat
      with (length l - Z.to_nat n)%nat by lia.
    reflexivity.
Qed.

Lemma PointWindow_keeps_the_last_values_witness :
  exists w,
    appendAll [1; 2; 3; 4]%float (mkPointWindow 3 [0; 0; 0]%float 0) = Some w /\
    length (Iterate w) = Z.to_nat 3 /\
    offset w = Z.of_nat (length [1; 2; 3; 4]%float) mod 3 /\
    from_slot (Z.to_nat (offset w)) (Iterate w)
    = lastn (Z.to_nat 3) (repeat 0%float (Z.to_nat 3) ++ [1; 2; 3; 4]%float) /\
    ((Z.to_nat 3 <= length [1; 2; 3; 4]%float)%nat ->
     Permutation (Iterate w) (lastn (Z.to_nat 3) [1; 2; 3; 4]%float)).
Proof.
  apply (PointWindow_keeps_the_last_values 3 [1; 2; 3; 4]%float);
    reflexivity.
Defined.

(** The later [pointWindow]: one single-element bucket per slot, and a
    cursor that names the slot written last. *)
Definition holds' (n : Z) (hist : list float) (w : pointWindow) : Prop :=
  windowSize' w = n /\
  0 <= lastWindowOffset w < n /\
  exists vals,
    window' w = map (fun x => [x]) vals /\
    length vals = Z.to_nat n /\
    from_slot (Z.to_nat ((lastWindowOffset w + 1) mod n)) vals
    = lastn (Z.to_nat n) hist.

Lemma concat_singletons (vals : list float) :
  concat (map (fun x => [x]) vals) = vals.
Proof. induction vals as [| x l IH]; simpl; [| rewrite IH]; reflexivity. Qed.

Lemma Feed_holds (n : Z) (hist : list float) (v : float) (w : pointWindow) :
  0 < n < 2 ^ 63 -> (Z.to_nat n <= length hist)%nat -> holds' n hist w ->
  exists w', Feed v w = Some w' /\ holds' n (hist ++ [v]) w' /\
             lastWindowOffset w' = (lastWindowOffset w + 1) mod n.
Proof.
  intros Hn Hh (Hsize & Hoff & vals & Ewin & Hlen & Hring).
  set (c := (lastWindowOffset w + 1) mod n) in *.
  assert (Hc : 0 <= c < n) by (apply Z.mod_pos_bound; lia).
  assert (Hr : 0 <= c < len vals) by (unfold len; lia).
  destruct (TimeWinFacts.index_total _ _ Hr) as (x & Hx).
  destruct (TimeWinFacts.update_total vals c v Hr) as (vals' & Hu).
  destruct (TimeWinRuns.update_split _ _ _ _ _ Hx Hu) as (l & r & El & -> & Hl).
  unfold Feed, rem64, add64.
  rewrite Hsize, TimeWinFacts.wrap64_small by lia.
  destruct (n =? 0) eqn:E0; [lia |]. cbn [bind].
  rewrite Z.rem_mod_nonneg by lia. fold c.
  assert (Hb : index (window' w) c = Some [x]).
  { rewrite Ewin, El. unfold index. destruct (c <? 0) eqn:E; [lia |].
    rewrite map_app. simpl.
    rewrite nth_error_app2 by (rewrite length_map; lia).
    rewrite length_map. replace (Z.to_nat c - length l)%nat with 0%nat by lia.
    reflexivity. }
  rewrite Hb. cbn [bind]. change (update [x] 0 v) with (Some [v]). cbn [bind].
  assert (Hub : update (window' w) c [v] = Some (map (fun x => [x]) (l ++ v :: r))).
  { rewrite Ewin, El. unfold update. destruct (c <? 0) eqn:E; [lia |].
    replace (Z.to_nat c) with (length l) by lia.
    rewrite !map_app. simpl. clear. induction l as [| h t IH]; simpl.
    - reflexivity.
    - rewrite IH. reflexivity. }
  rewrite Hub. cbn [bind].
  eexists. split; [reflexivity |]. split; [| reflexivity].
  assert (Hlr : length (l ++ x :: r) = Z.to_nat n) by (rewrite <- El; exact Hlen).
  unfold holds'. simpl. split; [reflexivity |]. split; [exact Hc |].
  exists (l ++ v :: r). split; [reflexivity |]. split.
  - rewrite length_app in *. simpl in *. exact Hlr.
  - rewrite lastn_snoc by lia. rewrite <- Hring, El.
    replace (Z.to_nat c) with (length l) by lia.
    rewrite <- ring_write. f_equal.
    destruct (S (length l) =? length (l ++ x :: r))%nat eqn:E.
    + apply Nat.eqb_eq in E.
      replace (c + 1) with n by lia. rewrite Z_mod_same_full. reflexivity.
    + apply Nat.eqb_neq in E. rewrite length_app in *. simpl in *.
      rewrite Z.mod_small by lia. lia.
Qed.

Lemma feedAll_holds (n : Z) (l hist : list float) (w : pointWindow) :
  0 < n < 2 ^ 63 -> (Z.to_nat n <= length hist)%nat -> holds' n hist w ->
  exists w', feedAll l w = Some w' /\ holds' n (hist ++ l) w' /\
             lastWindowOffset w'
             = (lastWindowOffset w + Z.of_nat (length l)) mod n.
Proof.
  intros Hn. unfold feedAll. revert hist w.
  induction l as [| v l IH]; intros hist w Hh Hw.
  - exists w. rewrite app_nil_r. split; [reflexivity |]. split; [exact Hw |].
    destruct Hw as (_ & Ho & _). cbn [length Z.of_nat].
    rewrite Z.add_0_r, Z.mod_small; lia.
  - cbn [fold_left]. cbn [bind].
    destruct (Feed_holds n hist v w Hn Hh Hw) as (w1 & -> & Hw1 & Ho1).
    destruct (IH (hist ++ [v]) w1) as (w' & Hw' & Hholds & Ho').
    + rewrite length_app. simpl. lia.
    + exact Hw1.
    + exists w'. split; [exact Hw' |]. split.
      * rewrite <- app_assoc in Hholds. exact Hholds.
      * rewrite Ho', Ho1. rewrite Zplus_mod_idemp_l. f_equal.
        simpl length. lia.
Qed.

Lemma from_slot_repeat {A : Type} (x : A) (c n : nat) :
  from_slot c (repeat x n) = repeat x n.
Proof.
  unfold from_slot. revert c. induction n as [| n IH]; intros c.
  - destruct c; reflexivity.
  - destruct c as [| c]; [simpl; rewrite app_nil_r; reflexivity |].
    simpl. specialize (IH c).
    assert (H : forall l, l ++ x :: firstn c (repeat x n)
                          = (l ++ firstn c (repeat x n)) ++ [x]).
    { intros l. rewrite <- app_assoc. f_equal.
      clear. revert c. induction n as [| n IH]; intros c.
      - destruct c; reflexivity.
      - destruct c as [| c]; [reflexivity |]. simpl. rewrite IH. reflexivity. }
    rewrite H, IH. clear. induction n as [| n IH]; [reflexivity |].
    simpl. rewrite IH. reflexivity.
Qed.

Lemma NewPointWindow'_Some (n : Z) (w : pointWindow) :
  NewPointWindow' n = Some w ->
  w = mkpointWindow n (repeat [0%float] (Z.to_nat n)) 0 /\
  0 <= n /\ 24 * n <= 2 ^ 48.
Proof.
  unfold NewPointWindow'. destruct (makeslice 24 n n) eqn:E; [| discriminate].
  intros H. injection H as <-. apply TimeWinFacts.makeslice_true in E.
  split; [reflexivity | lia].
Qed.

(** The later [pointWindow] that its constructor returned for a positive
    [n] never panics afterwards and never grows; read from the slot after
    its cursor, around the ring, it replays the last [n] values of the
    zeros it started with followed by everything fed, oldest first; once
    [n] values were fed it holds exactly the last [n] of them. That the
    constructor returns is a hypothesis: [make] panics on a size the
    runtime refuses. *)
Theorem Feed_keeps_the_last_values
    (n : Z) (l : list float) (w0 : pointWindow) :
  0 < n -> NewPointWindow' n = Some w0 ->
  exists w,
    feedAll l w0 = Some w /\
    length (Iterate' w) = Z.to_nat n /\
    lastWindowOffset w = Z.of_nat (length l) mod n /\
    from_slot (Z.to_nat ((lastWindowOffset w + 1) mod n)) (Iterate' w)
    = lastn (Z.to_nat n) (repeat 0%float (Z.to_nat n) ++ l) /\
    ((Z.to_nat n <= length l)%nat ->
     Permutation (Iterate' w) (lastn (Z.to_nat n) l)).
Proof.
  intros Hpos H0. apply NewPointWindow'_Some in H0.
  destruct H0 as (-> & _ & Hmax).
  assert (Hn : 0 < n < 2 ^ 63) by lia.
  destruct (feedAll_holds n l (repeat 0%float (Z.to_nat n))
              (mkpointWindow n (repeat [0%float] (Z.to_nat n)) 0))
    as (w & Hw & (Hsize & Hoff & vals & Ewin & Hlen & Hring) & Ho);
    [exact Hn | | |].
  - rewrite repeat_length. lia.
  - unfold holds'. simpl. split; [reflexivity |]. split; [lia |].
    exists (repeat 0%float (Z.to_nat n)). split.
    + clear. induction (Z.to_nat n) as [| k IH]; simpl; [| rewrite IH]; reflexivity.
    + split; [apply repeat_length |].
      rewrite from_slot_repeat. unfold lastn.
      rewrite repeat_length, Nat.sub_diag. reflexivity.
  - exists w. split; [exact Hw |].
    unfold Iterate'. rewrite Ewin, concat_singletons.
    split; [exact Hlen |]. split; [exact Ho |]. split; [exact Hring |].
    intros Hfull.
    rewrite <- (from_slot_perm (Z.to_nat ((lastWindowOffset w + 1) mod n)) vals), Hring.
    unfold lastn. rewrite length_app, repeat_length.
    rewrite skipn_app, repeat_length.
    rewrite skipn_all2 by (rewrite repeat_length; lia). simpl.
    replace (Z.to_nat n + length l - Z.to_nat n - Z.to_nat n)%nat
      with (length l - Z.to_nat n)%nat by lia.
    reflexivity.
Qed.

Lemma Feed_keeps_the_last_values_witness :
  exists w,
    feedAll [1; 2; 3; 4]%float
      (mkpointWindow 3 [[0]; [0]; [0]]%float 0) = Some w /\
    length (Iterate' w) = Z.to_nat 3 /\
    lastWindowOffset w = Z.of_nat (length [1; 2; 3; 4]%float) mod 3 /\
    from_slot (Z.to_nat ((lastWindowOffset w + 1) mod 3)) (Iterate' w)
    = lastn (Z.to_nat 3) (repeat 0%float (Z.to_nat 3) ++ [1; 2; 3; 4]%float) /\
    ((Z.to_nat 3 <= length [1; 2; 3; 4]%float)%nat ->
     Permutation (Iterate' w) (lastn (Z.to_nat 3) [1; 2; 3; 4]%float)).
Proof.
  apply (Feed_keeps_the_last_values 3 [1; 2; 3; 4]%float);
    reflexivity.
Defined.

End PointWinFacts.

(** ** The reducers that fold a window into one number *)

Module ReducerFacts.

Import Reducers Aggregators FloatOrder BubbleSortFacts SortFacts.

Lemma last_default {A : Type} (a : A) (l : list A) (d d' : A) :
  last (a :: l) d = last (a :: l) d'.
Proof.
  revert a. induction l as [| b l IH]; intros a; [reflexivity |].
  change (last (b :: l) d = last (b :: l) d'). apply IH.
Qed.

Lemma last_cons {A : Type} (a : A) (l : list A) (d : A) :
  last (a :: l) d = last l a.
Proof.
  destruct l as [| b l]; [reflexivity |].
  change (last (b :: l) d = last (b :: l) a). apply last_default.
Qed.

Lemma unstarted_fold (test : float -> float -> bool) (it : list float) (r : float) :
  fold_left
    (fun '(result, started) v =>
       if negb started then (v, started)
       else if test v result then (v, started) else (result, started))
    it (r, false)
  = (last it r, false).
Proof.
  revert r. induction it as [| v it IH]; intros r; [reflexivity |].
  cbn [fold_left negb]. rewrite IH, last_cons. reflexivity.
Qed.

(** [Min] and [Max] of [reduce.go] never set their flag [started], so
    every point overwrites the result: both return the point visited
    last, and 0 over an empty window. *)
Theorem Min_and_Max_return_the_last_point (it : list float) :
  Min it = last it 0%float /\ Max it = last it 0%float.
Proof.
  split.
  - unfold Min.
    rewrite (unstarted_fold (fun v result => (v <? result)%float)). reflexivity.
  - unfold Max.
    rewrite (unstarted_fold (fun v result => (result <? v)%float)). reflexivity.
Qed.

(** The sum and the count of [Avg] run side by side. *)
Lemma sum_count_fold (it : list float) (a b : float) :
  fold_left (fun '(result, count) v => (result + v, count + 1)%float) it (a, b)
  = (fold_left (fun result v => (result + v)%float) it a,
     fold_left (fun result v => (result + 1)%float) it b).
Proof.
  revert a b. induction it as [| v it IH]; intros a b; [reflexivity |].
  cbn [fold_left]. apply IH.
Qed.

(** The average of either file is, bit for bit, the sum of the same
    file divided by its count. *)
Theorem average_is_sum_over_count (it : list float) :
  Reduce.Avg it = (Sum it / Count it)%float /\
  Aggregate.avg it = (sum it / count it)%float.
Proof.
  unfold Reduce.Avg, Aggregate.avg, Sum, Count, sum, count.
  rewrite sum_count_fold. split; reflexivity.
Qed.

(** *** [math.Min], [math.Max] and the folds over them *)

Lemma eqb_equal_infinity (x : float) (s : bool) :
  SFeqb (Prim2SF x) (S754_infinity s) = true -> Prim2SF x = S754_infinity s.
Proof.
  unfold SFeqb, SFcompare.
  destruct (Prim2SF x) as [s' | s' | | s' m e]; try discriminate;
    destruct s', s; intros H; try discriminate H; reflexivity.
Qed.

Lemma eqb_neg_infinity (x : float) :
  (x =? neg_infinity)%float = true -> x = neg_infinity.
Proof.
  rewrite eqb_spec. change (Prim2SF neg_infinity) with (S754_infinity true).
  intros H. apply Prim2SF_inj. apply eqb_equal_infinity in H. exact H.
Qed.

Lemma eqb_infinity (x : float) :
  (x =? infinity)%float = true -> x = infinity.
Proof.
  rewrite eqb_spec. change (Prim2SF infinity) with (S754_infinity false).
  intros H. apply Prim2SF_inj. apply eqb_equal_infinity in H. exact H.
Qed.

Lemma fle_neg_infinity (x : float) : notNaN x -> fle neg_infinity x.
Proof.
  intros Hx. apply notNaN_Prim2SF in Hx. unfold fle. rewrite leb_spec.
  change (Prim2SF neg_infinity) with (S754_infinity true).
  unfold SFleb, SFcompare.
  destruct (Prim2SF x) as [s | s | | s m e]; try congruence; try reflexivity.
  destruct s; reflexivity.
Qed.

Lemma fle_infinity (x : float) : notNaN x -> fle x infinity.
Proof.
  intros Hx. apply notNaN_Prim2SF in Hx. unfold fle. rewrite leb_spec.
  change (Prim2SF infinity) with (S754_infinity false).
  unfold SFleb, SFcompare.
  destruct (Prim2SF x) as [s | s | | s m e]; try congruence; try reflexivity.
  destruct s; reflexivity.
Qed.

Lemma eqb_fle (x y : float) : (x =? y)%float = true -> fle x y /\ fle y x.
Proof.
  intros H.
  assert (Hxy : fle x y).
  { unfold fle. rewrite leb_spec. rewrite eqb_spec in H.
    unfold SFeqb, SFleb in *.
    destruct (SFcompare (Prim2SF x) (Prim2SF y)) as [[| |] |];
      try discriminate; reflexivity. }
  split; [exact Hxy |].
  destruct (fle_notNaN _ _ Hxy) as (Hx & Hy).
  apply nltb_fle; [exact Hy | exact Hx |].
  rewrite ltb_spec. rewrite eqb_spec in H.
  unfold SFeqb, SFltb in *.
  destruct (SFcompare (Prim2SF x) (Prim2SF y)) as [[| |] |];
    try discriminate; reflexivity.
Qed.

Lemma math_Min_spec (x y : float) :
  notNaN x -> notNaN y ->
  (math_Min x y = x \/ math_Min x y = y) /\
  fle (math_Min x y) x /\ fle (math_Min x y) y.
Proof.
  intros Hx Hy. unfold math_Min.
  destruct (x =? neg_infinity)%float eqn:E1.
  { apply eqb_neg_infinity in E1. subst x. cbn [orb].
    split; [left; reflexivity |].
    split; [apply fle_refl, Hx | apply fle_neg_infinity, Hy]. }
  destruct (y =? neg_infinity)%float eqn:E2.
  { apply eqb_neg_infinity in E2. subst y. cbn [orb].
    split; [right; reflexivity |].
    split; [apply fle_neg_infinity, Hx | apply fle_refl, Hy]. }
  cbn [orb]. unfold notNaN in Hx, Hy. rewrite Hx, Hy. cbn [orb].
  destruct ((x =? 0)%float && (x =? y)%float) eqn:E3.
  { apply andb_prop in E3. destruct E3 as (_ & E3).
    destruct (eqb_fle _ _ E3) as (H1 & H2).
    destruct (get_sign x).
    - split; [left; reflexivity |]. split; [apply fle_refl, Hx | exact H1].
    - split; [right; reflexivity |]. split; [exact H2 | apply fle_refl, Hy]. }
  destruct (x <? y)%float eqn:E4.
  - split; [left; reflexivity |].
    split; [apply fle_refl, Hx | apply ltb_fle, E4].
  - split; [right; reflexivity |].
    split; [apply nltb_fle; assumption | apply fle_refl, Hy].
Qed.

Lemma math_Max_spec (x y : float) :
  notNaN x -> notNaN y ->
  (math_Max x y = x \/ math_Max x y = y) /\
  fle x (math_Max x y) /\ fle y (math_Max x y).
Proof.
  intros Hx Hy. unfold math_Max.
  destruct (x =? infinity)%float eqn:E1.
  { apply eqb_infinity in E1. subst x. cbn [orb].
    split; [left; reflexivity |].
    split; [apply fle_refl, Hx | apply fle_infinity, Hy]. }
  destruct (y =? infinity)%float eqn:E2.
  { apply eqb_infinity in E2. subst y. cbn [orb].
    split; [right; reflexivity |].
    split; [apply fle_infinity, Hx | apply fle_refl, Hy]. }
  cbn [orb]. unfold notNaN in Hx, Hy. rewrite Hx, Hy. cbn [orb].
  destruct ((x =? 0)%float && (x =? y)%float) eqn:E3.
  { apply andb_prop in E3. destruct E3 as (_ & E3).
    destruct (eqb_fle _ _ E3) as (H1 & H2).
    destruct (get_sign x).
    - split; [right; reflexivity |]. split; [exact H1 | apply fle_refl, Hy].
    - split; [left; reflexivity |]. split; [apply fle_refl, Hx | exact H2]. }
  destruct (y <? x)%float eqn:E4.
  - split; [left; reflexivity |].
    split; [apply fle_refl, Hx | apply ltb_fle, E4].
  - split; [right; reflexivity |].
    split; [apply nltb_fle; assumption | apply fle_refl, Hy].
Qed.

(** The fold of [min] once the first point is in. *)
Lemma min_fold (it : list float) (r : float) :
  notNaN r -> allNotNaN it ->
  exists m,
    fold_left
      (fun '(result, gotOne) p =>
         if negb gotOne then (p, true) else (math_Min result p, gotOne))
      it (r, true) = (m, true) /\
    In m (r :: it) /\ Forall (fle m) (r :: it).
Proof.
  revert r. induction it as [| p it IH]; intros r Hr Hn.
  - exists r. split; [reflexivity |]. split; [left; reflexivity |].
    constructor; [apply fle_refl, Hr | constructor].
  - inversion Hn as [| ? ? Hp Hit]; subst. cbn [fold_left negb].
    destruct (math_Min_spec r p Hr Hp) as (Hin & Hl1 & Hl2).
    destruct (IH (math_Min r p)) as (m & Hm & Hmin & Hle).
    + destruct (fle_notNaN _ _ Hl1) as (H & _). exact H.
    + exact Hit.
    + exists m. split; [exact Hm |].
      inversion Hle as [| ? ? Hm0 Hrest]; subst. split.
      * destruct Hmin as [E | Hmin].
        -- rewrite <- E. destruct Hin as [-> | ->];
             [left; reflexivity | right; left; reflexivity].
        -- right; right; exact Hmin.
      * constructor; [eapply fle_trans; eassumption |].
        constructor; [eapply fle_trans; eassumption | exact Hrest].
Qed.

Lemma max_fold (it : list float) (r : float) :
  notNaN r -> allNotNaN it ->
  exists m,
    fold_left
      (fun '(result, gotOne) p =>
         if negb gotOne then (p, true) else (math_Max result p, gotOne))
      it (r, true) = (m, true) /\
    In m (r :: it) /\ Forall (fun x => fle x m) (r :: it).
Proof.
  revert r. induction it as [| p it IH]; intros r Hr Hn.
  - exists r. split; [reflexivity |]. split; [left; reflexivity |].
    constructor; [apply fle_refl, Hr | constructor].
  - inversion Hn as [| ? ? Hp Hit]; subst. cbn [fold_left negb].
    destruct (math_Max_spec r p Hr Hp) as (Hin & Hl1 & Hl2).
    destruct (IH (math_Max r p)) as (m & Hm & Hmax & Hle).
    + destruct (fle_notNaN _ _ Hl1) as (_ & H). exact H.
    + exact Hit.
    + exists m. split; [exact Hm |].
      inversion Hle as [| ? ? Hm0 Hrest]; subst. split.
      * destruct Hmax as [E | Hmax].
        -- rewrite <- E. destruct Hin as [-> | ->];
             [left; reflexivity | right; left; reflexivity].
        -- right; right; exact Hmax.
      * constructor; [eapply fle_trans; eassumption |].
        constructor; [eapply fle_trans; eassumption | exact Hrest].
Qed.

(** Over a window that holds at least one point and no NaN, [min]
    and [max] of [aggregate.go] each return one of the points, no point
    is below the first and none above the second. *)
Theorem min_and_max_bound_the_window (p : float) (it : list float) :
  allNotNaN (p :: it) ->
  In (min (p :: it)) (p :: it) /\
  In (max (p :: it)) (p :: it) /\
  Forall (fun x => fle (min (p :: it)) x /\ fle x (max (p :: it))) (p :: it).
Proof.
  intros Hn. inversion Hn as [| ? ? Hp Hit]; subst.
  destruct (min_fold it p Hp Hit) as (lo & Hlo & Hlo_in & Hlo_le).
  destruct (max_fold it p Hp Hit) as (hi & Hhi & Hhi_in & Hhi_le).
  assert (Emin : min (p :: it) = lo).
  { unfold min. cbn [fold_left negb]. rewrite Hlo. reflexivity. }
  assert (Emax : max (p :: it) = hi).
  { unfold max. cbn [fold_left negb]. rewrite Hhi. reflexivity. }
  rewrite Emin, Emax. split; [exact Hlo_in |]. split; [exact Hhi_in |].
  rewrite Forall_forall in *. intros x Hx. split; auto.
Qed.

Lemma min_and_max_bound_the_window_witness :
  In (min [3; 1; 2]%float) [3; 1; 2]%float /\
  In (max [3; 1; 2]%float) [3; 1; 2]%float /\
  Forall (fun x => fle (min [3; 1; 2]%float) x /\ fle x (max [3; 1; 2]%float))
    [3; 1; 2]%float.
Proof.
  apply (min_and_max_bound_the_window 3%float [1; 2]%float).
  repeat constructor.
Defined.

(** [bubbleSort] puts a slice without NaN in increasing order and
    keeps its elements, each as often as it occurred. *)
Theorem bubbleSort_sorts (s : list float) :
  allNotNaN s ->
  Permutation (Reduce.bubbleSort s) s /\
  StronglySorted fle (Reduce.bubbleSort s).
Proof.
  intros Hn. split; [apply bubbleSort_perm | apply bubbleSort_sorted, Hn].
Qed.

Lemma bubbleSort_sorts_witness :
  Permutation (Reduce.bubbleSort [3; 1; 2]%float) [3; 1; 2]%float /\
  StronglySorted fle (Reduce.bubbleSort [3; 1; 2]%float).
Proof.
  apply (bubbleSort_sorts [3; 1; 2]%float). repeat constructor.
Defined.

(** The exact percentiles do not depend on the order in which the
    window yields its points: two windows that hold the same points, none
    of them a NaN or a zero, get the same answer (or the same panic) from
    [percentileAggregator.Aggregate] and from [Percentile], for every
    percentile. *)
Theorem percentiles_ignore_the_order (p : float) (it it' : list float) :
  Permutation it it' -> allNotNaN it' ->
  Forall (fun x => (x =? 0)%float = false) it' ->
  Aggregate.Aggregate p it = Aggregate.Aggregate p it' /\
  Reduce.Percentile p it = Reduce.Percentile p it'.
Proof.
  intros HP Hn Hz.
  pose proof (sort_Float64s_unique _ _ HP Hn Hz) as Hsort.
  pose proof (Permutation_length HP) as HL.
  split.
  - unfold Aggregate.Aggregate. rewrite Hsort.
    replace (len it) with (len it') by (unfold len; rewrite HL; reflexivity).
    destruct (len it' <? 1) eqn:E1; [reflexivity |].
    destruct (len it' <? 2) eqn:E2; [| reflexivity].
    apply Z.ltb_ge in E1. apply Z.ltb_lt in E2. unfold len in E1, E2.
    destruct it' as [| x [| y t]]; cbn [length] in E1, E2; try lia.
    apply Permutation_sym, Permutation_length_1_inv in HP. rewrite HP.
    reflexivity.
  - unfold Reduce.Percentile. rewrite Hsort. reflexivity.
Qed.

Lemma percentiles_ignore_the_order_witness :
  Aggregate.Aggregate 50 [3; 1; 2]%float = Aggregate.Aggregate 50 [1; 2; 3]%float /\
  Reduce.Percentile 50 [3; 1; 2]%float = Reduce.Percentile 50 [1; 2; 3]%float.
Proof.
  apply (percentiles_ignore_the_order 50 [3; 1; 2]%float [1; 2; 3]%float).
  - apply (Permutation_cons_app [1; 2]%float [] 3%float). reflexivity.
  - repeat constructor.
  - repeat constructor.
Defined.

End ReducerFacts.

(** ** Feeding at the pace of the buckets *)

Module TimeWinPace.

Import TimeWin TimeWinFacts TimeWinRuns.

Lemma selectBucket_value (now : Z) (w : TimeWindow) :
  settled w -> 0 <= now < 2 ^ 63 ->
  selectBucket now w
  = Some (Z.quot now (bucketSizeNano w),
          Z.rem (Z.quot now (bucketSizeNano w)) (numberOfBuckets w)).
Proof.
  intros (Hb & HN & HN64 & _) Hnow.
  unfold selectBucket, div64, rem64. rewrite HN64.
  destruct (bucketSizeNano w =? 0) eqn:E1; [lia |]. cbn [bind].
  destruct (numberOfBuckets w =? 0) eqn:E2; [lia |]. cbn [bind].
  rewrite wrap64_small; [reflexivity |].
  split; [| apply Z.le_lt_trans with now; [| lia]].
  - assert (0 <= Z.quot now (bucketSizeNano w)) by (apply Z.quot_pos; lia). lia.
  - rewrite Z.quot_div_nonneg by lia.
    apply Z.div_le_upper_bound; [lia | nia].
Qed.

(** The bucket index of an instant stays where the last feed left it or
    moves on by one. *)
Definition in_step (now : Z) (w : TimeWindow) : Prop :=
  0 <= now < 2 ^ 63 /\
  (Z.quot now (bucketSizeNano w) = lastWindowTime w \/
   Z.quot now (bucketSizeNano w) = lastWindowTime w + 1).

Lemma keepConsistent_in_step (now : Z) (w : TimeWindow) :
  settled w -> in_step now w ->
  keepConsistent (Z.quot now (bucketSizeNano w))
    (Z.rem (Z.quot now (bucketSizeNano w)) (numberOfBuckets w)) w = Some w.
Proof.
  intros Hs (Hnow & [E | E]); rewrite E.
  - apply keepConsistent_same_bucket. destruct Hs as (_ & HN & HN64 & _). lia.
  - apply keepConsistent_next_bucket; [exact Hs | reflexivity].
Qed.

Lemma Iterate_in_step (now : Z) (w : TimeWindow) :
  settled w -> in_step now w -> Iterate now w = Some (concat (window w), w).
Proof.
  intros Hs Hstep. pose proof Hstep as (Hnow & _).
  unfold Iterate. rewrite (selectBucket_value now w Hs Hnow). cbn [bind].
  rewrite (keepConsistent_in_step now w Hs Hstep). reflexivity.
Qed.

Lemma Append_in_step (now : Z) (value : float) (w : TimeWindow) :
  settled w -> in_step now w ->
  exists w',
    Append now value w = Some w' /\ settled w' /\
    bucketSizeNano w' = bucketSizeNano w /\
    lastWindowTime w' = Z.quot now (bucketSizeNano w) /\
    Permutation (concat (window w')) (concat (window w) ++ [value]).
Proof.
  intros Hs Hstep. pose proof Hstep as (Hnow & _).
  destruct (Append_total now value w Hs Hnow) as (w' & HA).
  exists w'. split; [exact HA |].
  split; [exact (Append_settled _ _ _ _ Hs Hnow HA) |].
  destruct (Append_unfold _ _ _ _ _ _ (selectBucket_value now w Hs Hnow) HA)
    as (w1 & bucket & b & Hk & Hi & Hu & ->).
  rewrite (keepConsistent_in_step now w Hs Hstep) in Hk. injection Hk as <-.
  split; [reflexivity |]. split; [reflexivity |].
  destruct (update_split _ _ _ _ _ Hi Hu) as (l & r & El & -> & _).
  cbn [window set_last set_window]. rewrite El.
  rewrite !concat_app. cbn [concat]. rewrite <- !app_assoc.
  apply Permutation_app_head. apply Permutation_app_head.
  apply Permutation_app_comm.
Qed.

(** Every call of the run finds the clock in the bucket of the last feed
    or in the next one. *)
Fixpoint paced (bucketSize last : Z) (ts : list touch) : Prop :=
  match ts with
  | [] => True
  | t :: r =>
      0 <= instant t < 2 ^ 63 /\
      (Z.quot (instant t) bucketSize = last \/
       Z.quot (instant t) bucketSize = last + 1) /\
      paced bucketSize
        (match t with
         | feed now _ => Z.quot now bucketSize
         | read _ => last
         end) r
  end.

(** The values a run feeds, in order. *)
Fixpoint fed (ts : list touch) : list float :=
  match ts with
  | [] => []
  | feed _ value :: r => value :: fed r
  | read _ :: r => fed r
  end.

Lemma paced_run (ts : list touch) (now : Z) (w : TimeWindow) :
  settled w ->
  paced (bucketSizeNano w) (lastWindowTime w) (ts ++ [read now]) ->
  exists w',
    run ts w = Some w' /\ settled w' /\ in_step now w' /\
    Permutation (concat (window w')) (concat (window w) ++ fed ts).
Proof.
  unfold run. revert w. induction ts as [| t ts IH]; intros w Hs Hp.
  - exists w. split; [reflexivity |]. split; [exact Hs |].
    cbn [app paced instant] in Hp. destruct Hp as (Hnow & Hq & _).
    split; [split; assumption |].
    cbn [fed]. rewrite app_nil_r. reflexivity.
  - cbn [app paced] in Hp. destruct Hp as (Hnow & Hq & Hrest).
    cbn [fold_left]. cbn [bind].
    destruct t as [t v | t]; cbn [instant] in *; cbn [step].
    + destruct (Append_in_step t v w Hs (conj Hnow Hq))
        as (w1 & -> & Hs1 & Eb & ET & HP1).
      destruct (IH w1 Hs1) as (w' & Hrun & Hs' & Hstep & HP').
      { rewrite Eb, ET. exact Hrest. }
      exists w'. split; [exact Hrun |]. split; [exact Hs' |].
      split; [exact Hstep |].
      cbn [fed]. rewrite HP', HP1, <- app_assoc. reflexivity.
    + rewrite (Iterate_in_step t w Hs (conj Hnow Hq)). cbn [option_map snd].
      destruct (IH w Hs Hrest) as (w' & Hrun & Hs' & Hstep & HP').
      exists w'. auto.
Qed.

(** As long as every call finds the clock in the bucket of the last feed or
    in the next one, nothing is ever dropped, whatever the number of
    buckets: a read at the end visits all that the window held at the
    start and every value fed since. *)
Theorem steady_feeding_drops_nothing (ts : list touch) (now : Z) (w : TimeWindow) :
  settled w ->
  paced (bucketSizeNano w) (lastWindowTime w) (ts ++ [read now]) ->
  exists w' pts,
    run ts w = Some w' /\
    Iterate now w' = Some (pts, w') /\
    Permutation pts (concat (window w) ++ fed ts).
Proof.
  intros Hs Hp.
  destruct (paced_run ts now w Hs Hp) as (w' & Hrun & Hs' & Hstep & HP).
  exists w', (concat (window w')).
  split; [exact Hrun |]. split; [apply Iterate_in_step; assumption | exact HP].
Qed.

Lemma steady_feeding_drops_nothing_witness :
  exists w' pts,
    run [feed 1 1%float; feed 2 2%float; feed 3 3%float; feed 4 4%float;
         feed 5 5%float] (mkTimeWindow 1 3 3 [[]; []; []] 0 0) = Some w' /\
    Iterate 5 w' = Some (pts, w') /\
    Permutation pts
      (concat (window (mkTimeWindow 1 3 3 [[]; []; []] 0 0))
       ++ fed [feed 1 1%float; feed 2 2%float; feed 3 3%float; feed 4 4%float;
               feed 5 5%float]).
Proof.
  apply (steady_feeding_drops_nothing
           [feed 1 1%float; feed 2 2%float; feed 3 3%float; feed 4 4%float;
            feed 5 5%float] 5 (mkTimeWindow 1 3 3 [[]; []; []] 0 0)).
  - unfold settled. vm_compute. repeat split; congruence.
  - vm_compute. repeat split; try congruence; auto.
Defined.

End TimeWinPace.

(** ** How long a value is kept *)

Module TimeWinRetention.

Import TimeWin TimeWinFacts TimeWinRuns TimeWinPace.

(** The repair on a touch less than a ring after the last feed keeps the
    bucket of every slot that no missed bucket index falls on. *)
Lemma repair_keeps (a i : Z) (b : list float) (w : TimeWindow) :
  settled w ->
  lastWindowTime w <= a < lastWindowTime w + numberOfBuckets w ->
  index (window w) i = Some b ->
  (forall t, lastWindowTime w < t < a -> Z.rem t (numberOfBuckets w) <> i) ->
  exists w',
    keepConsistent a (Z.rem a (numberOfBuckets w)) w = Some w' /\
    index (window w') i = Some b /\
    settled w' /\ same_shape w w' /\ same_marks w w'.
Proof.
  intros Hst Hgap Hb Hnone.
  pose proof Hst as (_ & HN & HN64 & Hlen & HT & Hoff).
  destruct (Z.eq_dec a (lastWindowTime w)) as [-> | Hne].
  { exists w. split; [apply keepConsistent_same_bucket; lia |].
    split; [exact Hb |]. split; [exact Hst |]. repeat split. }
  assert (Ho : 0 <= Z.rem a (numberOfBuckets w) < numberOfBuckets w).
  { rewrite Z.rem_mod_nonneg by lia. apply Z.mod_pos_bound. lia. }
  pose proof (settled_offset w Hst) as Hl.
  destruct (resetBuckets_spec _ w Hst Ho) as (w' & Hw' & Hspec).
  assert (Hk : keepConsistent a (Z.rem a (numberOfBuckets w)) w = Some w').
  { unfold keepConsistent. rewrite HN64. unfold sub64.
    rewrite wrap64_small by lia.
    destruct (a - lastWindowTime w >? numberOfBuckets w) eqn:E1; [lia |].
    rewrite HN64, wrap64_small by lia.
    destruct (a =? lastWindowTime w) eqn:E2; [lia |].
    destruct (a - lastWindowTime w <? numberOfBuckets w) eqn:E3; [| lia].
    exact Hw'. }
  exists w'. split; [exact Hk |].
  pose proof (keepConsistent_frame _ _ _ _ Hk) as (Hshape & Hmarks).
  split; [| split; [eapply settled_frame; eassumption | split; assumption]].
  assert (Hd : ring_distance w (Z.rem a (numberOfBuckets w)) = a - lastWindowTime w).
  { destruct (ring_distance_bound w (Z.rem a (numberOfBuckets w))) as (_ & ->);
      try lia.
    rewrite Hoff, !Z.rem_mod_nonneg by lia.
    rewrite <- Zminus_mod. apply Z.mod_small. lia. }
  rewrite (Hspec i b Hb), Hd.
  destruct (swept_offset w (counters (a - lastWindowTime w)) i) eqn:E;
    [| reflexivity].
  exfalso. unfold swept_offset in E. apply existsb_exists in E.
  destruct E as (c & Hc & Hi). unfold counters in Hc.
  apply in_map_iff in Hc. destruct Hc as (k & <- & Hk'). apply in_seq in Hk'.
  apply Z.eqb_eq in Hi.
  apply (Hnone (lastWindowTime w + Z.of_nat k)); [lia |].
  rewrite <- Hi. unfold add64. rewrite wrap64_small by lia.
  rewrite !Z.rem_mod_nonneg by lia.
  rewrite Hoff, Z.rem_mod_nonneg by lia.
  rewrite Zplus_mod_idemp_r. f_equal. lia.
Qed.

(** No bucket index strictly inside a span shorter than the ring falls on
    the slot of the index the span starts from. *)
Lemma slot_is_free (T L a N t : Z) :
  0 < N -> 0 <= T <= L -> a < T + N -> L < t < a -> Z.rem t N <> Z.rem T N.
Proof.
  intros HN HT Ha Ht E. rewrite !Z.rem_mod_nonneg in E by lia.
  assert (H : (t - T) mod N = 0).
  { rewrite Zminus_mod, E, Z.sub_diag. apply Z.mod_0_l. lia. }
  rewrite Z.mod_small in H by lia. lia.
Qed.

Lemma In_bucket (l : list (list float)) (i : Z) (b : list float) (x : float) :
  index l i = Some b -> In x b -> In x (concat l).
Proof.
  unfold index. destruct (i <? 0); [discriminate |].
  intros Hb Hx. apply in_concat. exists b. split; [| exact Hx].
  eapply nth_error_In, Hb.
Qed.

(** The window still holds [value] in the slot of the bucket index [T],
    and was last fed at [T] or later. *)
Definition keeps (T : Z) (value : float) (w : TimeWindow) : Prop :=
  settled w /\ 0 <= T <= lastWindowTime w /\
  exists b, index (window w) (Z.rem T (numberOfBuckets w)) = Some b /\ In value b.

(** The instants of the calls never go back, from [from] to [upto]. *)
Fixpoint climbing (from : Z) (ts : list touch) (upto : Z) : Prop :=
  match ts with
  | [] => from <= upto
  | t :: r => from <= instant t /\ climbing (instant t) r upto
  end.

Lemma climbing_le (from : Z) (ts : list touch) (upto : Z) :
  climbing from ts upto -> from <= upto.
Proof.
  revert from. induction ts as [| t r IH]; intros from H; [exact H |].
  destruct H as (H1 & H2). apply IH in H2. lia.
Qed.

Lemma quot_bounds (bs x y : Z) :
  0 < bs -> 0 <= x <= y -> 0 <= Z.quot x bs <= Z.quot y bs.
Proof.
  intros Hb Hxy. split; [apply Z.quot_pos; lia | apply Z.quot_le_mono; lia].
Qed.

Lemma Append_keeps_new (now : Z) (value : float) (w : TimeWindow) :
  settled w -> 0 <= now < 2 ^ 63 ->
  exists wa,
    Append now value w = Some wa /\
    keeps (Z.quot now (bucketSizeNano w)) value wa /\
    same_shape w wa.
Proof.
  intros Hs Hnow. pose proof Hs as (Hb & HN & HN64 & Hlen & HT & Hoff).
  destruct (Append_total now value w Hs Hnow) as (wa & HA).
  exists wa. split; [exact HA |].
  pose proof (Append_settled _ _ _ _ Hs Hnow HA) as Hsa.
  destruct (Append_unfold _ _ _ _ _ _ (selectBucket_value now w Hs Hnow) HA)
    as (w1 & bucket & b & Hk & Hi & Hu & ->).
  destruct (keepConsistent_frame _ _ _ _ Hk) as ((E1 & E2 & E3 & E4) & _).
  destruct (update_spec _ _ _ _ Hu) as (Hat & _).
  split.
  - split; [exact Hsa |]. cbn [lastWindowTime set_last set_window numberOfBuckets window].
    split; [destruct (quot_bounds (bucketSizeNano w) 0 now) as (_ & H); try lia;
            rewrite Z.quot_0_l in H by lia; lia |].
    exists (bucket ++ [value]). rewrite E2. split; [exact Hat |].
    apply in_or_app. right. left. reflexivity.
  - pose proof (update_length _ _ _ _ Hu) as Hl.
    unfold same_shape. cbn [bucketSizeNano numberOfBuckets numberOfBuckets64 window set_last set_window].
    repeat split; congruence.
Qed.

Lemma touch_keeps (T : Z) (value : float) (t : touch) (w : TimeWindow) :
  keeps T value w ->
  0 <= instant t < 2 ^ 63 ->
  lastWindowTime w <= Z.quot (instant t) (bucketSizeNano w) < T + numberOfBuckets w ->
  exists w', step w t = Some w' /\ keeps T value w' /\ same_shape w w' /\
             lastWindowTime w' <= Z.quot (instant t) (bucketSizeNano w).
Proof.
  intros (Hs & HT & b & Hb & Hin) Hnow Ha.
  pose proof Hs as (Hbs & HN & HN64 & Hlen & HL & Hoff).
  set (a := Z.quot (instant t) (bucketSizeNano w)) in *.
  destruct (repair_keeps a (Z.rem T (numberOfBuckets w)) b w Hs) as
    (w1 & Hk & Hb1 & Hs1 & Hshape & Hmarks); [lia | exact Hb | |].
  { intros t' Ht'. apply (slot_is_free T (lastWindowTime w) a); lia. }
  destruct Hshape as (E1 & E2 & E3 & E4). destruct Hmarks as (E5 & E6).
  destruct t as [now v | now]; cbn [instant] in *; cbn [step].
  - destruct (Append_total now v w Hs Hnow) as (wa & HA).
    exists wa. split; [exact HA |].
    pose proof (Append_settled _ _ _ _ Hs Hnow HA) as Hsa.
    destruct (Append_unfold _ _ _ _ _ _ (selectBucket_value now w Hs Hnow) HA)
      as (w1' & bucket & b2 & Hk' & Hi & Hu & ->).
    fold a in Hk', Hi, Hu. rewrite Hk in Hk'. injection Hk' as <-.
    destruct (update_spec _ _ _ _ Hu) as (Hat & Hother).
    pose proof (update_length _ _ _ _ Hu) as Hl.
    split; [| split].
    + split; [exact Hsa |].
      cbn [lastWindowTime set_last set_window numberOfBuckets window].
      split; [lia |]. rewrite E2.
      destruct (Z.eq_dec (Z.rem T (numberOfBuckets w)) (Z.rem a (numberOfBuckets w)))
        as [E | N].
      * exists (bucket ++ [v]). rewrite E. split; [exact Hat |].
        rewrite E, Hi in Hb1. injection Hb1 as ->.
        apply in_or_app. left. exact Hin.
      * exists b. split; [| exact Hin]. rewrite Hother by exact N. exact Hb1.
    + unfold same_shape.
      cbn [bucketSizeNano numberOfBuckets numberOfBuckets64 window set_last set_window].
      repeat split; congruence.
    + cbn [lastWindowTime set_last]. lia.
  - unfold Iterate. rewrite (selectBucket_value now w Hs Hnow). cbn [bind].
    fold a. rewrite Hk. cbn [bind option_map snd].
    exists w1. split; [reflexivity |]. split; [| split].
    + split; [exact Hs1 |]. split; [lia |]. exists b. rewrite E2. auto.
    + repeat split; assumption.
    + lia.
Qed.

Lemma run_keeps (T : Z) (value : float) (ts : list touch) (from upto : Z)
  (w : TimeWindow) :
  keeps T value w -> 0 <= from -> upto < 2 ^ 63 ->
  lastWindowTime w <= Z.quot from (bucketSizeNano w) ->
  climbing from ts upto ->
  Z.quot upto (bucketSizeNano w) < T + numberOfBuckets w ->
  exists w',
    run ts w = Some w' /\ keeps T value w' /\ same_shape w w' /\
    lastWindowTime w' <= Z.quot upto (bucketSizeNano w).
Proof.
  unfold run. revert from w. induction ts as [| t r IH];
    intros from w Hk Hfrom Hupto HL Hc Hend.
  - exists w. split; [reflexivity |]. split; [exact Hk |].
    split; [repeat split |].
    cbn [climbing] in Hc. destruct Hk as ((Hbs & _) & _).
    destruct (quot_bounds (bucketSizeNano w) from upto); lia.
  - destruct Hc as (Ht & Hc). pose proof (climbing_le _ _ _ Hc) as Hle.
    pose proof Hk as ((Hbs & _) & _).
    destruct (quot_bounds (bucketSizeNano w) from (instant t)) as (? & ?); try lia.
    destruct (quot_bounds (bucketSizeNano w) (instant t) upto) as (? & ?); try lia.
    destruct (touch_keeps T value t w Hk) as (w1 & Hstep & Hk1 & Hsh & HL1);
      [lia | lia |].
    cbn [fold_left]. cbn [bind]. rewrite Hstep.
    pose proof Hsh as (E1 & E2 & E3 & E4).
    destruct (IH (instant t) w1) as (w' & Hrun & Hk' & Hsh' & HL');
      try rewrite E1; try rewrite E2; try assumption; try lia.
    exists w'. split; [exact Hrun |]. split; [exact Hk' |].
    rewrite E1 in HL'. split; [| exact HL'].
    destruct Hsh' as (F1 & F2 & F3 & F4). repeat split; congruence.
Qed.

(** A fed value stays in the window as long as the clock has not moved a
    whole ring of buckets past the bucket it was fed in: whatever is fed or
    read in between, at instants that never go back, a read less than
    [numberOfBuckets] bucket indices later still visits it. *)
Theorem young_samples_are_kept
    (now now' : Z) (value : float) (ts : list touch) (w : TimeWindow) :
  settled w -> 0 <= now -> now' < 2 ^ 63 ->
  climbing now ts now' ->
  Z.quot now' (bucketSizeNano w) - Z.quot now (bucketSizeNano w)
  < numberOfBuckets w ->
  exists wa w' pts w'',
    Append now value w = Some wa /\
    run ts wa = Some w' /\
    Iterate now' w' = Some (pts, w'') /\
    In value pts.
Proof.
  intros Hs Hnow Hnow' Hc Hyoung.
  pose proof (climbing_le _ _ _ Hc) as Hle.
  pose proof Hs as (Hbs & _).
  destruct (Append_keeps_new now value w Hs) as (wa & HA & Hk & Hsh); [lia |].
  pose proof Hsh as (E1 & E2 & _).
  set (T := Z.quot now (bucketSizeNano w)) in *.
  assert (HLa : lastWindowTime wa <= Z.quot now (bucketSizeNano wa)).
  { rewrite E1. fold T.
    destruct (Append_unfold _ _ _ _ _ _ (selectBucket_value now w Hs ltac:(lia)) HA)
      as (w1 & bucket & b & _ & _ & _ & ->). cbn [lastWindowTime set_last]. subst T. lia. }
  destruct (run_keeps T value ts now now' wa Hk Hnow Hnow' HLa Hc)
    as (w' & Hrun & Hk' & Hsh' & HL'); [rewrite E1, E2; lia |].
  destruct Hsh' as (F1 & F2 & _). rewrite E1 in HL'.
  destruct (touch_keeps T value (read now') w' Hk') as (w'' & Hstep & Hk'' & _);
    [cbn [instant]; lia | cbn [instant]; rewrite F1, F2, E1, E2; lia |].
  cbn [step] in Hstep.
  destruct (Iterate now' w') as [[pts w3] |] eqn:EI; [| discriminate].
  cbn [option_map snd] in Hstep. injection Hstep as ->.
  exists wa, w', pts, w''. split; [exact HA |]. split; [exact Hrun |].
  split; [exact EI |].
  destruct Hk' as (Hs' & _).
  destruct (Iterate_unfold _ _ _ _ _ _
              (selectBucket_value now' w' Hs' ltac:(lia)) EI) as (_ & ->).
  destruct Hk'' as (_ & _ & b & Hb & Hin).
  eapply In_bucket; eassumption.
Qed.

Lemma young_samples_are_kept_witness :
  exists wa w' pts w'',
    Append 11 7%float (mkTimeWindow 2 3 3 [[]; []; []] 0 0) = Some wa /\
    run [feed 12 1%float; read 13; feed 14 2%float] wa = Some w' /\
    Iterate 15 w' = Some (pts, w'') /\
    In 7%float pts.
Proof.
  apply (young_samples_are_kept 11 15 7%float
           [feed 12 1%float; read 13; feed 14 2%float]
           (mkTimeWindow 2 3 3 [[]; []; []] 0 0)).
  - unfold settled. vm_compute. repeat split; congruence.
  - discriminate.
  - reflexivity.
  - vm_compute. repeat split; discriminate.
  - reflexivity.
Defined.

End TimeWinRetention.

(** ** Windows that cannot be used *)

Module Panics.

Import TimeWin.

(** A time window without extent, that is with a bucket duration of zero or
    with no bucket at all, cannot be used: if the constructor does not panic
    on the number of slots, the first [Append] ([Feed]) or [Iterate] panics
    on the division that selects the bucket. The constructor of [time.go]
    allots one slot more than it is asked for, so it is asked for one less
    here. *)
Theorem time_windows_without_extent_panic
    (bucketSize n hint now : Z) (value : float) :
  - 2 ^ 63 < n < 2 ^ 63 -> bucketSize = 0 \/ n <= 0 ->
  (w <- NewTimeWindow3 bucketSize n hint ;; Append now value w) = None /\
  (w <- NewTimeWindow3 bucketSize n hint ;; Iterate now w) = None /\
  (w <- NewTimeWindow bucketSize (n - 1) ;; Append now value w) = None /\
  (w <- NewTimeWindow bucketSize (n - 1) ;; Iterate now w) = None.
Proof.
  intros Hn Hz.
  assert (Hsel : forall w, TimeWinFacts.constructed_as bucketSize n w ->
            Append now value w = None /\ Iterate now w = None).
  { intros w (-> & H0).
    unfold Append, Iterate, selectBucket, div64, rem64.
    cbn [bucketSizeNano numberOfBuckets64].
    destruct (bucketSize =? 0) eqn:Eb; [split; reflexivity |].
    cbn [bind].
    destruct (n =? 0) eqn:En; [split; reflexivity |].
    apply Z.eqb_neq in Eb, En. lia. }
  assert (H3 : forall w, NewTimeWindow3 bucketSize n hint = Some w ->
            TimeWinFacts.constructed_as bucketSize n w).
  { intros w E. unfold NewTimeWindow3 in E.
    apply TimeWinFacts.constructed in E. destruct E as (-> & H0 & _).
    split; [reflexivity | exact H0]. }
  assert (H2 : forall w, NewTimeWindow bucketSize (n - 1) = Some w ->
            TimeWinFacts.constructed_as bucketSize n w).
  { intros w E. unfold NewTimeWindow, add64 in E.
    replace (n - 1 + 1) with n in E by lia.
    rewrite TimeWinFacts.wrap64_small in E by lia.
    apply TimeWinFacts.constructed in E. destruct E as (-> & H0 & _).
    split; [reflexivity | exact H0]. }
  destruct (NewTimeWindow3 bucketSize n hint) as [w3 |];
    destruct (NewTimeWindow bucketSize (n - 1)) as [w2 |]; cbn [bind];
    repeat split;
    try reflexivity;
    try (apply (Hsel w3), H3; reflexivity);
    try (apply (Hsel w2), H2; reflexivity).
Qed.

Lemma time_windows_without_extent_panic_witness :
  (w <- NewTimeWindow3 0 10 100 ;; Append 1700000000000000000 1%float w) = None /\
  (w <- NewTimeWindow3 0 10 100 ;;
   Iterate 1700000000000000000 w) = None /\
  (w <- NewTimeWindow 0 (10 - 1) ;; Append 1700000000000000000 1%float w) = None /\
  (w <- NewTimeWindow 0 (10 - 1) ;;
   Iterate 1700000000000000000 w) = None.
Proof.
  apply (time_windows_without_extent_panic 0 10 100 1700000000000000000 1%float).
  - split; reflexivity.
  - left. reflexivity.
Defined.

(** A point window of size zero or less takes no value: the constructor
    panics on a negative size, and on a window of size zero the first
    [Append] indexes an empty slice and the first [Feed] divides by zero. *)
Theorem point_windows_without_size_panic (n : Z) (value : float) :
  n <= 0 ->
  (w <- PointWin.NewPointWindow n ;; PointWin.Append value w) = None /\
  (w <- PointWin.NewPointWindow' n ;; PointWin.Feed value w) = None.
Proof.
  intros Hn. unfold PointWin.NewPointWindow, PointWin.NewPointWindow'.
  destruct (makeslice 8 n n) eqn:E8; destruct (makeslice 24 n n) eqn:E24;
    try apply TimeWinFacts.makeslice_true in E8;
    try apply TimeWinFacts.makeslice_true in E24;
    try (assert (n = 0) by lia; subst n);
    split; reflexivity.
Qed.

Lemma point_windows_without_size_panic_witness :
  (w <- PointWin.NewPointWindow 0 ;; PointWin.Append 1%float w) = None /\
  (w <- PointWin.NewPointWindow' 0 ;; PointWin.Feed 1%float w) = None.
Proof.
  apply (point_windows_without_size_panic 0 1%float). discriminate.
Defined.

(** Over an empty window [Percentile] and [FastPercentile] panic for every
    percentile: the first reads the sorted values at an index of an empty
    slice, the second the last of no primed value. *)
Theorem estimators_panic_on_an_empty_window (p : float) :
  Reduce.Percentile p [] = None /\ Reduce.FastPercentile p [] = None.
Proof.
  split; [| reflexivity].
  unfold Reduce.Percentile. cbn [sort_Float64s fold_right].
  destruct (_ =? 0)%float.
  - unfold index. destruct (_ <? 0); [reflexivity |].
    destruct (Z.to_nat _); reflexivity.
  - unfold index at 1. destruct (_ <? 0); [reflexivity |].
    destruct (Z.to_nat _); reflexivity.
Qed.

End Panics.

(** ** The markers of the streaming estimator *)

Module PSquareFacts.

Import Reduce FloatOrder BubbleSortFacts PercentileFacts.

#[local] Arguments wrap64 : simpl never.
#[local] Arguments add64 : simpl never.
#[local] Arguments sub64 : simpl never.
#[local] Arguments float64_of_int : simpl never.
#[local] Arguments int_of_float64 : simpl never.
#[local] Arguments sign : simpl never.

(** [sign] on the two sides of the test that guards a marker move. *)
Lemma sign_up (d : float) : (1 <=? d)%float = true -> sign d = 1%float.
Proof.
  intros H. unfold sign. destruct (d <? 0)%float eqn:E; [| reflexivity].
  apply ltb_fle in E. assert (Hc : fle 1 0) by (eapply fle_trans; eassumption).
  discriminate Hc.
Qed.

Lemma sign_down (d : float) : (d <=? -1)%float = true -> sign d = (-1)%float.
Proof.
  intros H. unfold sign. destruct (d <? 0)%float eqn:E; [reflexivity |].
  destruct (fle_notNaN _ _ H) as (Hd & _).
  assert (H0 : fle 0 d) by (apply nltb_fle; [reflexivity | exact Hd | exact E]).
  assert (Hc : fle 0 (-1)) by (eapply fle_trans; eassumption).
  discriminate Hc.
Qed.

(** Closes a case of [adjust]: the markers written out, their order by
    arithmetic. *)
Ltac settle_ranks :=
  unfold set_n, set_q, put; simpl;
  do 6 eexists; (split; [reflexivity |]);
  unfold add64, sub64 in *;
  rewrite ?TimeWinFacts.wrap64_small in * by lia;
  repeat match goal with
         | H : (_ >? _) = true |- _ => apply Z.gtb_lt in H
         | H : (_ <? _) = true |- _ => apply Z.ltb_lt in H
         end;
  lia.

(** One turn of the adjusting loop moves a middle marker by one position
    at most, and only into a gap. *)
Lemma adjust_explicit (io : list float) (q0 q1 q2 q3 q4 : float) (n1 n2 n3 c : Z)
  (np dnp : list float) (obs x : Z) :
  In x [1; 2; 3] -> 0 < n1 < n2 -> n2 < n3 < c -> c <= 2 ^ 62 ->
  exists q1' q2' q3' n1' n2' n3',
    adjust (mkPSquare io [q0; q1; q2; q3; q4] [0; n1; n2; n3; c] np dnp obs) x
    = mkPSquare io [q0; q1'; q2'; q3'; q4] [0; n1'; n2'; n3'; c] np dnp obs /\
    0 < n1' < n2' /\ n2' < n3' < c.
Proof.
  intros Hx H1 H2 Hc.
  destruct Hx as [<- | [<- | [<- | []]]];
    unfold adjust, nAt, qAt, at_; simpl;
    set (d := (_ - _)%float);
    match goal with
    | |- context [((1 <=? d)%float && ?g) || ((d <=? -1)%float && ?h)] =>
        destruct ((1 <=? d)%float && g) eqn:Eup;
        [ cbn [orb]; apply andb_prop in Eup; destruct Eup as (Ed & Eg);
          rewrite (sign_up d Ed); change (int_of_float64 1) with 1; simpl
        | cbn [orb];
          destruct ((d <=? -1)%float && h) eqn:Edown;
          [ apply andb_prop in Edown; destruct Edown as (Ed & Eg);
            rewrite (sign_down d Ed); change (int_of_float64 (-1)) with (-1);
            simpl
          | ] ]
    end;
    try match goal with
        | |- context [if ?b then set_q _ _ _ else _] => destruct b
        end;
    settle_ranks.
Qed.

Lemma adjust_thrice (io : list float) (q0 q1 q2 q3 q4 : float) (n1 n2 n3 c : Z)
  (np dnp : list float) (obs : Z) :
  0 < n1 < n2 -> n2 < n3 < c -> c <= 2 ^ 62 ->
  exists q1' q2' q3' n1' n2' n3',
    adjust (adjust (adjust
      (mkPSquare io [q0; q1; q2; q3; q4] [0; n1; n2; n3; c] np dnp obs) 1) 2) 3
    = mkPSquare io [q0; q1'; q2'; q3'; q4] [0; n1'; n2'; n3'; c] np dnp obs /\
    0 < n1' < n2' /\ n2' < n3' < c.
Proof.
  intros H1 H2 Hc.
  destruct (adjust_explicit io q0 q1 q2 q3 q4 n1 n2 n3 c np dnp obs 1)
    as (a1 & a2 & a3 & m1 & m2 & m3 & -> & Ha & Hb); auto; [simpl; auto |].
  destruct (adjust_explicit io q0 a1 a2 a3 q4 m1 m2 m3 c np dnp obs 2)
    as (b1 & b2 & b3 & k1 & k2 & k3 & -> & Hc1 & Hc2); auto; [simpl; auto |].
  destruct (adjust_explicit io q0 b1 b2 b3 q4 k1 k2 k3 c np dnp obs 3)
    as (c1 & c2 & c3 & l1 & l2 & l3 & -> & Hd1 & Hd2); auto; [simpl; auto |].
  exists c1, c2, c3, l1, l2, l3. auto.
Qed.

(** One steady-state update: the last position grows by one, the order
    of the positions is kept, and the lowest marker follows the minimum. *)
Lemma steady_explicit (io : list float) (q0 q1 q2 q3 q4 : float) (n1 n2 n3 c : Z)
  (np dnp : list float) (obs : Z) (v : float) :
  0 < n1 < n2 -> n2 < n3 < c -> c < 2 ^ 62 ->
  exists q1' q2' q3' q4' n1' n2' n3' np',
    steady (mkPSquare io [q0; q1; q2; q3; q4] [0; n1; n2; n3; c] np dnp obs) v
    = mkPSquare io [if (v <? q0)%float then v else q0; q1'; q2'; q3'; q4']
        [0; n1'; n2'; n3'; c + 1] np' dnp obs /\
    0 < n1' < n2' /\ n2' < n3' < c + 1.
Proof.
  intros H1 H2 Hc. unfold steady, findCell, qAt, at_. simpl.
  destruct (v <? q0)%float eqn:E0.
  2: repeat match goal with
       | |- context [if ?b then (_, _) else _] => destruct b
       end.
  all: unfold set_q, set_n, nAt, at_, put; simpl.
  all: unfold add64; rewrite ?TimeWinFacts.wrap64_small by lia.
  all: match goal with
       | |- context [adjust (adjust (adjust
                       (mkPSquare ?io [?a0; ?a1; ?a2; ?a3; ?a4]
                          [0; ?m1; ?m2; ?m3; ?m4] ?np ?dnp ?obs) 1) 2) 3] =>
           destruct (adjust_thrice io a0 a1 a2 a3 a4 m1 m2 m3 m4 np dnp obs)
             as (b1 & b2 & b3 & k1 & k2 & k3 & E & Ha & Hb); [lia | lia | lia |];
           rewrite E; exists b1, b2, b3, a4, k1, k2, k3, np;
           split; [reflexivity | lia]
       end.
Qed.


Lemma observe_steady (p : float) (st : PSquare) (v : float) :
  6 <= observations st < 2 ^ 62 ->
  observe p st v
  = steady (mkPSquare (initalObservations st) (q st) (n st) (nPrime st)
              (dnPrime st) (observations st + 1)) v.
Proof.
  intros H. unfold observe. cbn [observations].
  rewrite Z.mod_small by lia.
  destruct (observations st + 1 <? 6) eqn:E1; [apply Z.ltb_lt in E1; lia |].
  destruct (observations st + 1 =? 6) eqn:E2; [apply Z.eqb_eq in E2; lia |].
  reflexivity.
Qed.

Lemma lowest_step (seen : list float) (q0 v : float) :
  (allNotNaN seen -> In q0 seen /\ Forall (fle q0) seen) ->
  allNotNaN (seen ++ [v]) ->
  In (if (v <? q0)%float then v else q0) (seen ++ [v]) /\
  Forall (fle (if (v <? q0)%float then v else q0)) (seen ++ [v]).
Proof.
  intros IH Hn. unfold allNotNaN in *. apply Forall_app in Hn.
  destruct Hn as (Hs & Hv). inversion Hv as [| ? ? Hv' _]; subst.
  destruct (IH Hs) as (Hin & Hle).
  assert (Hq : notNaN q0) by (rewrite Forall_forall in Hs; auto).
  destruct (v <? q0)%float eqn:E.
  - split; [apply in_or_app; right; left; reflexivity |].
    apply Forall_app. split.
    + apply ltb_fle in E. rewrite Forall_forall in *. intros x Hx.
      eapply fle_trans; [exact E | auto].
    + constructor; [apply fle_refl, Hv' | constructor].
  - split; [apply in_or_app; left; exact Hin |].
    apply Forall_app. split; [exact Hle |].
    constructor; [apply nltb_fle; assumption | constructor].
Qed.

(** The estimator once its markers are set up, after the points [seen]. *)
Definition tracked (seen : list float) (st : PSquare) : Prop :=
  exists io q0 q1 q2 q3 q4 n1 n2 n3 np dnp,
    st = mkPSquare io [q0; q1; q2; q3; q4] [0; n1; n2; n3; len seen - 1]
           np dnp (len seen) /\
    0 < n1 < n2 /\ n2 < n3 < len seen - 1 /\
    (allNotNaN seen -> In q0 seen /\ Forall (fle q0) seen).

Lemma tracked_sixth (p a b c d e v : float) :
  tracked [a; b; c; d; e; v] (fold_left (observe p) [a; b; c; d; e; v] initial).
Proof.
  rewrite observe_sixth.
  pose proof (bubbleSort_perm [a; b; c; d; e]) as HP.
  pose proof (Permutation_length HP) as HL.
  destruct (bubbleSort [a; b; c; d; e])
    as [| s0 [| s1 [| s2 [| s3 [| s4 [| s5 t]]]]]] eqn:Es; try discriminate HL.
  rewrite (initMarkers_sorted p (sixth a b c d e) s0 s1 s2 s3 s4 Es)
    by reflexivity.
  cbn [observations sixth].
  edestruct (steady_explicit [s0; s1; s2; s3; s4] s0 s1 s2 s3 s4 1 2 3 4)
    as (q1' & q2' & q3' & q4' & n1' & n2' & n3' & np' & E & Ha & Hb);
    [| | | rewrite E]; try lia.
  unfold tracked.
  exists [s0; s1; s2; s3; s4], (if (v <? s0)%float then v else s0),
    q1', q2', q3', q4', n1', n2', n3', np'.
  eexists. split; [reflexivity |].
  change (len [a; b; c; d; e; v] - 1) with (4 + 1).
  split; [exact Ha |]. split; [exact Hb |].
  intros Hn.
  apply (lowest_step [a; b; c; d; e] s0 v); [| exact Hn].
  intros Hn5.
  pose proof (bubbleSort_sorted [a; b; c; d; e] Hn5) as HS.
  rewrite Es in HS. inversion HS as [| ? ? _ Hle]; subst.
  assert (H0 : In s0 [a; b; c; d; e]).
  { apply (Permutation_in s0 HP). left. reflexivity. }
  split; [exact H0 |].
  assert (Hs0 : notNaN s0).
  { unfold allNotNaN in Hn5. rewrite Forall_forall in Hn5. auto. }
  rewrite Forall_forall in *. intros x Hx.
  apply (Permutation_in x (Permutation_sym HP)) in Hx.
  destruct Hx as [<- | Hx]; [apply fle_refl, Hs0 | auto].
Qed.

Lemma tracked_step (p : float) (seen : list float) (st : PSquare) (v : float) :
  (6 <= length seen)%nat -> len seen < 2 ^ 62 - 1 ->
  tracked seen st -> tracked (seen ++ [v]) (observe p st v).
Proof.
  intros H6 Hlen
    (io & q0 & q1 & q2 & q3 & q4 & n1 & n2 & n3 & np & dnp & -> & Ha & Hb & Hlow).
  assert (El : len (seen ++ [v]) = len seen + 1).
  { unfold len. rewrite length_app. cbn [length]. lia. }
  rewrite observe_steady by (cbn [observations]; unfold len in *; lia).
  cbn [initalObservations q n nPrime dnPrime observations].
  destruct (steady_explicit io q0 q1 q2 q3 q4 n1 n2 n3 (len seen - 1) np dnp
              (len seen + 1) v)
    as (q1' & q2' & q3' & q4' & n1' & n2' & n3' & np' & E & Ha' & Hb');
    [lia | lia | lia |].
  rewrite E. unfold tracked.
  exists io, (if (v <? q0)%float then v else q0), q1', q2', q3', q4', n1', n2', n3', np', dnp.
  rewrite El. replace (len seen + 1 - 1) with (len seen - 1 + 1) by lia.
  split; [reflexivity |]. split; [exact Ha' |]. split; [exact Hb' |].
  intros Hn. apply lowest_step; [exact Hlow | exact Hn].
Qed.

Lemma tracked_run (p : float) (it : list float) :
  (6 <= length it)%nat -> len it < 2 ^ 62 ->
  tracked it (fold_left (observe p) it initial).
Proof.
  induction it as [| v l IH] using rev_ind; intros H6 Hlen.
  - simpl in H6. lia.
  - rewrite length_app in H6. cbn [length] in H6.
    assert (El : len (l ++ [v]) = len l + 1).
    { unfold len. rewrite length_app. cbn [length]. lia. }
    destruct (Nat.eq_dec (length l) 5) as [E5 | N5].
    + destruct l as [| a [| b [| c [| d [| e [| f t]]]]]]; try discriminate E5.
      apply tracked_sixth.
    + rewrite fold_left_app. cbn [fold_left].
      apply tracked_step; [lia | lia |]. apply IH; lia.
Qed.

(** From the sixth observation on the estimator answers with its middle
    marker and never panics, and its marker positions stay in order: the
    first is 0, the last is the number of observations minus one, and the
    three between them are strictly increasing, so that no position
    difference the update divides by is zero. The lowest marker is the
    least of all the points seen, if none of them is a NaN. *)
Theorem FastPercentile_markers (p : float) (it : list float) :
  (6 <= length it)%nat -> len it < 2 ^ 62 ->
  exists io q0 q1 q2 q3 q4 n1 n2 n3 np dnp,
    fold_left (observe (p / 100)) it initial
    = mkPSquare io [q0; q1; q2; q3; q4] [0; n1; n2; n3; len it - 1]
        np dnp (len it) /\
    FastPercentile p it = Some q2 /\
    0 < n1 < n2 /\ n2 < n3 < len it - 1 /\
    (allNotNaN it -> In q0 it /\ Forall (fle q0) it).
Proof.
  intros H6 Hlen.
  destruct (tracked_run (p / 100) it H6 Hlen)
    as (io & q0 & q1 & q2 & q3 & q4 & n1 & n2 & n3 & np & dnp & E & Ha & Hb & Hlow).
  exists io, q0, q1, q2, q3, q4, n1, n2, n3, np, dnp.
  split; [exact E |]. split.
  - unfold FastPercentile. rewrite E. cbn [observations].
    destruct (len it <? 5) eqn:E5; [apply Z.ltb_lt in E5; unfold len in E5; lia |].
    reflexivity.
  - auto.
Qed.

Lemma FastPercentile_markers_witness :
  exists io q0 q1 q2 q3 q4 n1 n2 n3 np dnp,
    fold_left (observe (50 / 100)) [1; 2; 3; 4; 5; 6; 7]%float initial
    = mkPSquare io [q0; q1; q2; q3; q4]
        [0; n1; n2; n3; len [1; 2; 3; 4; 5; 6; 7]%float - 1]
        np dnp (len [1; 2; 3; 4; 5; 6; 7]%float) /\
    FastPercentile 50 [1; 2; 3; 4; 5; 6; 7]%float = Some q2 /\
    0 < n1 < n2 /\ n2 < n3 < len [1; 2; 3; 4; 5; 6; 7]%float - 1 /\
    (allNotNaN [1; 2; 3; 4; 5; 6; 7]%float ->
     In q0 [1; 2; 3; 4; 5; 6; 7]%float /\
     Forall (fle q0) [1; 2; 3; 4; 5; 6; 7]%float).
Proof.
  apply (FastPercentile_markers 50 [1; 2; 3; 4; 5; 6; 7]%float).
  - simpl. lia.
  - vm_compute. reflexivity.
Defined.

End PSquareFacts.

(** ** Floats that hold integers *)

Module ExactFloats.

Import FloatOrder BubbleSortFacts SortFacts.

(** [c] shifted left by [n] bits. *)
Definition sh (c : positive) (n : nat) : positive := Nat.iter n xO c.

Lemma sh_add (c : positive) (n k : nat) : sh (sh c n) k = sh c (k + n).
Proof. unfold sh. symmetry. apply Nat.iter_add. Qed.

Lemma sh_value (c : positive) (n : nat) : Z.pos (sh c n) = Z.pos c * 2 ^ Z.of_nat n.
Proof.
  induction n as [| n IH].
  - simpl. lia.
  - change (sh c (S n)) with (xO (sh c n)).
    rewrite Pos2Z.inj_xO, IH, Nat2Z.inj_succ, Z.pow_succ_r by lia. lia.
Qed.

Lemma sh_digits (c : positive) (n : nat) :
  Z.pos (digits2_pos (sh c n)) = Z.pos (digits2_pos c) + Z.of_nat n.
Proof.
  induction n as [| n IH].
  - simpl. lia.
  - change (sh c (S n)) with (xO (sh c n)). cbn [digits2_pos].
    rewrite Pos2Z.inj_succ, IH. lia.
Qed.

Lemma Pos_iter_sh (c : positive) (d : positive) :
  Pos.iter xO c d = sh c (Pos.to_nat d).
Proof. rewrite Pos2Nat.inj_iter. unfold sh. reflexivity. Qed.

Lemma iter_pos_nat {A : Type} (f : A -> A) (p : positive) (x : A) :
  iter_pos f p x = Nat.iter (Pos.to_nat p) f x.
Proof.
  revert x. induction p as [p IH | p IH |]; intros x; cbn [iter_pos].
  - rewrite !IH, Pos2Nat.inj_xI, <- Nat.iter_add, <- Nat.iter_succ_r.
    f_equal. lia.
  - rewrite !IH, Pos2Nat.inj_xO, <- Nat.iter_add. f_equal. lia.
  - reflexivity.
Qed.

Lemma shr_sh (m : positive) (n : nat) :
  Nat.iter n shr_1 (Build_shr_record (Z.pos (sh m n)) false false)
  = Build_shr_record (Z.pos m) false false.
Proof.
  induction n as [| n IH]; [reflexivity |].
  rewrite Nat.iter_succ_r. change (sh m (S n)) with (xO (sh m n)).
  cbn [shr_1 orb]. exact IH.
Qed.

(** A canonical mantissa followed by [n] zero bits rounds to itself. *)
Lemma round_aux_sh (s : bool) (m : positive) (n : nat) (E : Z) :
  fexp prec emax (Z.pos (digits2_pos m) + E) = E -> E <= 971 ->
  binary_round_aux prec emax s (Z.pos (sh m n)) (E - Z.of_nat n) loc_Exact
  = S754_finite s m E.
Proof.
  intros Hcan HE.
  assert (Hfirst : shr_fexp prec emax (Z.pos (sh m n)) (E - Z.of_nat n) loc_Exact
                   = (Build_shr_record (Z.pos m) false false, E)).
  { unfold shr_fexp. cbn [Zdigits2 shr_record_of_loc].
    rewrite sh_digits.
    replace (Z.pos (digits2_pos m) + Z.of_nat n + (E - Z.of_nat n))
      with (Z.pos (digits2_pos m) + E) by lia.
    rewrite Hcan.
    replace (E - (E - Z.of_nat n)) with (Z.of_nat n) by lia.
    destruct n as [| n].
    - cbn [Z.of_nat shr sh Nat.iter]. f_equal. lia.
    - cbn [Z.of_nat]. unfold shr.
      rewrite iter_pos_nat, SuccNat2Pos.id_succ, shr_sh.
      f_equal. lia. }
  assert (Hsecond : shr_fexp prec emax (Z.pos m) E loc_Exact
                    = (Build_shr_record (Z.pos m) false false, E)).
  { unfold shr_fexp. cbn [Zdigits2 shr_record_of_loc].
    rewrite Hcan, Z.sub_diag. reflexivity. }
  unfold binary_round_aux. rewrite Hfirst.
  cbn [shr_m loc_of_shr_record round_nearest_even]. rewrite Hsecond.
  cbn [shr_m]. unfold emax, prec.
  destruct (E <=? 1024 - 53) eqn:El; [reflexivity | apply Z.leb_gt in El; lia].
Qed.

Lemma fexp_53 (E : Z) : -1074 <= E -> fexp prec emax (53 + E) = E.
Proof. unfold fexp, emin, prec, emax. lia. Qed.

(** The float of an integer [c] that fits the mantissa, scaled by [2^x]. *)
Definition canon (s : bool) (c : positive) (x : Z) : spec_float :=
  S754_finite s (sh c (Z.to_nat (53 - Z.pos (digits2_pos c))))
    (Z.pos (digits2_pos c) + x - 53).

Lemma binary_round_sh (s : bool) (c : positive) (t : nat) (x : Z) :
  Z.pos (digits2_pos c) <= 53 ->
  -1074 <= Z.pos (digits2_pos c) + x - 53 <= 971 ->
  binary_round prec emax s (sh c t) (x - Z.of_nat t) = canon s c x.
Proof.
  intros Hd HE. unfold binary_round, canon.
  set (d := Z.pos (digits2_pos c)) in *.
  set (g := Z.to_nat (53 - d)).
  assert (Hg : Z.pos (digits2_pos (sh c g)) = 53).
  { rewrite sh_digits. fold d. subst g. lia. }
  assert (Hfexp : fexp prec emax (Z.pos (digits2_pos (sh c t)) + (x - Z.of_nat t))
                  = d + x - 53).
  { unfold fexp, emin, prec, emax. rewrite sh_digits. fold d. lia. }
  rewrite Hfexp. unfold shl_align.
  destruct (d + x - 53 - (x - Z.of_nat t)) as [| p | p] eqn:Ediff.
  - assert (t = g) by (subst g; lia). subst t.
    replace (x - Z.of_nat g) with (d + x - 53 - Z.of_nat 0) by (cbn [Z.of_nat]; lia).
    change (sh c g) with (sh (sh c g) 0) at 1.
    apply round_aux_sh; [rewrite Hg; apply fexp_53 |]; lia.
  - assert (Ht : (t = Pos.to_nat p + g)%nat) by (subst g; lia).
    rewrite Ht, <- sh_add.
    replace (x - Z.of_nat (Pos.to_nat p + g))
      with (d + x - 53 - Z.of_nat (Pos.to_nat p)) by lia.
    apply round_aux_sh; [rewrite Hg; apply fexp_53 |]; lia.
  - rewrite Pos_iter_sh, sh_add.
    replace (Pos.to_nat p + t)%nat with g by (subst g; lia).
    replace (d + x - 53) with (d + x - 53 - Z.of_nat 0) at 1 by (cbn [Z.of_nat]; lia).
    change (sh c g) with (sh (sh c g) 0) at 1.
    apply round_aux_sh; [rewrite Hg; apply fexp_53 |]; lia.
Qed.

Lemma digits_fit (c : positive) : Z.pos c < 2 ^ 53 -> Z.pos (digits2_pos c) <= 53.
Proof.
  intros H.
  assert (Hlow : 2 ^ (Z.pos (digits2_pos c) - 1) <= Z.pos c).
  { clear H. induction c as [c IH | c IH |]; cbn [digits2_pos];
      rewrite ?Pos2Z.inj_succ.
    - replace (Z.succ (Z.pos (digits2_pos c)) - 1)
        with (Z.succ (Z.pos (digits2_pos c) - 1)) by lia.
      rewrite Z.pow_succ_r by lia. lia.
    - replace (Z.succ (Z.pos (digits2_pos c)) - 1)
        with (Z.succ (Z.pos (digits2_pos c) - 1)) by lia.
      rewrite Z.pow_succ_r by lia. lia.
    - simpl. lia. }
  destruct (Z_le_gt_dec (Z.pos (digits2_pos c)) 53) as [Hle | Hgt]; [exact Hle |].
  exfalso.
  assert (2 ^ 53 <= 2 ^ (Z.pos (digits2_pos c) - 1))
    by (apply Z.pow_le_mono_r; lia).
  lia.
Qed.

(** [float64(k)] of a positive integer below [2^53] is exact. *)
Lemma float64_of_int_canon (c : positive) :
  Z.pos c < 2 ^ 53 -> Prim2SF (float64_of_int (Z.pos c)) = canon false c 0.
Proof.
  intros H. unfold float64_of_int. cbn [Z.ltb Z.compare].
  rewrite of_uint63_spec, Uint63.of_Z_spec.
  rewrite Z.mod_small
    by (split; [lia |]; apply Z.lt_trans with (2 ^ 53); [exact H | reflexivity]).
  cbn [binary_normalize].
  pose proof (digits_fit c H) as Hd.
  replace 0 with (0 - Z.of_nat 0) at 1 by reflexivity.
  change c with (sh c 0) at 1.
  apply binary_round_sh; [exact Hd | lia].
Qed.

(** Adding one to the float of an integer gives the float of the next
    integer, as long as that one fits the mantissa. *)
Lemma float64_of_int_succ (k : Z) :
  0 <= k -> k + 1 < 2 ^ 53 ->
  (float64_of_int k + 1)%float = float64_of_int (k + 1).
Proof.
  intros H0 H1. destruct k as [| c | c]; [reflexivity | | lia].
  apply Prim2SF_inj. rewrite add_spec.
  assert (Hc : Z.pos c < 2 ^ 53) by lia.
  rewrite (float64_of_int_canon c Hc).
  change (Z.pos c + 1) with (Z.pos (c + 1)).
  rewrite (float64_of_int_canon (c + 1)) by lia.
  change (Prim2SF 1) with (S754_finite false (sh 1 52) (-52)).
  pose proof (digits_fit c Hc) as Hd.
  pose proof (digits_fit (c + 1) ltac:(lia)) as Hd'.
  unfold SF64add, SFadd, canon.
  set (d := Z.pos (digits2_pos c)) in *.
  assert (Hmin : Z.min (d + 0 - 53) (-52) = -52) by lia.
  rewrite Hmin.
  assert (Hl : fst (shl_align (sh c (Z.to_nat (53 - d))) (d + 0 - 53) (-52))
               = sh c 52).
  { unfold shl_align. destruct (-52 - (d + 0 - 53)) as [| p | p] eqn:E.
    - cbn [fst]. f_equal. lia.
    - lia.
    - cbn [fst]. rewrite Pos_iter_sh, sh_add. f_equal. lia. }
  rewrite Hl. change (shl_align (sh 1 52) (-52) (-52)) with (sh 1 52, -52).
  cbn [fst cond_Zopp].
  assert (Hsum : Z.pos (sh c 52) + Z.pos (sh 1 52) = Z.pos (sh (c + 1) 52)).
  { rewrite !sh_value. lia. }
  rewrite Hsum. cbn [binary_normalize].
  change (-52) with (0 - Z.of_nat 52).
  apply binary_round_sh; [exact Hd' | lia].
Qed.

Lemma float64_of_int_0 : float64_of_int 0 = 0%float.
Proof. reflexivity. Qed.

Lemma counting (it : list float) (j : Z) :
  0 <= j -> j + len it < 2 ^ 53 ->
  fold_left (fun result _ => (result + 1)%float) it (float64_of_int j)
  = float64_of_int (j + len it).
Proof.
  revert j. induction it as [| v it IH]; intros j H0 H1.
  - unfold len. cbn [length Z.of_nat fold_left]. f_equal. lia.
  - unfold len in *. cbn [length fold_left] in *.
    rewrite float64_of_int_succ by lia. rewrite IH by lia. f_equal. lia.
Qed.

(** [Count] and [count] return the number of points of the window, as
    long as it is below [2^53], where the floats stop holding every
    integer. *)
Theorem Count_is_the_number_of_points (it : list float) :
  len it < 2 ^ 53 ->
  Reducers.Count it = float64_of_int (len it) /\
  Aggregators.count it = float64_of_int (len it).
Proof.
  intros H. unfold Reducers.Count, Aggregators.count.
  rewrite <- float64_of_int_0, counting by (unfold len in *; lia).
  split; reflexivity.
Qed.

Lemma Count_is_the_number_of_points_witness :
  Reducers.Count [5; 7; 9]%float = float64_of_int (len [5; 7; 9]%float) /\
  Aggregators.count [5; 7; 9]%float = float64_of_int (len [5; 7; 9]%float).
Proof.
  apply (Count_is_the_number_of_points [5; 7; 9]%float). reflexivity.
Defined.

Lemma digits_low (c : positive) : 2 ^ (Z.pos (digits2_pos c) - 1) <= Z.pos c.
Proof.
  induction c as [c IH | c IH |]; cbn [digits2_pos]; rewrite ?Pos2Z.inj_succ.
  - replace (Z.succ (Z.pos (digits2_pos c)) - 1)
      with (Z.succ (Z.pos (digits2_pos c) - 1)) by lia.
    rewrite Z.pow_succ_r by lia. lia.
  - replace (Z.succ (Z.pos (digits2_pos c)) - 1)
      with (Z.succ (Z.pos (digits2_pos c) - 1)) by lia.
    rewrite Z.pow_succ_r by lia. lia.
  - simpl. lia.
Qed.

Lemma digits_high (c : positive) : Z.pos c < 2 ^ Z.pos (digits2_pos c).
Proof.
  induction c as [c IH | c IH |]; cbn [digits2_pos];
    rewrite ?Pos2Z.inj_succ, ?Z.pow_succ_r by lia; lia.
Qed.

Lemma canon_compare (a b : positive) :
  SFcompare (canon false a 0) (canon false b 0) = Some (Pos.compare a b).
Proof.
  unfold canon, SFcompare.
  pose proof (digits_low a) as La. pose proof (digits_high a) as Ha.
  pose proof (digits_low b) as Lb. pose proof (digits_high b) as Hb.
  set (da := Z.pos (digits2_pos a)) in *. set (db := Z.pos (digits2_pos b)) in *.
  f_equal.
  destruct (Z.compare_spec (da + 0 - 53) (db + 0 - 53)) as [E | E | E].
  - assert (Ed : da = db) by lia. rewrite Ed.
    change (Pos.compare_cont Eq (sh a (Z.to_nat (53 - db))) (sh b (Z.to_nat (53 - db))))
      with (Pos.compare (sh a (Z.to_nat (53 - db))) (sh b (Z.to_nat (53 - db)))).
    rewrite !Pos2Z.inj_compare, !sh_value.
    assert (HP : 0 < 2 ^ Z.of_nat (Z.to_nat (53 - db)))
      by (apply Z.pow_pos_nonneg; lia).
    destruct (Z.compare_spec (Z.pos a * 2 ^ Z.of_nat (Z.to_nat (53 - db)))
                (Z.pos b * 2 ^ Z.of_nat (Z.to_nat (53 - db))));
      destruct (Z.compare_spec (Z.pos a) (Z.pos b)); try reflexivity; nia.
  - symmetry. apply Pos.compare_lt_iff.
    assert (2 ^ da <= 2 ^ (db - 1)) by (apply Z.pow_le_mono_r; lia). lia.
  - symmetry. apply Pos.compare_gt_iff.
    assert (2 ^ db <= 2 ^ (da - 1)) by (apply Z.pow_le_mono_r; lia). lia.
Qed.

(** Floats of integers below [2^53] compare as the integers do. *)
Lemma float64_of_int_ltb (a b : Z) :
  0 <= a < 2 ^ 53 -> 0 <= b < 2 ^ 53 ->
  (float64_of_int a <? float64_of_int b)%float = (a <? b).
Proof.
  intros Ha Hb. rewrite ltb_spec.
  destruct a as [| a | a]; [| | lia]; destruct b as [| b | b]; try lia.
  - reflexivity.
  - rewrite (float64_of_int_canon b) by lia. reflexivity.
  - rewrite (float64_of_int_canon a) by lia. reflexivity.
  - rewrite (float64_of_int_canon a), (float64_of_int_canon b) by lia.
    unfold SFltb. rewrite canon_compare.
    unfold Z.ltb. rewrite Pos2Z.inj_compare. reflexivity.
Qed.

(** The float of a negative integer lies below the float of every
    integer that is not negative. *)
Lemma float64_of_int_negative (a : positive) (b : Z) :
  Z.pos a < 2 ^ 53 -> 0 <= b < 2 ^ 53 ->
  (float64_of_int b <? float64_of_int (Z.neg a))%float = false.
Proof.
  intros Ha Hb. rewrite ltb_spec.
  assert (E : (Z.neg a =? minInt64) = false).
  { apply Z.eqb_neq. unfold minInt64.
    assert (2 ^ 53 < 2 ^ 63) by (apply Z.pow_lt_mono_r; lia). lia. }
  unfold float64_of_int at 2. cbn [Z.ltb Z.compare Z.opp]. rewrite E.
  rewrite opp_spec.
  change (of_uint63 (Uint63.of_Z (Z.pos a))) with (float64_of_int (Z.pos a)).
  rewrite (float64_of_int_canon a Ha).
  destruct b as [| b | b]; [reflexivity | | lia].
  rewrite (float64_of_int_canon b) by lia. reflexivity.
Qed.

(** The limited aggregator answers 0 while the window holds fewer points
    than the limit, and asks the aggregator behind it from exactly [limit]
    points on. *)
Theorem limited_asks_from_the_limit_on
    (limit : Z) (points : list float) (evaluator : option float) :
  - 2 ^ 53 < limit < 2 ^ 53 -> len points < 2 ^ 53 ->
  Aggregators.limited limit points evaluator
  = if len points <? limit then Some 0%float else evaluator.
Proof.
  intros Hl Hp. unfold Aggregators.limited.
  assert (Hc : Aggregators.count points = float64_of_int (len points)).
  { unfold Aggregators.count.
    rewrite <- float64_of_int_0, counting by (unfold len in *; lia).
    reflexivity. }
  rewrite Hc.
  assert (H0 : 0 <= len points) by (unfold len; lia).
  destruct limit as [| l | l].
  - rewrite float64_of_int_ltb by lia. reflexivity.
  - rewrite float64_of_int_ltb by lia. reflexivity.
  - rewrite float64_of_int_negative by lia.
    destruct (len points <? Z.neg l) eqn:E; [apply Z.ltb_lt in E; lia | reflexivity].
Qed.

Lemma limited_asks_from_the_limit_on_witness :
  Aggregators.limited 3 [5; 7; 9]%float (Some 7%float)
  = if len [5; 7; 9]%float <? 3 then Some 0%float else Some 7%float.
Proof.
  apply (limited_asks_from_the_limit_on 3 [5; 7; 9]%float (Some 7%float)).
  - split; reflexivity.
  - reflexivity.
Defined.

(** *** The hundredth percentile *)


Lemma sh_mul (m : positive) (n : nat) : (sh 1 n * m)%positive = sh m n.
Proof.
  apply Pos2Z.inj. rewrite Pos2Z.inj_mul, !sh_value. lia.
Qed.

Lemma valid_finite (s : bool) (m : positive) (e : Z) :
  valid_binary (S754_finite s m e) = true ->
  fexp prec emax (Z.pos (digits2_pos m) + e) = e /\ e <= 971.
Proof.
  unfold valid_binary, bounded, canonical_mantissa. intros H.
  apply andb_prop in H. destruct H as (H1 & H2).
  apply Z.eqb_eq in H1. apply Z.leb_le in H2. unfold emax, prec in H2.
  split; [exact H1 | lia].
Qed.

(** Multiplying by one changes nothing, whatever the float. *)
Lemma mul_one (x : float) : (1 * x)%float = x.
Proof.
  apply Prim2SF_inj. rewrite mul_spec.
  change (Prim2SF 1) with (S754_finite false (sh 1 52) (-52)).
  pose proof (Prim2SF_valid x) as Hv.
  destruct (Prim2SF x) as [s | s | | s m e]; try reflexivity.
  destruct (valid_finite s m e Hv) as (Hcan & He).
  unfold SF64mul, SFmul. rewrite sh_mul. cbn [xorb].
  replace (-52 + e) with (e - Z.of_nat 52) by lia.
  apply round_aux_sh; assumption.
Qed.

(** A float that is a number: a zero or a finite value. *)
Lemma is_finite_SF (x : float) :
  is_finite x = true ->
  (exists s, Prim2SF x = S754_zero s) \/
  (exists s m e, Prim2SF x = S754_finite s m e).
Proof.
  unfold is_finite, is_nan, is_infinity.
  rewrite !eqb_spec, abs_spec.
  change (Prim2SF infinity) with (S754_infinity false).
  destruct (Prim2SF x) as [s | s | | s m e]; eauto.
  - destruct s; discriminate.
  - discriminate.
Qed.

Lemma is_finite_notNaN (x : float) : is_finite x = true -> notNaN x.
Proof.
  unfold is_finite, notNaN. destruct (is_nan x); [discriminate | reflexivity].
Qed.

(** The weighted sum the percentile returns when the fractional part of
    the rank is zero. *)
Lemma whole_rank (v : float) :
  is_finite v = true -> ((1 - 0) * v + 0 * v)%float = v.
Proof.
  intros Hf. change (1 - 0)%float with 1%float. rewrite mul_one.
  apply Prim2SF_inj. rewrite add_spec, mul_spec.
  change (Prim2SF 0) with (S754_zero false).
  destruct (is_finite_SF v Hf) as [(s & ->) | (s & m & e & ->)].
  - destruct s; reflexivity.
  - reflexivity.
Qed.

Lemma float64_of_int_pred (k : Z) :
  1 <= k < 2 ^ 53 -> (float64_of_int k - 1)%float = float64_of_int (k - 1).
Proof.
  intros H. destruct k as [| c | c]; try lia.
  apply Prim2SF_inj. rewrite sub_spec.
  rewrite (float64_of_int_canon c) by lia.
  change (Prim2SF 1) with (S754_finite false (sh 1 52) (-52)).
  pose proof (digits_fit c ltac:(lia)) as Hd.
  unfold SF64sub, SFsub, canon.
  set (d := Z.pos (digits2_pos c)) in *.
  assert (Hmin : Z.min (d + 0 - 53) (-52) = -52) by lia.
  rewrite Hmin.
  assert (Hl : fst (shl_align (sh c (Z.to_nat (53 - d))) (d + 0 - 53) (-52))
               = sh c 52).
  { unfold shl_align. destruct (-52 - (d + 0 - 53)) as [| p | p] eqn:E.
    - cbn [fst]. f_equal. lia.
    - lia.
    - cbn [fst]. rewrite Pos_iter_sh, sh_add. f_equal. lia. }
  rewrite Hl. change (shl_align (sh 1 52) (-52) (-52)) with (sh 1 52, -52).
  cbn [fst cond_Zopp].
  destruct (Pos.eq_dec c 1) as [-> | Hne].
  - reflexivity.
  - assert (Hdiff : Z.pos (sh c 52) - Z.pos (sh 1 52) = Z.pos (sh (c - 1) 52)).
    { rewrite !sh_value. rewrite Pos2Z.inj_sub by lia. lia. }
    rewrite Hdiff. cbn [binary_normalize].
    replace (Z.pos c - 1) with (Z.pos (c - 1)) by lia.
    rewrite (float64_of_int_canon (c - 1)) by lia.
    change (-52) with (0 - Z.of_nat 52).
    apply binary_round_sh; [apply digits_fit; lia |].
    pose proof (digits_fit (c - 1) ltac:(lia)). lia.
Qed.

Lemma int_Floor_of_int (k : Z) :
  0 <= k < 2 ^ 53 -> int_Floor (float64_of_int k) = k.
Proof.
  intros H. destruct k as [| c | c]; [reflexivity | | lia].
  unfold int_Floor. rewrite (float64_of_int_canon c) by lia. unfold canon.
  pose proof (digits_fit c ltac:(lia)) as Hd.
  set (d := Z.pos (digits2_pos c)) in *. cbn [SFnum].
  assert (Hz : (if 0 <=? d + 0 - 53
                then Z.pos (sh c (Z.to_nat (53 - d))) * 2 ^ (d + 0 - 53)
                else Z.pos (sh c (Z.to_nat (53 - d))) / 2 ^ (- (d + 0 - 53)))
               = Z.pos c).
  { rewrite sh_value. destruct (0 <=? d + 0 - 53) eqn:E.
    - apply Z.leb_le in E. replace (53 - d) with 0 by lia.
      replace (d + 0 - 53) with 0 by lia. simpl. lia.
    - apply Z.leb_gt in E. rewrite Z2Nat.id by lia.
      replace (- (d + 0 - 53)) with (53 - d) by lia.
      apply Z.div_mul. apply Z.pow_nonzero; lia. }
  rewrite Hz.
  assert (Hr : (minInt64 <=? Z.pos c) && (Z.pos c <? 2 ^ 63) = true).
  { apply andb_true_intro. split.
    - apply Z.leb_le. unfold minInt64. lia.
    - apply Z.ltb_lt. apply Z.lt_trans with (2 ^ 53); [lia | reflexivity]. }
  rewrite Hr. reflexivity.
Qed.

Lemma math_Floor_of_int (k : Z) :
  0 <= k < 2 ^ 53 -> math_Floor (float64_of_int k) = float64_of_int k.
Proof.
  intros H. destruct k as [| c | c]; [reflexivity | | lia].
  unfold math_Floor. rewrite (float64_of_int_canon c) by lia. unfold canon.
  pose proof (digits_fit c ltac:(lia)) as Hd.
  set (d := Z.pos (digits2_pos c)) in *.
  destruct (d + 0 - 53 <? 0) eqn:E; [| reflexivity].
  apply Z.ltb_lt in E. cbn [SFnum]. f_equal.
  rewrite sh_value, Z2Nat.id by lia.
  replace (- (d + 0 - 53)) with (53 - d) by lia.
  apply Z.div_mul. apply Z.pow_nonzero; lia.
Qed.

Lemma float64_of_int_finite (k : Z) :
  0 <= k < 2 ^ 53 -> is_finite (float64_of_int k) = true.
Proof.
  intros H. unfold is_finite, is_nan, is_infinity.
  rewrite !eqb_spec, abs_spec.
  change (Prim2SF infinity) with (S754_infinity false).
  destruct k as [| c | c]; [reflexivity | | lia].
  rewrite (float64_of_int_canon c) by lia. unfold canon.
  unfold SFeqb, SFcompare, SFabs. rewrite Z.compare_refl.
  change (Pos.compare_cont Eq ?x ?y) with (Pos.compare x y).
  rewrite Pos.compare_refl. reflexivity.
Qed.

Lemma sub_self (x : float) : is_finite x = true -> (x - x)%float = 0%float.
Proof.
  intros Hf. apply Prim2SF_inj. rewrite sub_spec.
  change (Prim2SF 0) with (S754_zero false).
  destruct (is_finite_SF x Hf) as [(s & E) | (s & m & e & E)]; rewrite E.
  - destruct s; reflexivity.
  - unfold SF64sub, SFsub. rewrite Z.sub_diag. reflexivity.
Qed.

(** The float of an integer has no fractional part. *)
Lemma math_Mod1_of_int (k : Z) :
  0 <= k < 2 ^ 53 -> math_Mod1 (float64_of_int k) = 0%float.
Proof.
  intros H. pose proof (float64_of_int_finite k H) as Hf.
  unfold math_Mod1.
  assert (Hn : is_nan (float64_of_int k) || is_infinity (float64_of_int k) = false).
  { unfold is_finite in Hf. destruct (_ || _); [discriminate | reflexivity]. }
  rewrite Hn.
  assert (Hneg : (float64_of_int k <? 0)%float = false).
  { rewrite <- float64_of_int_0, float64_of_int_ltb by lia.
    apply Z.ltb_ge. lia. }
  rewrite Hneg.
  destruct (Z.eq_dec k 0) as [-> | Hk]; [reflexivity |].
  assert (Hone : (1 <=? float64_of_int k)%float = true).
  { apply nltb_fle; [reflexivity | apply is_finite_notNaN, Hf |].
    change 1%float with (float64_of_int 1).
    rewrite float64_of_int_ltb by lia. apply Z.ltb_ge. lia. }
  rewrite Hone, math_Floor_of_int by lia.
  apply sub_self, Hf.
Qed.

(** The greatest of the sorted points. *)
Lemma sorted_maximum (p0 : float) (it : list float) :
  allNotNaN (p0 :: it) ->
  exists s m,
    sort_Float64s (p0 :: it) = s ++ [m] /\
    In m (p0 :: it) /\ Forall (fun x => fle x m) (p0 :: it).
Proof.
  intros Hn.
  pose proof (sort_Float64s_perm (p0 :: it)) as HP.
  pose proof (sort_Float64s_sorted (p0 :: it) Hn) as HS.
  destruct (exists_last (l := sort_Float64s (p0 :: it))) as (s & m & E).
  { intros E. rewrite E in HP. apply Permutation_nil in HP. discriminate. }
  exists s, m. split; [exact E |].
  rewrite E in HP, HS.
  assert (Hm : In m (p0 :: it)).
  { apply (Permutation_in m HP). apply in_or_app. right. left. reflexivity. }
  split; [exact Hm |].
  apply Forall_forall. intros y Hy.
  apply (Permutation_in y (Permutation_sym HP)) in Hy.
  apply in_app_or in Hy. destruct Hy as [Hy | [<- | []]].
  - pose proof (sorted_last s m HS) as Hl. rewrite Forall_forall in Hl. auto.
  - apply fle_refl. unfold allNotNaN in Hn. rewrite Forall_forall in Hn. auto.
Qed.

(** The hundredth percentile of the exact aggregator is the greatest point
    of the window: over a window of numbers (no NaN, no infinity) that is
    not empty, [Aggregate] with percentile 100 does not panic and returns
    one of the points, which no point exceeds. *)
Theorem hundredth_percentile_is_the_maximum (p0 : float) (it : list float) :
  Forall (fun x => is_finite x = true) (p0 :: it) ->
  len (p0 :: it) < 2 ^ 53 ->
  exists m,
    Aggregate.Aggregate 100 (p0 :: it) = Some m /\
    In m (p0 :: it) /\ Forall (fun x => fle x m) (p0 :: it).
Proof.
  intros Hfin Hlen.
  assert (Hn : allNotNaN (p0 :: it)).
  { unfold allNotNaN. eapply Forall_impl; [| exact Hfin].
    intros x. apply is_finite_notNaN. }
  destruct (sorted_maximum p0 it Hn) as (s & m & Es & Hin & Hmax).
  exists m. split; [| split; assumption].
  assert (Hm : is_finite m = true) by (rewrite Forall_forall in Hfin; auto).
  unfold Aggregate.Aggregate.
  assert (HL : len (sort_Float64s (p0 :: it)) = len (p0 :: it)).
  { unfold len. rewrite PercentileFacts.sort_Float64s_length. reflexivity. }
  assert (H1 : 1 <= len (p0 :: it)) by (unfold len; cbn [length]; lia).
  destruct (len (p0 :: it) <? 1) eqn:E1; [apply Z.ltb_lt in E1; lia |].
  destruct (len (p0 :: it) <? 2) eqn:E2.
  - apply Z.ltb_lt in E2. destruct it as [| x it];
      [| unfold len in E2; cbn [length] in E2; lia].
    cbn [sort_Float64s fold_right sort_insert] in Es.
    destruct s as [| a [| b s]]; try discriminate Es.
    injection Es as <-. reflexivity.
  - apply Z.ltb_ge in E2. rewrite HL.
    change (100 / 100)%float with 1%float.
    rewrite mul_one, float64_of_int_pred by lia.
    rewrite int_Floor_of_int, math_Mod1_of_int by lia.
    unfold add64, sub64. rewrite !TimeWinFacts.wrap64_small by lia.
    replace (len (p0 :: it) - 1 + 1) with (len (p0 :: it)) by lia.
    destruct (len (p0 :: it) >? len (p0 :: it) - 1) eqn:E3;
      [| rewrite Z.gtb_ltb in E3; apply Z.ltb_ge in E3; lia].
    assert (Hi : index (sort_Float64s (p0 :: it)) (len (p0 :: it) - 1) = Some m).
    { rewrite Es, <- HL, Es.
      rewrite <- (TimeWinFacts.wrap64_small (len (s ++ [m]) - 1))
        by (rewrite <- Es, HL; lia).
      apply PercentileFacts.index_last. rewrite <- Es, HL. lia. }
    rewrite Hi. cbn [bind]. rewrite whole_rank by exact Hm. reflexivity.
Qed.

Lemma hundredth_percentile_is_the_maximum_witness :
  exists m,
    Aggregate.Aggregate 100 [3; 1; 2]%float = Some m /\
    In m [3; 1; 2]%float /\ Forall (fun x => fle x m) [3; 1; 2]%float.
Proof.
  apply (hundredth_percentile_is_the_maximum 3%float [1; 2]%float).
  - repeat constructor.
  - reflexivity.
Defined.

(** *** The median *)

Lemma canon_double (s : bool) (q : positive) (x : Z) :
  Z.pos (digits2_pos (xO q)) <= 53 -> canon s (xO q) x = canon s q (x + 1).
Proof.
  unfold canon. cbn [digits2_pos]. rewrite Pos2Z.inj_succ. intros Hd.
  f_equal; [| lia].
  change (xO q) with (sh q 1). rewrite sh_add. f_equal. lia.
Qed.

Lemma half_of_int (c : positive) :
  Z.pos c < 2 ^ 53 ->
  SF64mul (S754_finite false (sh 1 52) (-53)) (canon false c 0) = canon false c (-1).
Proof.
  intros H. pose proof (digits_fit c H) as Hd.
  unfold SF64mul, SFmul, canon. rewrite sh_mul. cbn [xorb].
  set (d := Z.pos (digits2_pos c)) in *.
  replace (-53 + (d + 0 - 53)) with (d + -1 - 53 - Z.of_nat 52) by lia.
  apply round_aux_sh; [| lia].
  rewrite sh_digits. fold d. rewrite Z2Nat.id by lia.
  replace (d + (53 - d)) with 53 by lia. apply fexp_53. lia.
Qed.

Lemma int_of_half (c : positive) :
  Z.pos c < 2 ^ 53 ->
  SF64mul (canon false c 0) (S754_finite false (sh 1 52) (-53)) = canon false c (-1).
Proof.
  intros H. rewrite <- (half_of_int c H).
  unfold SF64mul, SFmul, canon. rewrite Pos.mul_comm, Z.add_comm. reflexivity.
Qed.

Lemma add_half (c : positive) :
  Z.pos c + 1 < 2 ^ 53 ->
  SF64add (canon false c (-1)) (S754_finite false (sh 1 52) (-53))
  = canon false (c + 1) (-1).
Proof.
  intros H.
  pose proof (digits_fit c ltac:(lia)) as Hd.
  pose proof (digits_fit (c + 1) ltac:(lia)) as Hd'.
  unfold SF64add, SFadd. unfold canon at 1.
  set (d := Z.pos (digits2_pos c)) in *.
  assert (Hmin : Z.min (d + -1 - 53) (-53) = -53) by lia.
  rewrite Hmin.
  assert (Hl : fst (shl_align (sh c (Z.to_nat (53 - d))) (d + -1 - 53) (-53))
               = sh c 52).
  { unfold shl_align. destruct (-53 - (d + -1 - 53)) as [| p | p] eqn:E.
    - cbn [fst]. f_equal. lia.
    - lia.
    - cbn [fst]. rewrite Pos_iter_sh, sh_add. f_equal. lia. }
  rewrite Hl. change (shl_align (sh 1 52) (-53) (-53)) with (sh 1 52, -53).
  cbn [fst cond_Zopp].
  assert (Hsum : Z.pos (sh c 52) + Z.pos (sh 1 52) = Z.pos (sh (c + 1) 52)).
  { rewrite !sh_value. lia. }
  rewrite Hsum. cbn [binary_normalize].
  change (-53) with (-1 - Z.of_nat 52).
  apply binary_round_sh; [exact Hd' | lia].
Qed.

(** Half of an even count. *)
Lemma half_of_even (j : Z) :
  1 <= j -> 2 * j < 2 ^ 53 ->
  (0.5 * float64_of_int (2 * j))%float = float64_of_int j.
Proof.
  intros H1 H2. destruct j as [| q | q]; try lia.
  apply Prim2SF_inj. rewrite mul_spec.
  change (2 * Z.pos q) with (Z.pos (xO q)).
  assert (Hq : Z.pos q < 2 ^ 53) by lia.
  assert (Hq2 : Z.pos (xO q) < 2 ^ 53) by (rewrite Pos2Z.inj_xO; exact H2).
  rewrite (float64_of_int_canon (xO q) Hq2), (float64_of_int_canon q Hq).
  change (Prim2SF 0.5) with (S754_finite false (sh 1 52) (-53)).
  rewrite half_of_int by exact Hq2.
  apply canon_double. apply digits_fit. lia.
Qed.

(** Half of an odd count, and a half. *)
Lemma half_of_odd (j : Z) :
  0 <= j -> 2 * j + 2 < 2 ^ 53 ->
  (float64_of_int (2 * j + 1) * 0.5 + 0.5)%float = float64_of_int (j + 1).
Proof.
  intros H1 H2. apply Prim2SF_inj. rewrite add_spec, mul_spec.
  change (Prim2SF 0.5) with (S754_finite false (sh 1 52) (-53)).
  assert (E : exists c q, 2 * j + 1 = Z.pos c /\ j + 1 = Z.pos q /\ (c + 1 = xO q)%positive).
  { destruct j as [| q | q]; [exists 1%positive, 1%positive; auto | | lia].
    exists (xI q), (q + 1)%positive. repeat split; lia. }
  destruct E as (c & q & Ec1 & Eq1 & Ec). rewrite Ec1, Eq1.
  assert (Hc : Z.pos c + 1 < 2 ^ 53) by lia.
  assert (Hq : Z.pos (xO q) < 2 ^ 53) by (rewrite <- Ec; lia).
  assert (Hq' : Z.pos q < 2 ^ 53) by (rewrite Pos2Z.inj_xO in Hq; lia).
  rewrite (float64_of_int_canon c), (float64_of_int_canon q Hq') by lia.
  rewrite int_of_half, add_half, Ec by lia.
  apply canon_double. apply digits_fit. exact Hq.
Qed.

Lemma sorted_split (l r : list float) (m : float) :
  StronglySorted fle (l ++ m :: r) ->
  Forall (fun x => fle x m) l /\ Forall (fle m) r.
Proof.
  induction l as [| a l IH]; intros H.
  - inversion H; subst. split; [constructor | assumption].
  - cbn [app] in H. inversion H as [| ? ? Hs Ha]; subst.
    destruct (IH Hs) as (Hl & Hr). split; [| exact Hr].
    constructor; [| exact Hl].
    rewrite Forall_forall in Ha. apply Ha. apply in_or_app. right. left.
    reflexivity.
Qed.

(** The sorted points around the one at index [j]. *)
Lemma sorted_around (it : list float) (j : nat) :
  allNotNaN it -> (j < length it)%nat ->
  exists l m r,
    sort_Float64s it = l ++ m :: r /\ length l = j /\
    Permutation (l ++ m :: r) it /\
    Forall (fun x => fle x m) l /\ Forall (fle m) r /\
    index (sort_Float64s it) (Z.of_nat j) = Some m.
Proof.
  intros Hn Hj.
  pose proof (sort_Float64s_perm it) as HP.
  pose proof (sort_Float64s_sorted it Hn) as HS.
  destruct (nth_error (sort_Float64s it) j) as [m |] eqn:E.
  - destruct (nth_error_split _ _ E) as (l & r & Es & Hl).
    exists l, m, r. rewrite Es in HS, HP.
    destruct (sorted_split l r m HS) as (H1 & H2).
    repeat split; try assumption.
    unfold index. destruct (Z.of_nat j <? 0) eqn:E0; [lia |].
    rewrite Nat2Z.id. exact E.
  - apply nth_error_None in E.
    rewrite PercentileFacts.sort_Float64s_length in E. lia.
Qed.

(** Over a window of an odd number of points, none of them a NaN,
    [Percentile] of [reduce.go] at 50 does not panic and returns the
    median: a point of the window with as many points at or below it as
    at or above it. *)
Theorem Percentile_50_is_the_median (it : list float) (j : nat) :
  length it = (2 * j + 1)%nat -> len it + 1 < 2 ^ 53 -> allNotNaN it ->
  exists l m r,
    Reduce.Percentile 50 it = Some m /\
    Permutation (l ++ m :: r) it /\ length l = j /\ length r = j /\
    Forall (fun x => fle x m) l /\ Forall (fle m) r.
Proof.
  intros HL Hlen Hn.
  destruct (sorted_around it j Hn ltac:(lia))
    as (l & m & r & Es & Hl & HP & H1 & H2 & Hi).
  exists l, m, r.
  assert (Hr : length r = j).
  { pose proof (Permutation_length HP) as E.
    rewrite length_app in E. cbn [length] in E. lia. }
  split; [| repeat split; assumption].
  unfold Reduce.Percentile.
  assert (E : len (sort_Float64s it) = 2 * Z.of_nat j + 1).
  { unfold len. rewrite PercentileFacts.sort_Float64s_length, HL. lia. }
  unfold len in Hlen. rewrite HL in Hlen.
  rewrite E. change (50 / 100)%float with 0.5%float.
  rewrite half_of_odd, float64_of_int_pred by lia.
  replace (Z.of_nat j + 1 - 1) with (Z.of_nat j) by lia.
  rewrite int_Floor_of_int, math_Mod1_of_int by lia.
  change (0 =? 0)%float with true. cbv iota. exact Hi.
Qed.

Lemma Percentile_50_is_the_median_witness :
  exists l m r,
    Reduce.Percentile 50 [3; 1; 2]%float = Some m /\
    Permutation (l ++ m :: r) [3; 1; 2]%float /\
    length l = 1%nat /\ length r = 1%nat /\
    Forall (fun x => fle x m) l /\ Forall (fle m) r.
Proof.
  apply (Percentile_50_is_the_median [3; 1; 2]%float 1).
  - reflexivity.
  - reflexivity.
  - repeat constructor.
Defined.

Lemma lower_weight (a b : float) :
  is_finite a = true -> (a =? 0)%float = false -> is_finite b = true ->
  ((1 - 0) * a + 0 * b)%float = a.
Proof.
  intros Ha Hz Hb. change (1 - 0)%float with 1%float. rewrite mul_one.
  apply Prim2SF_inj. rewrite add_spec, mul_spec.
  rewrite eqb_spec in Hz.
  change (Prim2SF 0) with (S754_zero false) in *.
  destruct (is_finite_SF a Ha) as [(s & Ea) | (s & m & e & Ea)]; rewrite Ea in *.
  - discriminate Hz.
  - destruct (is_finite_SF b Hb) as [(t & ->) | (t & mb & eb & ->)]; reflexivity.
Qed.

(** Over a window of an even number of points, all of them numbers other
    than zero, the exact aggregator at percentile 50 does not panic and
    returns the lower of the two middle points: with [j] points at or
    below it and [j + 1] at or above it, of [2j + 2]. *)
Theorem Aggregate_50_is_the_lower_median (it : list float) (j : nat) :
  length it = (2 * j + 2)%nat -> len it < 2 ^ 53 ->
  Forall (fun x => is_finite x = true) it ->
  Forall (fun x => (x =? 0)%float = false) it ->
  exists l m r,
    Aggregate.Aggregate 50 it = Some m /\
    Permutation (l ++ m :: r) it /\ length l = j /\ length r = S j /\
    Forall (fun x => fle x m) l /\ Forall (fle m) r.
Proof.
  intros HL Hlen Hfin Hnz.
  assert (Hn : allNotNaN it).
  { unfold allNotNaN. eapply Forall_impl; [| exact Hfin].
    intros x. apply is_finite_notNaN. }
  destruct (sorted_around it j Hn ltac:(lia))
    as (l & m & r & Es & Hl & HP & H1 & H2 & Hi).
  assert (Hr : length r = S j).
  { pose proof (Permutation_length HP) as E.
    rewrite length_app in E. cbn [length] in E. lia. }
  destruct r as [| b r]; [discriminate Hr |].
  exists l, m, (b :: r).
  split; [| repeat split; assumption].
  assert (Hm : In m it).
  { apply (Permutation_in m HP). apply in_or_app. right. left. reflexivity. }
  assert (Hb : In b it).
  { apply (Permutation_in b HP). apply in_or_app. right. right. left. reflexivity. }
  rewrite Forall_forall in Hfin, Hnz.
  unfold Aggregate.Aggregate.
  assert (E : len it = 2 * (Z.of_nat j + 1)) by (unfold len; rewrite HL; lia).
  assert (E' : len (sort_Float64s it) = 2 * (Z.of_nat j + 1)).
  { unfold len. rewrite PercentileFacts.sort_Float64s_length, HL. lia. }
  destruct (len it <? 1) eqn:E1; [apply Z.ltb_lt in E1; lia |].
  destruct (len it <? 2) eqn:E2; [apply Z.ltb_lt in E2; lia |].
  rewrite E'. change (50 / 100)%float with 0.5%float.
  rewrite half_of_even, float64_of_int_pred by lia.
  replace (Z.of_nat j + 1 - 1) with (Z.of_nat j) by lia.
  rewrite int_Floor_of_int, math_Mod1_of_int by lia.
  unfold add64, sub64. rewrite !TimeWinFacts.wrap64_small by lia.
  destruct (Z.of_nat j + 1 >? 2 * (Z.of_nat j + 1) - 1) eqn:E3;
    [rewrite Z.gtb_ltb in E3; apply Z.ltb_lt in E3; lia |].
  rewrite Hi. cbn [bind].
  assert (Hi' : index (sort_Float64s it) (Z.of_nat j + 1) = Some b).
  { rewrite Es. unfold index.
    destruct (Z.of_nat j + 1 <? 0) eqn:E0; [apply Z.ltb_lt in E0; lia |].
    replace (Z.to_nat (Z.of_nat j + 1)) with (S (length l)) by lia.
    rewrite nth_error_app2 by lia.
    replace (S (length l) - length l)%nat with 1%nat by lia. reflexivity. }
  rewrite Hi'. cbn [bind]. rewrite lower_weight; auto.
Qed.

Lemma Aggregate_50_is_the_lower_median_witness :
  exists l m r,
    Aggregate.Aggregate 50 [4; 3; 1; 2]%float = Some m /\
    Permutation (l ++ m :: r) [4; 3; 1; 2]%float /\
    length l = 1%nat /\ length r = 2%nat /\
    Forall (fun x => fle x m) l /\ Forall (fle m) r.
Proof.
  apply (Aggregate_50_is_the_lower_median [4; 3; 1; 2]%float 1).
  - reflexivity.
  - reflexivity.
  - repeat constructor.
  - repeat constructor.
Defined.

(** *** A value over itself *)

Lemma div_self (x : float) :
  is_finite x = true -> (0 <? x)%float = true -> (x / x)%float = 1%float.
Proof.
  intros Hf Hpos. apply Prim2SF_inj. rewrite div_spec.
  rewrite ltb_spec in Hpos. change (Prim2SF 0) with (S754_zero false) in Hpos.
  destruct (is_finite_SF x Hf) as [(s & E) | (s & m & e & E)]; rewrite E in *.
  - discriminate Hpos.
  - unfold SF64div, SFdiv.
    assert (Hcore : SFdiv_core_binary prec emax (Z.pos m) e (Z.pos m) e
                    = (2 ^ 53, -53, loc_Exact)).
    { unfold SFdiv_core_binary.
      replace (Zdigits2 (Z.pos m) + e - (Zdigits2 (Z.pos m) + e)) with 0 by lia.
      rewrite Z.sub_diag.
      change (Z.min (fexp prec emax 0) 0) with (-53).
      change (0 - -53) with 53.
      rewrite Z.shiftl_mul_pow2 by lia.
      assert (Hd : Z.div_eucl (Z.pos m * 2 ^ 53) (Z.pos m) = (2 ^ 53, 0)).
      { pose proof (Z.div_eucl_eq (Z.pos m * 2 ^ 53) (Z.pos m) ltac:(lia)) as Heq.
        pose proof (Z.mod_pos_bound (Z.pos m * 2 ^ 53) (Z.pos m) ltac:(lia)) as Hb.
        unfold Z.modulo in Hb.
        destruct (Z.div_eucl (Z.pos m * 2 ^ 53) (Z.pos m)) as (q, r).
        assert (q = 2 ^ 53 /\ r = 0) as (-> & ->); [| reflexivity].
        assert (Z.pos m * (2 ^ 53 - q) = r) by lia.
        assert (2 ^ 53 - q = 0) by nia. lia. }
      rewrite Hd. unfold new_location.
      destruct (Z.even (Z.pos m)); reflexivity. }
    rewrite Hcore. destruct s; reflexivity.
Qed.

(** The percentage aggregator maps the lower bound to 0 and the upper
    bound to 1: what it returns is a fraction of the span from [lower] to
    [upper], not a number out of a hundred. *)
Theorem percentage_of_the_bounds (lower upper : float) :
  is_finite lower = true -> is_finite (upper - lower) = true ->
  (0 <? upper - lower)%float = true ->
  Aggregators.percentage lower upper lower = 0%float /\
  Aggregators.percentage lower upper upper = 1%float.
Proof.
  intros Hl Hspan Hpos. unfold Aggregators.percentage. split.
  - rewrite sub_self by exact Hl. reflexivity.
  - destruct (upper - lower <=? 0)%float eqn:E.
    + apply fle_nltb in E. congruence.
    + apply div_self; assumption.
Qed.

Lemma percentage_of_the_bounds_witness :
  Aggregators.percentage 10 30 10 = 0%float /\
  Aggregators.percentage 10 30 30 = 1%float.
Proof.
  apply (percentage_of_the_bounds 10 30); reflexivity.
Defined.

End ExactFloats.
